(** * AFADProject: the seismic signal-processing core, embedded in Rocq

    The JavaScript sources repeat the same numerical routines in several
    files.  Each copy is embedded separately, in a module named after its
    file:

    - [Utils]              src/matlab_port/signal_processing/utils.js
    - [Filters]            src/matlab_port/signal_processing/filters.js
    - [ProcessWithMatlab]  scripts/processWithMatlab.js   (class SignalProcessor)
    - [Gui]                src/gui/earthquakeAnalysis.js  (class EarthquakeAnalyzer)
    - [Analysis]           the analysis module            (class EarthquakeAnalyzer)

    JavaScript numbers are IEEE-754 binary64 values.  The routines are written
    once over an interface [Number] of the operations they use; the instance
    [Float64] interprets it by Rocq's primitive binary64 floats, which is what
    the scripts compute with, and the instance [Exact] by the real numbers,
    which is what the closed forms of the specification talk about. *)

From Stdlib Require Import String.
From Stdlib Require Import List ZArith Lia Bool Arith Sorted.
From Stdlib Require Floats.
From Stdlib Require Import Reals Lra.
Import ListNotations.

Set Implicit Arguments.

(** ** Numbers *)

Declare Scope num_scope.
Delimit Scope num_scope with num.

Class Number : Type := {
  num : Type;
  of_Z : Z -> num;                 (* integer literals, array indices *)
  js_add : num -> num -> num;
  js_sub : num -> num -> num;
  js_mul : num -> num -> num;
  js_div : num -> num -> num;
  js_neg : num -> num;             (* unary minus *)
  Math_abs : num -> num;
  Math_sqrt : num -> num;
  Math_PI : num;
  NaN : num;
  Infinity : num;
  js_eq : num -> num -> bool;      (* === on numbers *)
  js_lt : num -> num -> bool;
  js_le : num -> num -> bool;
  isNaN : num -> bool;
  isFinite : num -> bool
}.

Notation "x + y" := (js_add x y) : num_scope.
Notation "x - y" := (js_sub x y) : num_scope.
Notation "x * y" := (js_mul x y) : num_scope.
Notation "x / y" := (js_div x y) : num_scope.
Notation "- x" := (js_neg x) : num_scope.
Notation "x === y" := (js_eq x y) (at level 70, no associativity) : num_scope.
Notation "x <? y" := (js_lt x y) (at level 70, no associativity) : num_scope.
Notation "x <=? y" := (js_le x y) (at level 70, no associativity) : num_scope.
Notation "x >=? y" := (js_le y x) (at level 70, no associativity) : num_scope.
Notation "x >? y" := (js_lt y x) (at level 70, no associativity) : num_scope.
Notation "# z" := (of_Z z) (at level 1, format "# z") : num_scope.

(** A decimal literal [n/d] of the source (0.5, 9.81, 0.05 ...).  In binary64
    the correctly rounded quotient of two small integers is the double nearest
    to the decimal, that is, the value of the literal. *)
Definition dec {N : Number} (n d : Z) : num := (js_div (of_Z n) (of_Z d)).

(** ** Binary64 *)

Module Float64.
Import PrimFloat.

Definition float_of_Z (z : Z) : float :=
  match z with
  | Z0 => zero
  | Zpos _ => of_uint63 (Uint63.of_Z z)
  | Zneg p => opp (of_uint63 (Uint63.of_Z (Zpos p)))
  end.

#[export] Instance number : Number := {|
  num := float;
  of_Z := float_of_Z;
  js_add := add;
  js_sub := sub;
  js_mul := mul;
  js_div := div;
  js_neg := opp;
  Math_abs := abs;
  Math_sqrt := sqrt;
  Math_PI := 0x1.921fb54442d18p+1%float;
  NaN := nan;
  Infinity := infinity;
  js_eq := eqb;
  js_lt := ltb;
  js_le := leb;
  isNaN := is_nan;
  isFinite := is_finite
|}.

End Float64.

(** ** Exact arithmetic

    The same operations without rounding: the real numbers, with the two
    infinities and NaN that division by zero and [Math.max()] call for.
    There is no negative zero; [x / 0] takes the sign of [x]. *)

Module Exact.

Inductive xreal : Type :=
| Fin (r : R)
| PInf
| NInf
| XNaN.

Definition Rsign_inf (r : R) : xreal :=
  if Rlt_dec 0 r then PInf else if Rlt_dec r 0 then NInf else XNaN.

Definition xneg (x : xreal) : xreal :=
  match x with
  | Fin r => Fin (- r)
  | PInf => NInf
  | NInf => PInf
  | XNaN => XNaN
  end.

Definition xadd (x y : xreal) : xreal :=
  match x, y with
  | Fin a, Fin b => Fin (a + b)
  | Fin _, PInf | PInf, Fin _ | PInf, PInf => PInf
  | Fin _, NInf | NInf, Fin _ | NInf, NInf => NInf
  | _, _ => XNaN
  end.

Definition xsub (x y : xreal) : xreal := xadd x (xneg y).

Definition xmul (x y : xreal) : xreal :=
  match x, y with
  | Fin a, Fin b => Fin (a * b)
  | Fin a, PInf | PInf, Fin a => Rsign_inf a
  | Fin a, NInf | NInf, Fin a => Rsign_inf (- a)
  | PInf, PInf | NInf, NInf => PInf
  | PInf, NInf | NInf, PInf => NInf
  | _, _ => XNaN
  end.

Definition xdiv (x y : xreal) : xreal :=
  match x, y with
  | Fin a, Fin b => if Req_dec_T b 0 then Rsign_inf a else Fin (a / b)
  | Fin _, PInf | Fin _, NInf => Fin 0
  | PInf, Fin b => if Rlt_dec b 0 then NInf else PInf
  | NInf, Fin b => if Rlt_dec b 0 then PInf else NInf
  | _, _ => XNaN
  end.

Definition xabs (x : xreal) : xreal :=
  match x with
  | Fin r => Fin (Rabs r)
  | PInf | NInf => PInf
  | XNaN => XNaN
  end.

Definition xsqrt (x : xreal) : xreal :=
  match x with
  | Fin r => if Rlt_dec r 0 then XNaN else Fin (sqrt r)
  | PInf => PInf
  | _ => XNaN
  end.

Definition xcos (x : xreal) : xreal :=
  match x with Fin r => Fin (cos r) | _ => XNaN end.

Definition xsin (x : xreal) : xreal :=
  match x with Fin r => Fin (sin r) | _ => XNaN end.

Definition xeq (x y : xreal) : bool :=
  match x, y with
  | Fin a, Fin b => if Req_dec_T a b then true else false
  | PInf, PInf | NInf, NInf => true
  | _, _ => false
  end.

Definition xlt (x y : xreal) : bool :=
  match x, y with
  | Fin a, Fin b => if Rlt_dec a b then true else false
  | NInf, Fin _ | NInf, PInf | Fin _, PInf => true
  | _, _ => false
  end.

Definition xle (x y : xreal) : bool := xlt x y || xeq x y.

#[export] Instance number : Number := {|
  num := xreal;
  of_Z := fun z => Fin (IZR z);
  js_add := xadd;
  js_sub := xsub;
  js_mul := xmul;
  js_div := xdiv;
  js_neg := xneg;
  Math_abs := xabs;
  Math_sqrt := xsqrt;
  Math_PI := Fin PI;
  NaN := XNaN;
  Infinity := PInf;
  js_eq := xeq;
  js_lt := xlt;
  js_le := xle;
  isNaN := fun x => match x with XNaN => true | _ => false end;
  isFinite := fun x => match x with Fin _ => true | _ => false end
|}.

End Exact.

(** ** Exceptions *)

Inductive exn : Type :=
| Error (msg : string)     (* throw new Error(msg) *)
| TypeError.               (* reading a property of undefined *)

Inductive result (A : Type) : Type :=
| Ok (a : A)
| Throw (e : exn).

Arguments Ok {A} a.
Arguments Throw {A} e.

Definition bind {A B} (r : result A) (k : A -> result B) : result B :=
  match r with
  | Ok a => k a
  | Throw e => Throw e
  end.

Notation "x <- r ;; k" := (bind r (fun x => k))
  (at level 61, r at next level, right associativity).

Definition is_ok {A} (r : result A) : bool :=
  match r with Ok _ => true | Throw _ => false end.

(** ** Arrays

    An array of numbers that the caller passes in is a [list].  An array that
    a routine builds by [new Array(n)] and indexed stores is a [jsarray]: a
    list whose holes are [None].  A store past the end extends the array. *)

Definition jsarray (A : Type) := list (option A).

Definition new_Array {A} (n : nat) : jsarray A := repeat None n.

(** [a[i] = o]; storing [undefined] is storing [None] *)
Fixpoint js_store {A} (i : nat) (o : option A) (a : jsarray A) : jsarray A :=
  match i, a with
  | O, [] => [o]
  | O, _ :: t => o :: t
  | S j, [] => None :: js_store j o []
  | S j, h :: t => h :: js_store j o t
  end.

Definition js_set {A} (i : nat) (v : A) (a : jsarray A) : jsarray A :=
  js_store i (Some v) a.

Definition js_get {A} (a : jsarray A) (i : nat) : option A :=
  match nth_error a i with
  | Some (Some v) => Some v
  | _ => None
  end.

(** [undefined] in arithmetic is [NaN] *)
Definition to_num {N : Number} (o : option num) : num :=
  match o with Some v => v | None => NaN end.

Definition at_ {N : Number} (x : list num) (i : nat) : num :=
  to_num (nth_error x i).

Definition hole_at {N : Number} (a : jsarray num) (i : nat) : num :=
  to_num (js_get a i).

Notation "x .[ i ]" := (at_ x i) (at level 1, format "x .[ i ]") : num_scope.
Notation "a .{ i }" := (hole_at a i) (at level 1, format "a .{ i }") : num_scope.

Definition dense {A} (a : jsarray A) : Prop := Forall (fun o => o <> None) a.

(** the slots below [k] have been written *)
Definition filled {A} (k : nat) (a : jsarray A) : Prop :=
  forall i, i < k -> exists v, nth_error a i = Some (Some v).

(** Reading a property of an array element: [undefined.real] throws. *)
Definition obj {A} (o : option A) : result A :=
  match o with Some v => Ok v | None => Throw TypeError end.

(** [for (k = start; k < start + count; k++) body], with exceptions *)
Fixpoint for_loop {S} (start count : nat) (body : nat -> S -> result S) (s : S)
  : result S :=
  match count with
  | O => Ok s
  | S c => s' <- body start s ;; for_loop (Datatypes.S start) c body s'
  end.

(** [a.map(f)] where the callback reads properties of its argument; the
    array that [map] returns is a plain list *)
Fixpoint map_obj_from {A B} (i : nat) (f : A -> nat -> B) (a : jsarray A)
  : result (list B) :=
  match a with
  | [] => Ok []
  | o :: t => v <- obj o ;; r <- map_obj_from (S i) f t ;; Ok (f v i :: r)
  end.

Definition map_obj {A B} (f : A -> nat -> B) (a : jsarray A) : result (list B) :=
  map_obj_from 0 f a.

(** [Array.from({length: n}, (_, i) => f i)] and [a.map((v, i) => f v i)] *)
Definition tabulate {A} (n : nat) (f : nat -> A) : list A := map f (seq 0 n).

Fixpoint mapi_from {A B} (i : nat) (f : A -> nat -> B) (l : list A) : list B :=
  match l with
  | [] => []
  | a :: t => f a i :: mapi_from (S i) f t
  end.

Definition mapi {A B} (f : A -> nat -> B) (l : list A) : list B := mapi_from 0 f l.

(** [l.reduce((acc, v, i) => f acc v i, init)] *)
Fixpoint reducei_from {A B} (i : nat) (f : B -> A -> nat -> B) (l : list A) (acc : B) : B :=
  match l with
  | [] => acc
  | a :: t => reducei_from (S i) f t (f acc a i)
  end.

Definition reducei {A B} (f : B -> A -> nat -> B) (l : list A) (init : B) : B :=
  reducei_from 0 f l init.

(** elements at even and at odd indices *)
Fixpoint evens {A} (l : list A) : list A :=
  match l with
  | [] => []
  | a :: t => a :: odds t
  end
with odds {A} (l : list A) : list A :=
  match l with
  | [] => []
  | _ :: t => evens t
  end.

(** [Math.pow(2, Math.ceil(Math.log2(n)))] for an array length [n >= 1]: the
    least power of two that is at least [n]. *)
Definition nextPow2 (n : nat) : nat := 2 ^ Nat.log2_up n.

Section Library.
Context {N : Number}.
Local Open Scope num_scope.

Definition of_nat (n : nat) : num := of_Z (Z.of_nat n).

(** [Math.max(...l)]: -Infinity for no argument, NaN as soon as one argument
    is NaN.  (Every call in these scripts passes absolute values or square
    roots of sums of squares, so the order of -0 and +0 never matters.) *)
Definition Math_max (l : list num) : num :=
  fold_left (fun m x => if isNaN m || isNaN x then NaN
                        else if m <? x then x else m)
            l (- Infinity).

(** [l.indexOf(v)]: the first index whose element is [=== v], or -1 *)
Fixpoint indexOf_from (i : nat) (l : list num) (v : num) : Z :=
  match l with
  | [] => (-1)%Z
  | a :: t => if a === v then Z.of_nat i else indexOf_from (S i) t v
  end.

Definition indexOf (l : list num) (v : num) : Z := indexOf_from 0 l v.

(** [l[i]] for a possibly negative index: a value or [undefined] *)
Definition at_Z (l : list num) (i : Z) : option num :=
  if (i <? 0)%Z then None else nth_error l (Z.to_nat i).

(** a number is truthy unless it is 0 or NaN *)
Definition truthy (x : num) : bool := negb (x === #0) && negb (isNaN x).

(** [o || d] for an optional numeric argument *)
Definition or_default (o : option num) (d : num) : num :=
  match o with
  | Some x => if truthy x then x else d
  | None => d
  end.

Record complex : Type := Complex { real : num; imag : num }.

Inductive sample : Type :=
| Re (x : num)          (* typeof val === 'number' *)
| Cx (c : complex).

Definition to_complex (s : sample) : complex :=
  match s with
  | Re x => {| real := x; imag := #0 |}
  | Cx c => c
  end.

(** the values a field of a result object can hold *)
Inductive value : Type :=
| Undefined
| Null
| Num (x : num).

Definition value_at (l : list num) (i : nat) : value :=
  match nth_error l i with Some x => Num x | None => Undefined end.

Definition value_at_Z (l : list num) (i : Z) : value :=
  if (i <? 0)%Z then Undefined else value_at l (Z.to_nat i).

(** ToNumber *)
Definition value_num (v : value) : num :=
  match v with
  | Num x => x
  | Null => #0
  | Undefined => NaN
  end.

(** [a.map(f)] where the callback computes with its argument as a number *)
Definition map_num {B} (f : num -> B) (a : jsarray num) : list B :=
  map (fun o => f (to_num o)) a.

Definition value_isNaN (v : value) : bool :=
  match v with
  | Num x => isNaN x
  | _ => false
  end.

End Library.

(** [Math.cos], [Math.sin]: host functions, not part of the scripts.
    ECMAScript leaves their accuracy to the implementation and fixes only
    special values, among them cos(-0) = 1 and sin(-0) = -0. *)
Class Trig (N : Number) : Type := {
  Math_cos : num -> num;
  Math_sin : num -> num
}.

Definition conforming (T : Trig Float64.number) : Prop :=
  @Math_cos Float64.number T (- #0)%num = #1%num /\
  @Math_sin Float64.number T (- #0)%num = (- #0)%num.

(** in exact arithmetic, the cosine and the sine *)
#[export] Instance exact_trig : Trig Exact.number :=
  @Build_Trig Exact.number Exact.xcos Exact.xsin.

(** [Math.tan], [Math.pow], [Math.atan2] and the conversion of a number to a
    string in a template literal: host functions too. *)
Class Host (N : Number) : Type := {
  Math_tan : num -> num;
  Math_pow : num -> num -> num;
  Math_atan2 : num -> num -> num;
  number_toString : num -> string
}.

Local Open Scope num_scope.

(** an array element read as a number: [undefined] is NaN in arithmetic *)
Definition numbers {N : Number} (a : jsarray num) : list num := map to_num a.

(** ** The radix-2 transform

    fftRecursive, complexAdd, complexSubtract and complexMultiply are the same
    text in utils.js, filters.js, processWithMatlab.js and earthquakeAnalysis.js
    up to the names of local variables; utils.js splits its input by a loop
    that pushes [x[i]] onto [even] or [odd], the others by
    [x.filter((_, i) => i % 2 === 0)] and [... === 1]. *)

Module Radix2.
Section WithNumber.
Context {N : Number} {T : Trig N}.

Definition complexAdd (a b : complex) : complex :=
  {| real := real a + real b; imag := imag a + imag b |}.

Definition complexSubtract (a b : complex) : complex :=
  {| real := real a - real b; imag := imag a - imag b |}.

Definition complexMultiply (a b : complex) : complex :=
  {| real := real a * real b - imag a * imag b;
     imag := real a * imag b + imag a * real b |}.

(** The combine loop, [for (k = 0; k < n / 2; k++)].  [n / 2] is a quotient of
    numbers, so for odd [n] the loop also runs for [k = (n - 1) / 2], and
    [k + n / 2] is then no array index: the store creates a property and
    leaves the elements alone. *)
Definition combine (n : nat) (evenFFT oddFFT : jsarray complex)
  : result (jsarray complex) :=
  for_loop 0 ((n + 1) / 2)
    (fun k result =>
       let angle := #(-2) * Math_PI * of_nat k / of_nat n in
       let twiddle := {| real := Math_cos angle; imag := Math_sin angle |} in
       o <- obj (js_get oddFFT k) ;;
       let temp := complexMultiply twiddle o in
       e <- obj (js_get evenFFT k) ;;
       let result := js_set k (complexAdd e temp) result in
       Ok (if Nat.even n
           then js_set (k + n / 2) (complexSubtract e temp) result
           else result))
    (new_Array n).

(** function fftRecursive(x).  The recursion is on the halves of [x]; [fuel]
    bounds its depth.  With [length x <= fuel], as in [fftRecursive] below,
    fuel 0 means an empty [x], which the source returns as it is. *)
Fixpoint fftRecursive_fuel (fuel : nat) (x : list complex)
  : result (jsarray complex) :=
  match fuel with
  | O => Ok (map Some x)
  | S fuel =>
      let n := length x in
      if (n <=? 1)%nat then Ok (map Some x)
      else
        let even := evens x in
        let odd := odds x in
        evenFFT <- fftRecursive_fuel fuel even ;;
        oddFFT <- fftRecursive_fuel fuel odd ;;
        combine n evenFFT oddFFT
  end.

Definition fftRecursive (x : list complex) : result (jsarray complex) :=
  fftRecursive_fuel (length x) x.

End WithNumber.
End Radix2.

(** ** utils.js *)

Module Utils.
Section WithNumber.
Context {N : Number} {T : Trig N}.

(** function detrend(data) *)
Definition detrend (data : list num) : list num :=
  let n := length data in
  if (n <? 2)%nat then data
  else
    let x := tabulate n of_nat in
    let sumX := fold_left (fun a b => a + b) x #0 in
    let sumY := fold_left (fun a b => a + b) data #0 in
    let sumXY := reducei (fun sum xi i => sum + xi * data.[i]) x #0 in
    let sumXX := fold_left (fun sum xi => sum + xi * xi) x #0 in
    let slope := (of_nat n * sumXY - sumX * sumY) / (of_nat n * sumXX - sumX * sumX) in
    let intercept := (sumY - slope * sumX) / of_nat n in
    mapi (fun yi i => yi - (slope * of_nat i + intercept)) data.

(** function trapz(x, y) *)
Definition trapz (x y : list num) : result num :=
  if negb (length x =? length y)%nat || (length x <? 2)%nat then
    Throw (Error "trapz: x and y must have same length and at least 2 elements")
  else
    Ok (fold_left
          (fun integral i =>
             let dx := x.[i] - x.[i - 1] in
             let avgY := (y.[i] + y.[i - 1]) / #2 in
             integral + dx * avgY)
          (seq 1 (length x - 1)) #0).

(** function cumtrapz(x, y) *)
Definition cumtrapz (x y : list num) : result (jsarray num) :=
  if negb (length x =? length y)%nat then
    Throw (Error "cumtrapz: x and y must have same length")
  else
    let result := js_set 0 #0 (new_Array (length x)) in
    Ok (fold_left
          (fun result i =>
             let dx := x.[i] - x.[i - 1] in
             let avgY := (y.[i] + y.[i - 1]) / #2 in
             js_set i (result.{i - 1} + dx * avgY) result)
          (seq 1 (length x - 1)) result).

Definition fftRecursive : list complex -> result (jsarray complex) :=
  Radix2.fftRecursive.

(** function fft(signal) *)
Definition fft (signal : list sample) : result (jsarray complex) :=
  let n := length signal in
  let x := map to_complex signal in
  if (n <=? 1)%nat then Ok (map Some x)
  else
    let nextPow2 := nextPow2 n in
    let x :=
      if negb (n =? nextPow2)%nat
      then x ++ repeat {| real := #0; imag := #0 |} (nextPow2 - length x)
      else x in
    fftRecursive x.

(** function ifft(spectrum) *)
Definition ifft (spectrum : jsarray complex) : result (list complex) :=
  conjugated <- map_obj (fun c _ => {| real := real c; imag := - imag c |}) spectrum ;;
  result <- fft (map Cx conjugated) ;;
  let n := length result in
  map_obj (fun c _ => {| real := real c / of_nat n; imag := - imag c / of_nat n |})
          result.

(** function complexAbs(c) *)
Definition complexAbs (c : complex) : num :=
  Math_sqrt (real c * real c + imag c * imag c).

(** function find(array, condition) *)
Definition find (array : list num) (condition : num -> nat -> bool) : list nat :=
  fold_left (fun indices i => if condition array.[i] i then indices ++ [i] else indices)
            (seq 0 (length array)) [].

(** The loop [while (i < x.length - 1 && x[i + 1] < xVal) i++] of interp1;
    [i] stays below [x.length], which bounds the number of turns. *)
Fixpoint interp1_search (fuel : nat) (x : list num) (xVal : num) (i : nat) : nat :=
  match fuel with
  | O => i
  | S fuel =>
      if (i <? length x - 1)%nat && (x.[i + 1] <? xVal)
      then interp1_search fuel x xVal (i + 1)
      else i
  end.

(** function interp1(x, y, xi).  For an empty [x] the index [x.length - 1] is
    -1 and [x[-1]] is undefined, as is [x[0]]. *)
Definition interp1 (x y xi : list num) : result (list num) :=
  if negb (length x =? length y)%nat then
    Throw (Error "interp1: x and y must have same length")
  else
    Ok (map (fun xVal =>
               let i := interp1_search (length x) x xVal 0 in
               if xVal <=? x.[0] then y.[0]
               else if xVal >=? x.[length x - 1] then y.[length y - 1]
               else
                 let x0 := x.[i] in
                 let x1 := x.[i + 1] in
                 let y0 := y.[i] in
                 let y1 := y.[i + 1] in
                 let t := (xVal - x0) / (x1 - x0) in
                 y0 + t * (y1 - y0))
            xi).

(** function generateTimeArray(dt, length) *)
Definition generateTimeArray (dt : num) (length : nat) : list num :=
  tabulate length (fun i => of_nat i * dt).

(** function maxAbs(array) *)
Definition maxAbs (array : list num) : num := Math_max (map Math_abs array).

(** function mean(array) *)
Definition mean (array : list num) : num :=
  fold_left (fun sum val => sum + val) array #0 / of_nat (length array).

(** function highPassFilter(data, fs, cornerFreq) *)
Definition highPassFilter (data : list num) (fs cornerFreq : num)
  : result (list num) :=
  let detrendedData := detrend data in
  fftData <- fft (map Re detrendedData) ;;
  let n := length fftData in
  let frequencies := tabulate n (fun i => of_nat i * fs / of_nat n) in
  let hpFilter : jsarray num :=
    map (fun f => Some (if f >=? cornerFreq then #1 else #0)) frequencies in
  let hpFilter :=
    if (n mod 2 =? 0)%nat then
      fold_left (fun hp i => js_store i (js_get hp (n - i)) hp)
                (seq (n / 2 + 1) (n - (n / 2 + 1))) hpFilter
    else
      fold_left (fun hp i => js_store i (js_get hp (n - i)) hp)
                (seq (n / 2 + 1) (n - (n / 2 + 1))) hpFilter in
  filteredFFT <- map_obj (fun c i => {| real := real c * hpFilter.{i};
                                        imag := imag c * hpFilter.{i} |})
                         fftData ;;
  ifftResult <- ifft (map Some filteredFFT) ;;
  Ok (map real ifftResult).

(** function newmarkBeta(params) *)
Record newmark_params : Type := {
  p_acceleration : list num;
  p_dt : num;
  p_omega : num;
  p_zeta : num;
  p_beta : option num;       (* default 1/4 *)
  p_gamma : option num       (* default 1/2 *)
}.

Record newmark_response : Type := {
  displacement : jsarray num;
  velocity : jsarray num;
  acceleration : jsarray num
}.

Definition newmarkBeta (params : newmark_params) : newmark_response :=
  let acceleration := p_acceleration params in
  let dt := p_dt params in
  let omega := p_omega params in
  let zeta := p_zeta params in
  let beta := match p_beta params with Some b => b | None => #1 / #4 end in
  let gamma := match p_gamma params with Some g => g | None => #1 / #2 end in
  let n := length acceleration in
  let m := #1 in
  let k := m * omega * omega in
  let c := #2 * zeta * m * omega in
  let a0 := #1 / (beta * dt * dt) in
  let a1 := gamma / (beta * dt) in
  let a2 := #1 / (beta * dt) in
  let a3 := #1 / (#2 * beta) - #1 in
  let a4 := gamma / beta - #1 in
  let a5 := dt * (gamma / (#2 * beta) - #1) in
  let keff := k + a0 * m + a1 * c in
  let zeros : jsarray num := repeat (Some #0) n in
  let '(u, v, acc) :=
    fold_left
      (fun '(u, v, acc) i =>
         let dp := - m * (acceleration.[i] - acceleration.[i - 1]) in
         let rhs := dp +
                    m * (a0 * u.{i - 1} + a2 * v.{i - 1} + a3 * acc.{i - 1}) +
                    c * (a1 * u.{i - 1} + a4 * v.{i - 1} + a5 * acc.{i - 1}) in
         let du := rhs / keff in
         let dv := a1 * (du - u.{i - 1}) - a4 * v.{i - 1} - a5 * acc.{i - 1} in
         let da := a0 * (du - u.{i - 1}) - a2 * v.{i - 1} - a3 * acc.{i - 1} in
         (js_set i du u, js_set i dv v, js_set i da acc))
      (seq 1 (n - 1)) (zeros, zeros, zeros) in
  {| displacement := u; velocity := v; acceleration := acc |}.

End WithNumber.
End Utils.

(** ** filters.js *)

Module Filters.
Section WithNumber.
Context {N : Number} {T : Trig N}.

(** function detrend(data) *)
Definition detrend (data : list num) : list num :=
  if (length data =? 0)%nat then []
  else
    let n := length data in
    let x := tabulate n of_nat in
    let sumX := fold_left (fun a b => a + b) x #0 in
    let sumY := fold_left (fun a b => a + b) data #0 in
    let sumXY := reducei (fun sum xi i => sum + xi * data.[i]) x #0 in
    let sumX2 := fold_left (fun sum xi => sum + xi * xi) x #0 in
    let slope := (of_nat n * sumXY - sumX * sumY) / (of_nat n * sumX2 - sumX * sumX) in
    let intercept := (sumY - slope * sumX) / of_nat n in
    mapi (fun yi i => yi - (slope * of_nat i + intercept)) data.

Definition fftRecursive : list complex -> result (jsarray complex) :=
  Radix2.fftRecursive.

(** function fft(x), for an array of numbers ("Real input signal") *)
Definition fft (x : list num) : result (jsarray complex) :=
  let N_ := length x in
  if (N_ <=? 1)%nat then Ok (map (fun val => Some {| real := val; imag := #0 |}) x)
  else
    let X := map (fun val => {| real := val; imag := #0 |}) x in
    fftRecursive X.

(** function ifft(X) *)
Definition ifft (X : list complex) : result (list complex) :=
  let N_ := length X in
  let Xconj := map (fun val => {| real := real val; imag := - imag val |}) X in
  result <- fftRecursive Xconj ;;
  map_obj (fun val _ => {| real := real val / of_nat N_; imag := - imag val / of_nat N_ |})
          result.

(** function preprocessBoore(data, fs, cornerFreq, order = 2); [order] is not
    used by the body *)
Definition preprocessBoore (data : list num) (fs cornerFreq : num)
  : result (list num) :=
  if (length data =? 0)%nat then Throw (Error "Input data is empty or invalid")
  else if (fs <=? #0) || (cornerFreq <=? #0) then
    Throw (Error "Sampling frequency and corner frequency must be positive")
  else
    let detrendedData := detrend data in
    let N_ := length detrendedData in
    fftData <- fft detrendedData ;;
    let f := tabulate N_ (fun i => of_nat i * fs / of_nat N_) in
    let hpFilter : jsarray num :=
      map (fun freq => Some (if freq <? cornerFreq then #0 else #1)) f in
    let hpFilter :=
      if (N_ mod 2 =? 0)%nat then
        fold_left (fun hp i => js_store i (js_get hp (N_ - i)) hp)
                  (seq (N_ / 2 + 1) (N_ - (N_ / 2 + 1))) hpFilter
      else
        fold_left (fun hp i => js_store i (js_get hp (N_ - i)) hp)
                  (seq ((N_ + 1) / 2) (N_ - (N_ + 1) / 2)) hpFilter in
    fftFiltered <- map_obj (fun val i => {| real := real val * hpFilter.{i};
                                           imag := imag val * hpFilter.{i} |})
                           fftData ;;
    filtered <- ifft fftFiltered ;;
    Ok (map real filtered).

(** function filter(b, a, x): the delay line [w] and the output [y] are
    updated in place, one input sample per turn of the outer loop *)
Definition filter (b a : list num) (x : jsarray num) : jsarray num :=
  let y : jsarray num := new_Array (length x) in
  let w : jsarray num := repeat (Some #0) (Nat.max (length b) (length a)) in
  let a0 := a.[0] in
  let bNorm := map (fun coeff => coeff / a0) b in
  let aNorm := map (fun coeff => coeff / a0) a in
  snd (fold_left
         (fun '(w, y) n =>
            (* shift delay line *)
            let w := fold_left (fun w i => js_store i (js_get w (i - 1)) w)
                               (rev (seq 1 (length w - 1))) w in
            (* input *)
            let w := js_store 0 (js_get x n) w in
            (* feedback *)
            let w := fold_left
                       (fun w i => if (i <? length w)%nat
                                   then js_set 0 (w.{0} - aNorm.[i] * w.{i}) w
                                   else w)
                       (seq 1 (length aNorm - 1)) w in
            (* output *)
            let y := js_set n #0 y in
            let y := fold_left (fun y i => js_set n (y.{n} + bNorm.[i] * w.{i}) y)
                               (seq 0 (Nat.min (length bNorm) (length w))) y in
            (w, y))
         (seq 0 (length x)) (w, y)).

(** function filtfilt(b, a, x) *)
Definition filtfilt (b a : list num) (x : jsarray num) : jsarray num :=
  let y := filter b a x in
  let y := rev y in
  let y := filter b a y in
  rev y.

(** function designButterworthHP(normalizedCutoff, order) *)
Definition designButterworthHP {H : Host N} (normalizedCutoff order : num)
  : result (list num * list num) :=
  let wc := Math_tan (Math_PI * normalizedCutoff / #2) in
  let k := Math_pow wc order in
  if order === #2 then
    let sqrt2 := Math_sqrt #2 in
    let wc2 := wc * wc in
    let b := [#1; #(-2); #1] in
    let a := [#1 + sqrt2 * wc + wc2; #2 * (wc2 - #1); #1 - sqrt2 * wc + wc2] in
    let norm := a.[0] in
    Ok (map (fun coeff => coeff / norm) b, map (fun coeff => coeff / norm) a)
  else
    Throw (Error ("Butterworth filter design for order " ++ number_toString order
                  ++ " not implemented")).

(** function butterworthHighPass(data, fs, cutoffFreq, order = 4) *)
Definition butterworthHighPass {H : Host N} (data : list num) (fs cutoffFreq : num)
  (order : option num) : result (jsarray num) :=
  let order := match order with Some o => o | None => #4 end in
  let nyquist := fs / #2 in
  let normalizedCutoff := cutoffFreq / nyquist in
  if normalizedCutoff >=? #1 then
    Throw (Error "Cutoff frequency must be less than Nyquist frequency")
  else
    ba <- designButterworthHP normalizedCutoff order ;;
    Ok (filtfilt (fst ba) (snd ba) (map Some data)).

End WithNumber.
End Filters.

(** ** processWithMatlab.js, class SignalProcessor *)

Module ProcessWithMatlab.
Section WithNumber.
Context {N : Number} {T : Trig N}.

(** constructor *)
Definition defaultCornerFreq : num := dec 5 100.
Definition defaultDampingRatio : num := dec 5 100.
Definition gravitationalAccel : num := dec 981 100.

(** detrend(data) *)
Definition detrend (data : list num) : list num :=
  let n := length data in
  if (n <? 2)%nat then data
  else
    let x := tabulate n of_nat in
    let sumX := fold_left (fun a b => a + b) x #0 in
    let sumY := fold_left (fun a b => a + b) data #0 in
    let sumXY := reducei (fun acc xi i => acc + xi * data.[i]) x #0 in
    let sumXX := fold_left (fun acc xi => acc + xi * xi) x #0 in
    let slope := (of_nat n * sumXY - sumX * sumY) / (of_nat n * sumXX - sumX * sumX) in
    let intercept := (sumY - slope * sumX) / of_nat n in
    mapi (fun yi i => yi - (slope * of_nat i + intercept)) data.

Definition _fftRecursive : list complex -> result (jsarray complex) :=
  Radix2.fftRecursive.

(** fft(signal) *)
Definition fft (signal : list num) : result (jsarray complex) :=
  let N_ := length signal in
  if (N_ <=? 1)%nat then Ok (map (fun x => Some {| real := x; imag := #0 |}) signal)
  else
    let nextPow2 := nextPow2 N_ in
    let padded := signal ++ repeat #0 (nextPow2 - length signal) in
    _fftRecursive (map (fun x => {| real := x; imag := #0 |}) padded).

(** ifft(X) *)
Definition ifft (X : list complex) : result (list complex) :=
  let N_ := length X in
  let conjugated := map (fun x => {| real := real x; imag := - imag x |}) X in
  result <- _fftRecursive conjugated ;;
  map_obj (fun x _ => {| real := real x / of_nat N_; imag := - imag x / of_nat N_ |})
          result.

(** highPassFilter(data, fs, cornerFreq) *)
Definition highPassFilter (data : list num) (fs cornerFreq : num)
  : result (list num) :=
  let detrended := detrend data in
  fftData <- fft detrended ;;
  let N_ := length fftData in
  let frequencies := tabulate N_ (fun i => of_nat i * fs / of_nat N_) in
  let filter : jsarray num :=
    map (fun f => Some (if f >=? cornerFreq then #1 else #0)) frequencies in
  let filter :=
    fold_left (fun flt i => js_store i (js_get flt (N_ - i)) flt)
              (seq (N_ / 2 + 1) (N_ - (N_ / 2 + 1))) filter in
  filtered <- map_obj (fun val i => {| real := real val * filter.{i};
                                      imag := imag val * filter.{i} |})
                      fftData ;;
  result <- ifft filtered ;;
  Ok (firstn (length data) (map real result)).

(** cumtrapz(time, data) *)
Definition cumtrapz (time data : list num) : result (jsarray num) :=
  if negb (length time =? length data)%nat then
    Throw (Error "Time and data arrays must have same length")
  else
    let integrated : jsarray num := [Some #0] in
    Ok (fold_left
          (fun integrated i =>
             let dt := time.[i] - time.[i - 1] in
             let area := dec 5 10 * (data.[i] + data.[i - 1]) * dt in
             js_set i (integrated.{i - 1} + area) integrated)
          (seq 1 (length data - 1)) integrated).

(** calculatePeakValues(acceleration, velocity, displacement) *)
Record peak_values : Type := { PGA : num; PGV : num; PGD : num }.

Definition calculatePeakValues (acceleration : list num)
  (velocity displacement : jsarray num) : peak_values :=
  {| PGA := Math_max (map Math_abs acceleration);
     PGV := Math_max (map_num Math_abs velocity);
     PGD := Math_max (map_num Math_abs displacement) |}.

(** calculateBracketedDuration(time, acceleration, threshold) *)
Record bracketed_duration : Type := {
  duration : num;
  startTime : value;
  endTime : value;
  startIndex : Z;
  endIndex : Z
}.

Definition calculateBracketedDuration (time acceleration : list num) (threshold : num)
  : bracketed_duration :=
  let aboveThreshold :=
    filter (fun i => negb (i =? -1)%Z)
           (mapi (fun acc i => if Math_abs acc >=? threshold then Z.of_nat i else (-1)%Z)
                 acceleration) in
  if (length aboveThreshold =? 0)%nat then
    {| duration := #0;
       startTime := Num NaN;
       endTime := Num NaN;
       startIndex := -1;
       endIndex := -1 |}
  else
    let startIndex := nth 0 aboveThreshold 0%Z in
    let endIndex := nth (length aboveThreshold - 1) aboveThreshold 0%Z in
    {| duration := value_num (value_at_Z time endIndex) - value_num (value_at_Z time startIndex);
       startTime := value_at_Z time startIndex;
       endTime := value_at_Z time endIndex;
       startIndex := startIndex;
       endIndex := endIndex |}.

(** findSiteFrequency(acceleration, fs) *)
Record site_frequency : Type := {
  frequency : option num;      (* [None] is undefined *)
  magnitude : option num;
  frequencies : list num;
  magnitudes : list num
}.

Definition findSiteFrequency (acceleration : list num) (fs : num)
  : result site_frequency :=
  fftResult <- fft acceleration ;;
  let N_ := length fftResult in
  let frequencies := tabulate (N_ / 2) (fun i => of_nat i * fs / of_nat N_) in
  magnitudes <- map_obj (fun x _ => Math_sqrt (real x * real x + imag x * imag x))
                        (firstn (N_ / 2) fftResult) ;;
  let maxIndex := indexOf magnitudes (Math_max magnitudes) in
  Ok {| frequency := at_Z frequencies maxIndex;
        magnitude := at_Z magnitudes maxIndex;
        frequencies := frequencies;
        magnitudes := magnitudes |}.

(** calculateAriasIntensity(time, acceleration) *)
Record arias_intensity : Type := {
  total : num;
  cumulative : list num;
  totalMeterUnits : num
}.

Definition calculateAriasIntensity (time acceleration : list num)
  : result arias_intensity :=
  let accMps2 := map (fun a => a / #100) acceleration in
  let accSquared := map (fun a => a * a) accMps2 in
  integrated <- cumtrapz time accSquared ;;
  let cumulative :=
    map_num (fun val => (Math_PI / (#2 * gravitationalAccel)) * val) integrated in
  let total := cumulative.[length cumulative - 1] in
  Ok {| total := total * #100;
        cumulative := map (fun val => val * #100) cumulative;
        totalMeterUnits := total |}.

(** The loop [for (let T = 0.01; T <= 10; T += 0.02)] that fills [periods]:
    [fuel] bounds the number of turns. *)
Fixpoint period_loop (fuel : nat) (T_ : num) : list num :=
  match fuel with
  | O => []
  | S fuel => if T_ <=? #10 then T_ :: period_loop fuel (T_ + dec 2 100) else []
  end.

Definition period_grid : list num := period_loop 1000 (dec 1 100).

(** calculateResponseSpectrum(acceleration, time, dampingRatio = 0.05) *)
Record newmark_constants : Type := {
  a0 : num; a1 : num; a2 : num; a3 : num; a4 : num; a5 : num
}.

Definition newmark (dt : num) : newmark_constants :=
  let beta := dec 25 100 in
  let gamma := dec 5 10 in
  {| a0 := #1 / (beta * dt * dt);
     a1 := gamma / (beta * dt);
     a2 := #1 / (beta * dt);
     a3 := #1 / (#2 * beta) - #1;
     a4 := gamma / beta - #1;
     a5 := dt * (gamma / (#2 * beta) - #1) |}.

(** the loop "Time integration", for one oscillator *)
Definition timeIntegration (acceleration : list num) (nc : newmark_constants)
  (m c keff : num) : jsarray num * jsarray num * jsarray num :=
  let zeros : jsarray num := repeat (Some #0) (length acceleration) in
  fold_left
    (fun '(u, v, a) j =>
       let dp := - m * (acceleration.[j] - acceleration.[j - 1]) in
       let rhs := dp +
                  m * (a0 nc * u.{j - 1} + a2 nc * v.{j - 1} + a3 nc * a.{j - 1}) +
                  c * (a1 nc * u.{j - 1} + a4 nc * v.{j - 1} + a5 nc * a.{j - 1}) in
       let du := rhs / keff in
       let dv := a1 nc * du - a4 nc * u.{j - 1} - a2 nc * v.{j - 1} - a5 nc * a.{j - 1} in
       let da := a0 nc * du - a0 nc * u.{j - 1} - a2 nc * v.{j - 1} - a3 nc * a.{j - 1} in
       (js_set j du u, js_set j dv v, js_set j da a))
    (seq 1 (length acceleration - 1)) (zeros, zeros, zeros).

Record peak_response : Type := { SD : num; PSV : num; PSA : num }.

(** one turn of the loop over [frequencies] *)
Definition oscillator (acceleration : list num) (nc : newmark_constants)
  (dampingRatio f : num) : peak_response :=
  let omega := #2 * Math_PI * f in
  let m := #1 in
  let k := m * omega * omega in
  let c := #2 * dampingRatio * m * omega in
  let keff := k + a0 nc * m + a1 nc * c in
  if (keff === #0) || negb (isFinite keff) then
    {| SD := #0; PSV := #0; PSA := #0 |}
  else
    let '(u, v, a) := timeIntegration acceleration nc m c keff in
    {| SD := Math_max (map_num Math_abs u);
       PSV := Math_max (map_num Math_abs v);
       PSA := Math_max (map_num Math_abs a) |}.

Record response_spectrum : Type := {
  rs_periods : list num;
  rs_frequencies : list num;
  rs_SD : list num;
  rs_PSV : list num;
  rs_PSA : list num;
  rs_dampingRatio : num
}.

Definition calculateResponseSpectrum (acceleration time : list num)
  (dampingRatio : option num) : response_spectrum :=
  let dampingRatio := match dampingRatio with Some d => d | None => dec 5 100 end in
  let dt := time.[1] - time.[0] in
  let periods := period_grid in
  let frequencies := map (fun T_ => #1 / T_) periods in
  let nc := newmark dt in
  let peaks := map (oscillator acceleration nc dampingRatio) frequencies in
  {| rs_periods := periods;
     rs_frequencies := frequencies;
     rs_SD := map SD peaks;
     rs_PSV := map PSV peaks;
     rs_PSA := map PSA peaks;
     rs_dampingRatio := dampingRatio |}.

End WithNumber.
End ProcessWithMatlab.

(** ** earthquakeAnalysis.js, class EarthquakeAnalyzer *)

Module Gui.
Section WithNumber.
Context {N : Number} {T : Trig N}.

(** fft(signal) and _fftRecursive(x): the text of processWithMatlab.js *)
Definition _fftRecursive : list complex -> result (jsarray complex) :=
  Radix2.fftRecursive.

Definition fft (signal : list num) : result (jsarray complex) :=
  let N_ := length signal in
  if (N_ <=? 1)%nat then Ok (map (fun x => Some {| real := x; imag := #0 |}) signal)
  else
    let nextPow2 := nextPow2 N_ in
    let padded := signal ++ repeat #0 (nextPow2 - length signal) in
    _fftRecursive (map (fun x => {| real := x; imag := #0 |}) padded).

(** detrend(data) *)
Definition detrend (data : list num) : list num :=
  let n := length data in
  if (n <? 2)%nat then data
  else
    let x := tabulate n of_nat in
    let sumX := fold_left (fun a b => a + b) x #0 in
    let sumY := fold_left (fun a b => a + b) data #0 in
    let sumXY := reducei (fun acc xi i => acc + xi * data.[i]) x #0 in
    let sumXX := fold_left (fun acc xi => acc + xi * xi) x #0 in
    let slope := (of_nat n * sumXY - sumX * sumY) / (of_nat n * sumXX - sumX * sumX) in
    let intercept := (sumY - slope * sumX) / of_nat n in
    mapi (fun yi i => yi - (slope * of_nat i + intercept)) data.

(** ifft(X) *)
Definition ifft (X : list complex) : result (list complex) :=
  let N_ := length X in
  let conjugated := map (fun x => {| real := real x; imag := - imag x |}) X in
  result <- _fftRecursive conjugated ;;
  map_obj (fun x _ => {| real := real x / of_nat N_; imag := - imag x / of_nat N_ |})
          result.

(** preprocessBoore(data, fs, cornerFreq) *)
Definition preprocessBoore (data : list num) (fs cornerFreq : num)
  : result (list num) :=
  let detrended := detrend data in
  fftData <- fft detrended ;;
  let N_ := length fftData in
  let f := tabulate N_ (fun i => of_nat i * fs / of_nat N_) in
  let hpFilter : jsarray num :=
    map (fun freq => Some (if freq >=? cornerFreq then #1 else #0)) f in
  let hpFilter :=
    if (N_ mod 2 =? 0)%nat then
      fold_left (fun hp i => js_store i (js_get hp (N_ - i)) hp)
                (seq (N_ / 2 + 1) (N_ - (N_ / 2 + 1))) hpFilter
    else
      fold_left (fun hp i => js_store i (js_get hp (N_ - i)) hp)
                (seq ((N_ + 1) / 2) (N_ - (N_ + 1) / 2)) hpFilter in
  fftFiltered <- map_obj (fun val i => {| real := real val * hpFilter.{i};
                                         imag := imag val * hpFilter.{i} |})
                         fftData ;;
  filtered <- ifft fftFiltered ;;
  Ok (firstn (length data) (map real filtered)).

(** performFourierAnalysis(signal, fs) *)
Record fourier_analysis : Type := {
  fa_frequencies : list num;
  fa_amplitudes : jsarray num;
  fa_phases : list num
}.

Definition performFourierAnalysis {H : Host N} (signal : list num) (fs : num)
  : result fourier_analysis :=
  let L := length signal in
  Y <- fft signal ;;
  P2 <- map_obj (fun val _ =>
                   Math_sqrt (real val * real val + imag val * imag val) / of_nat L) Y ;;
  let P1 : jsarray num := map Some (firstn (L / 2 + 1) P2) in
  let P1 := fold_left (fun P1 i => js_set i (P1.{i} * #2) P1)
                      (seq 1 (length P1 - 1 - 1)) P1 in
  let f := tabulate (length P1) (fun i => fs * of_nat i / of_nat L) in
  phases <- map_obj (fun val _ => Math_atan2 (imag val) (real val))
                    (firstn (L / 2 + 1) Y) ;;
  Ok {| fa_frequencies := f; fa_amplitudes := P1; fa_phases := phases |}.

(** calculateBracketedDuration(time, acceleration, threshold) *)
Record bracketed_duration : Type := {
  duration : num;
  startTime : value;
  endTime : value;
  startIndex : Z;
  endIndex : Z
}.

Definition calculateBracketedDuration (time acceleration : list num) (threshold : num)
  : bracketed_duration :=
  let aboveThreshold :=
    filter (fun i => negb (i =? -1)%Z)
           (mapi (fun acc i => if Math_abs acc >=? threshold then Z.of_nat i else (-1)%Z)
                 acceleration) in
  if (length aboveThreshold =? 0)%nat then
    {| duration := #0;
       startTime := Num NaN;
       endTime := Num NaN;
       startIndex := -1;
       endIndex := -1 |}
  else
    let startIndex := nth 0 aboveThreshold 0%Z in
    let endIndex := nth (length aboveThreshold - 1) aboveThreshold 0%Z in
    {| duration := value_num (value_at_Z time endIndex) - value_num (value_at_Z time startIndex);
       startTime := value_at_Z time startIndex;
       endTime := value_at_Z time endIndex;
       startIndex := startIndex;
       endIndex := endIndex |}.

(** findSiteFrequency(acceleration, fs) *)
Record site_frequency : Type := {
  frequency : option num;      (* [None] is undefined *)
  magnitude : option num;
  frequencies : list num;
  amplitudes : list num
}.

Definition findSiteFrequency (acceleration : list num) (fs : num)
  : result site_frequency :=
  let N_ := length acceleration in
  let frequencies := tabulate (N_ / 2) (fun i => of_nat i * fs / of_nat N_) in
  fftResult <- fft acceleration ;;
  amplitudes <- map_obj (fun x _ => Math_sqrt (real x * real x + imag x * imag x))
                        (firstn (N_ / 2) fftResult) ;;
  let maxIndex := indexOf amplitudes (Math_max amplitudes) in
  Ok {| frequency := at_Z frequencies maxIndex;
        magnitude := at_Z amplitudes maxIndex;
        frequencies := frequencies;
        amplitudes := amplitudes |}.

End WithNumber.
End Gui.

(** ** The analysis module (analysis.js), class EarthquakeAnalyzer

    It takes [trapz] and [cumtrapz] from the utilities module. *)

Module Analysis.
Section WithNumber.
Context {N : Number}.

(** constructor(options = {}) *)
Record options : Type := {
  samplingRate : num;
  dampingRatio : num;
  gravityConstant : num
}.

Definition default_options : options :=
  {| samplingRate := #100; dampingRatio := dec 5 100; gravityConstant := dec 981 100 |}.

(** calculatePeakGroundMotion(acceleration, time) *)
Record peak_ground_motion : Type := {
  PGA : num;
  PGV : num;
  PGD : num;
  velocity : jsarray num;
  displacement : jsarray num
}.

Definition calculatePeakGroundMotion (acceleration time : list num)
  : result peak_ground_motion :=
  if negb (length acceleration =? length time)%nat then
    Throw (Error "Acceleration and time arrays must have same length")
  else
    velocity <- Utils.cumtrapz time acceleration ;;
    displacement <- Utils.cumtrapz time (numbers velocity) ;;
    Ok {| PGA := Math_max (map Math_abs acceleration);
          PGV := Math_max (map_num Math_abs velocity);
          PGD := Math_max (map_num Math_abs displacement);
          velocity := velocity;
          displacement := displacement |}.

(** calculateBracketedDuration(acceleration, time, threshold = null) *)
Record bracketed_duration : Type := {
  duration : num;
  startTime : value;
  endTime : value;
  threshold : num;
  exceedances : nat;
  units : option string
}.

Record exceedance : Type := { index : nat; time_ : value; above : bool }.

Definition calculateBracketedDuration (acceleration time : list num)
  (threshold : option num) : bracketed_duration :=
  let PGA := Math_max (map Math_abs acceleration) in
  let thresh := or_default threshold (dec 5 100 * PGA) in
  let aboveThreshold :=
    filter above
           (mapi (fun acc i => {| index := i;
                                  time_ := value_at time i;
                                  above := Math_abs acc >=? thresh |})
                 acceleration) in
  if (length aboveThreshold =? 0)%nat then
    {| duration := #0;
       startTime := Null;
       endTime := Null;
       threshold := thresh;
       exceedances := 0;
       units := None |}
  else
    let none := {| index := 0; time_ := Undefined; above := false |} in
    let startTime := time_ (nth 0 aboveThreshold none) in
    let endTime := time_ (nth (length aboveThreshold - 1) aboveThreshold none) in
    let duration := value_num endTime - value_num startTime in
    {| duration := duration;
       startTime := startTime;
       endTime := endTime;
       threshold := thresh;
       exceedances := length aboveThreshold;
       units := Some "s"%string |}.

(** calculateAriasIntensity(acceleration, time) *)
Record arias_intensity : Type := {
  ariasIntensity : num;
  cumulativeAI : list num;
  ai_time : list num
}.

Definition calculateAriasIntensity (this : options) (acceleration time : list num)
  : result arias_intensity :=
  let g := gravityConstant this in
  let accMeters := map (fun acc => acc / #100) acceleration in
  let accelerationSquared := map (fun acc => acc * acc) accMeters in
  integral <- Utils.trapz time accelerationSquared ;;
  let ariasIntensity := (Math_PI / (#2 * g)) * integral in
  integrated <- Utils.cumtrapz time accelerationSquared ;;
  let cumulativeAI := map_num (fun val => (Math_PI / (#2 * g)) * val) integrated in
  Ok {| ariasIntensity := ariasIntensity * #100;
        cumulativeAI := map (fun val => val * #100) cumulativeAI;
        ai_time := time |}.

(** calculateResponseSpectra(acceleration, time, periods = null, damping = null) *)
Fixpoint period_loop (fuel : nat) (T_ : num) : list num :=
  match fuel with
  | O => []
  | S fuel => if T_ <=? #10 then T_ :: period_loop fuel (T_ + dec 2 100) else []
  end.

Definition period_grid : list num := period_loop 1000 (dec 1 100).

Record newmark_constants : Type := {
  a0 : num; a1 : num; a2 : num; a3 : num; a4 : num; a5 : num
}.

Definition newmark (dt : num) : newmark_constants :=
  let beta := dec 25 100 in
  let gamma := dec 5 10 in
  {| a0 := #1 / (beta * dt * dt);
     a1 := gamma / (beta * dt);
     a2 := #1 / (beta * dt);
     a3 := #1 / (#2 * beta) - #1;
     a4 := gamma / beta - #1;
     a5 := dt * (gamma / (#2 * beta) - #1) |}.

(** the loop "Time integration using Newmark-beta method", for one period *)
Definition timeIntegration (acceleration : list num) (nc : newmark_constants)
  (m c keff : num) : jsarray num * jsarray num * jsarray num :=
  let n := length acceleration in
  let zeros : jsarray num := repeat (Some #0) n in
  fold_left
    (fun '(u, v, acc) j =>
       let dp := - m * (acceleration.[j] - acceleration.[j - 1]) in
       let rhs := dp + m * (a0 nc * u.{j - 1} + a2 nc * v.{j - 1} + a3 nc * acc.{j - 1}) +
                  c * (a1 nc * u.{j - 1} + a4 nc * v.{j - 1} + a5 nc * acc.{j - 1}) in
       let du := rhs / keff in
       let dv := a1 nc * (du - u.{j - 1}) - a4 nc * v.{j - 1} - a5 nc * acc.{j - 1} in
       let da := a0 nc * (du - u.{j - 1}) - a2 nc * v.{j - 1} - a3 nc * acc.{j - 1} in
       (js_set j du u, js_set j dv v, js_set j da acc))
    (seq 1 (n - 1)) (zeros, zeros, zeros).

Record peak_response : Type := { SD : num; PSV : num; PSA : num }.

(** One turn of the loop over [periods].  [SD], [PSV] and [PSA] were filled
    with 0; [continue] leaves the 0 of this period in place. *)
Definition oscillator (acceleration : list num) (nc : newmark_constants)
  (zeta T_ : num) : peak_response :=
  let omega := #2 * Math_PI / T_ in
  let m := #1 in
  let k := m * omega * omega in
  let c := #2 * zeta * m * omega in
  let keff := k + a0 nc * m + a1 nc * c in
  if negb (isFinite keff) || (keff <=? #0) then
    {| SD := #0; PSV := #0; PSA := #0 |}
  else
    let '(u, v, acc) := timeIntegration acceleration nc m c keff in
    {| SD := Math_max (map_num Math_abs u);
       PSV := Math_max (map_num Math_abs v);
       PSA := Math_max (map_num Math_abs acc) |}.

Record response_spectra : Type := {
  rs_periods : list num;
  rs_frequencies : list num;
  rs_SD : list num;
  rs_PSV : list num;
  rs_PSA : list num;
  rs_damping : num
}.

Definition calculateResponseSpectra (this : options) (acceleration time : list num)
  (periods : option (list num)) (damping : option num) : response_spectra :=
  let zeta := or_default damping (dampingRatio this) in
  let dt := if (1 <? length time)%nat then time.[1] - time.[0] else dec 1 100 in
  let periods := match periods with Some p => p | None => period_grid end in
  let frequencies := map (fun T_ => #1 / T_) periods in
  let nc := newmark dt in
  let peaks := map (oscillator acceleration nc zeta) periods in
  {| rs_periods := periods;
     rs_frequencies := frequencies;
     rs_SD := map SD peaks;
     rs_PSV := map PSV peaks;
     rs_PSA := map PSA peaks;
     rs_damping := zeta |}.

End WithNumber.
End Analysis.

(** ** Vocabulary of the specification *)

(** a strictly increasing time array *)
Fixpoint strictly_increasing {N : Number} (time : list num) : bool :=
  match time with
  | a :: (b :: _) as t => (a <? b) && strictly_increasing t
  | _ => true
  end.

(** powers of two *)
Inductive Pow2 : nat -> Prop :=
| Pow2_one : Pow2 1
| Pow2_double n : Pow2 n -> Pow2 (2 * n).

(** the effective stiffness k_eff = k + a0 m + a1 c of the oscillator with
    unit mass, natural frequency omega and damping ratio zeta *)
Definition effective_stiffness {N : Number} (a0 a1 zeta omega : num) : num :=
  let m := #1 in
  let k := m * omega * omega in
  let c := #2 * zeta * m * omega in
  k + a0 * m + a1 * c.

(** the damping coefficient c = 2 zeta m omega, m = 1 *)
Definition damping_coefficient {N : Number} (zeta omega : num) : num :=
  #2 * zeta * #1 * omega.

(** the argument with which newmarkBeta of utils.js integrates the
    oscillator of period T: omega = 2 pi / T, default beta and gamma *)
Definition newmark_params_of {N : Number} (acceleration : list num) (dt zeta T_ : num)
  : Utils.newmark_params :=
  {| Utils.p_acceleration := acceleration;
     Utils.p_dt := dt;
     Utils.p_omega := #2 * Math_PI / T_;
     Utils.p_zeta := zeta;
     Utils.p_beta := None;
     Utils.p_gamma := None |}.

(** the recurrence of the integrator: result[0] = 0 and
    result[i] = result[i-1] + 0.5 (data[i] + data[i-1]) (time[i] - time[i-1]),
    as processWithMatlab.js writes it *)
Fixpoint trapezoid_sum {N : Number} (time data : list num) (k : nat) : num :=
  match k with
  | O => #0
  | S j => trapezoid_sum time data j +
           dec 5 10 * (data.[S j] + data.[j]) * (time.[S j] - time.[j])
  end.

(** the same recurrence as utils.js writes it:
    result[i] = result[i-1] + (x[i] - x[i-1]) ((y[i] + y[i-1]) / 2) *)
Fixpoint trapezoid_sum_utils {N : Number} (x y : list num) (k : nat) : num :=
  match k with
  | O => #0
  | S j => trapezoid_sum_utils x y j + (x.[S j] - x.[j]) * ((y.[S j] + y.[j]) / #2)
  end.

(** the amplitude |X| of a bin of the spectrum *)
Definition amplitude {N : Number} (x : complex) : num :=
  Math_sqrt (real x * real x + imag x * imag x).

(** [i] is the first index of [l] whose element is [=== v] *)
Definition first_index_of {N : Number} (l : list num) (v : num) (i : nat) : Prop :=
  exists a, nth_error l i = Some a /\ (a === v) = true /\
            forall j b, (j < i)%nat -> nth_error l j = Some b -> (b === v) = false.

(** the amplitudes of the bins 0 .. N/2, the bin N/2 included *)
Definition half_spectrum_inclusive {N : Number} (fftResult : jsarray complex)
  : result (list num) :=
  map_obj (fun x _ => amplitude x) (firstn (length fftResult / 2 + 1) fftResult).

(** the length of the array that an entry point which pads hands to
    fftRecursive *)
Definition padded_length (n : nat) : nat := if (n <=? 1)%nat then n else nextPow2 n.

Close Scope num_scope.

(** ** The radix-2 recursion as a function on index maps

    [transform m f k] is element [k] of what the recursion of fftRecursive
    yields on the array [f 0 .. f (2 ^ m - 1)], over any type of scalars with
    an addition, a multiplication, a subtraction and a family [tw k n] of
    twiddle factors. *)

Section Transform.
Variable K : Type.
Variables (add mul sub : K -> K -> K).
Variable tw : nat -> nat -> K.

Fixpoint transform (m : nat) (f : nat -> K) (k : nat) : K :=
  match m with
  | O => f k
  | S m' =>
      let h := 2 ^ m' in
      let E := transform m' (fun j => f (2 * j)) in
      let O := transform m' (fun j => f (2 * j + 1)) in
      if k <? h then add (E k) (mul (tw k (2 * h)) (O k))
      else sub (E (k - h)) (mul (tw (k - h) (2 * h)) (O (k - h)))
  end.

End Transform.

Section Scale.
Variable K : Type.
Variables (one : K) (add mul : K -> K -> K).

(** [2 ^ m] as a scalar: the factor by which inverse after forward
    transform multiplies *)
Fixpoint pow2K (m : nat) : K :=
  match m with
  | O => one
  | S m' => mul (add one one) (pow2K m')
  end.

End Scale.

Section TwiddleDef.
Context {N : Number} {T : Trig N}.

(** the twiddle factor of the combine loop *)
Definition twiddle (k n : nat) : complex :=
  let angle := (#(-2) * Math_PI * of_nat k / of_nat n)%num in
  {| real := Math_cos angle; imag := Math_sin angle |}.

End TwiddleDef.

(** complex numbers over the reals, as pairs *)
Module Cplx.
Local Open Scope R_scope.

Definition C : Type := (R * R)%type.
Definition Czero : C := (0, 0).
Definition Cone : C := (1, 0).
Definition Cadd (a b : C) : C := (fst a + fst b, snd a + snd b).
Definition Csub (a b : C) : C := (fst a - fst b, snd a - snd b).
Definition Cmul (a b : C) : C :=
  (fst a * fst b - snd a * snd b, fst a * snd b + snd a * fst b).
Definition Copp (a : C) : C := (- fst a, - snd a).
Definition Cconj (a : C) : C := (fst a, - snd a).

(** [exp (-2 pi i k / n)] *)
Definition root (k n : nat) : C :=
  let angle := IZR (-2) * PI * IZR (Z.of_nat k) / IZR (Z.of_nat n) in
  (cos angle, sin angle).

(** a pair as an object [{real, imag}] of the exact instance *)
Definition embed (z : C) : @complex Exact.number :=
  @Complex Exact.number (Exact.Fin (fst z)) (Exact.Fin (snd z)).

End Cplx.

(** [y] is within the relative tolerance [tol] of [x] *)
Definition within_tolerance {N : Number} (tol x y : num) : bool :=
  (Math_abs (y - x) <=? tol * Math_abs x)%num.

(** whatever ifft returns on the spectrum that fft returns on [x] has real
    parts within the relative tolerance [tol] of [x], element by element *)
Definition round_trip_within {N : Number} {T : Trig N} (tol : num) (x : list num)
  : Prop :=
  forall spectrum y,
    Utils.fft (map Re x) = Ok spectrum ->
    Utils.ifft spectrum = Ok y ->
    Forall2 (fun xk yk => within_tolerance tol xk (real yk) = true) x y.

(** ** The least-squares line over the reals

    The line [slope * i + intercept] fitted to the points [(i, y_i)], by the
    formulas of detrend, and what is left of the samples once the line is
    subtracted. *)
Module LeastSquares.
Local Open Scope R_scope.

(** [g 0 + ... + g (n - 1)] *)
Definition rsum (g : nat -> R) (n : nat) : R :=
  fold_right Rplus 0 (map g (seq 0 n)).

Definition sumX (n : nat) : R := rsum INR n.
Definition sumXX (n : nat) : R := rsum (fun i => INR i * INR i) n.
Definition sumY (ys : list R) : R := rsum (fun i => nth i ys 0) (length ys).
Definition sumXY (ys : list R) : R := rsum (fun i => INR i * nth i ys 0) (length ys).

Definition slope (ys : list R) : R :=
  let n := length ys in
  (INR n * sumXY ys - sumX n * sumY ys) / (INR n * sumXX n - sumX n * sumX n).

Definition intercept (ys : list R) : R :=
  (sumY ys - slope ys * sumX (length ys)) / INR (length ys).

Definition residuals (ys : list R) : list R :=
  map (fun i => nth i ys 0 - (slope ys * INR i + intercept ys)) (seq 0 (length ys)).

End LeastSquares.

(** * Properties *)

(** ** Arrays *)

Section ArrayFacts.
Context {A : Type}.
Implicit Types (a : jsarray A) (o : option A) (i j : nat).

Lemma js_store_length i o a :
  length (js_store i o a) = Nat.max (S i) (length a).
Proof.
  revert a; induction i as [|i IH]; intros [|h t]; simpl; try reflexivity.
  - specialize (IH []); simpl in IH. rewrite IH. lia.
  - rewrite IH. reflexivity.
Qed.

Lemma js_store_same i o a : nth_error (js_store i o a) i = Some o.
Proof.
  revert a; induction i as [|i IH]; intros [|h t]; simpl; auto.
Qed.

Lemma js_store_other i j o a :
  i <> j -> j < length a -> nth_error (js_store i o a) j = nth_error a j.
Proof.
  revert j a; induction i as [|i IH]; intros [|j] [|h t] Hij Hj; simpl in *;
    try lia; try reflexivity.
  apply IH; lia.
Qed.

Lemma js_set_length i (v : A) a : length (js_set i v a) = Nat.max (S i) (length a).
Proof. apply js_store_length. Qed.

Lemma filled_dense a : filled (length a) a -> dense a.
Proof.
  intros H. apply Forall_forall. intros o Ho.
  destruct (In_nth_error _ _ Ho) as [i Hi].
  assert (Hlt : i < length a) by (apply nth_error_Some; congruence).
  destruct (H i Hlt) as [v Hv]. congruence.
Qed.

Lemma dense_filled a : dense a -> filled (length a) a.
Proof.
  intros H i Hi.
  destruct (nth_error a i) as [o|] eqn:E.
  - destruct o as [v|].
    + eauto.
    + exfalso. eapply Forall_forall in H; [|eapply nth_error_In; eassumption].
      congruence.
  - apply nth_error_None in E. lia.
Qed.

Lemma filled_js_set k (v : A) a :
  filled k a -> k <= length a -> filled (S k) (js_set k v a).
Proof.
  intros H Hk i Hi. unfold js_set.
  destruct (Nat.eq_dec i k) as [->|Hne].
  - rewrite js_store_same. eauto.
  - rewrite js_store_other by lia. apply H. lia.
Qed.

(** A loop [for (i = k; i < k + c; i++) r[i] = g(r, i)] over an array whose
    slots below [k] are written: it writes the next [c] slots and keeps the
    earlier ones. *)
Lemma store_loop (g : jsarray A -> nat -> A) c : forall k a,
  filled k a -> k <= length a ->
  let r := fold_left (fun r i => js_set i (g r i) r) (seq k c) a in
  length r = Nat.max (k + c) (length a) /\
  filled (k + c) r /\
  (forall i, i < k -> nth_error r i = nth_error a i).
Proof.
  induction c as [|c IH]; intros k a Hf Hk; simpl.
  - repeat split; [lia | rewrite Nat.add_0_r; assumption].
  - assert (Hf' : filled (S k) (js_set k (g a k) a)) by (apply filled_js_set; auto).
    assert (Hk' : S k <= length (js_set k (g a k) a))
      by (rewrite js_set_length; lia).
    destruct (IH (S k) _ Hf' Hk') as (Hlen & Hfill & Hkeep).
    repeat split.
    + rewrite Hlen, js_set_length. lia.
    + replace (k + S c) with (S k + c) by lia. exact Hfill.
    + intros i Hi. rewrite Hkeep by lia. unfold js_set.
      apply js_store_other; lia.
Qed.

End ArrayFacts.

(** ** Integrator (cumtrapz) *)

Section IntegratorFacts.
Context {N : Number}.

Lemma utils_cumtrapz_mismatch (x y : list num) :
  length x <> length y ->
  Utils.cumtrapz x y = Throw (Error "cumtrapz: x and y must have same length").
Proof.
  intros H. unfold Utils.cumtrapz.
  destruct (Nat.eqb_spec (length x) (length y)); [contradiction | reflexivity].
Qed.

Lemma pwm_cumtrapz_mismatch (time data : list num) :
  length time <> length data ->
  ProcessWithMatlab.cumtrapz time data =
  Throw (Error "Time and data arrays must have same length").
Proof.
  intros H. unfold ProcessWithMatlab.cumtrapz.
  destruct (Nat.eqb_spec (length time) (length data)); [contradiction | reflexivity].
Qed.

Lemma utils_cumtrapz_ok (x y : list num) :
  length x = length y ->
  exists r, Utils.cumtrapz x y = Ok r /\
            length r = Nat.max 1 (length x) /\
            nth_error r 0 = Some (Some #0%num) /\
            dense r.
Proof.
  intros H. unfold Utils.cumtrapz. rewrite H, Nat.eqb_refl. simpl negb. cbv iota.
  eexists; split; [reflexivity|].
  set (r0 := js_set 0 #0%num (new_Array (length y))).
  assert (Hlen0 : length r0 = Nat.max 1 (length y)).
  { unfold r0, new_Array. rewrite js_set_length, repeat_length. reflexivity. }
  assert (Hf0 : filled 1 r0).
  { intros i Hi. assert (i = 0) by lia; subst. unfold r0, js_set.
    rewrite js_store_same; eauto. }
  match goal with |- context [fold_left ?f _ _] =>
    pose proof (store_loop
      (fun result i => (result.{i - 1} + (x.[i] - x.[i - 1]) * ((y.[i] + y.[i - 1]) / #2))%num)
      (length y - 1) (k:=1) Hf0) as Hloop
  end.
  cbv zeta in Hloop.
  destruct Hloop as (Hlen & Hfill & Hkeep); [lia|].
  rewrite Hlen0 in Hlen.
  repeat split.
  - rewrite Hlen. lia.
  - rewrite Hkeep by lia. unfold r0, js_set. apply js_store_same.
  - apply filled_dense. rewrite Hlen.
    replace (Nat.max (1 + (length y - 1)) (Nat.max 1 (length y)))
      with (1 + (length y - 1)) by lia.
    exact Hfill.
Qed.

Lemma pwm_cumtrapz_ok (time data : list num) :
  length time = length data ->
  exists r, ProcessWithMatlab.cumtrapz time data = Ok r /\
            length r = Nat.max 1 (length time) /\
            nth_error r 0 = Some (Some #0%num) /\
            dense r.
Proof.
  intros H. unfold ProcessWithMatlab.cumtrapz. rewrite H, Nat.eqb_refl. simpl negb. cbv iota.
  eexists; split; [reflexivity|].
  assert (Hf0 : filled 1 [Some (#0%num : num)]).
  { intros i Hi. assert (i = 0) by lia; subst. simpl; eauto. }
  pose proof (store_loop
      (fun integrated i => (integrated.{i - 1} +
           dec 5 10 * (data.[i] + data.[i - 1]) * (time.[i] - time.[i - 1]))%num)
      (length data - 1) (k:=1) Hf0) as Hloop.
  cbv zeta in Hloop.
  destruct Hloop as (Hlen & Hfill & Hkeep); [simpl; lia|].
  simpl length in Hlen.
  repeat split.
  - rewrite Hlen. lia.
  - rewrite Hkeep by lia. reflexivity.
  - apply filled_dense. rewrite Hlen.
    replace (Nat.max (1 + (length data - 1)) 1) with (1 + (length data - 1)) by lia.
    exact Hfill.
Qed.

End IntegratorFacts.

(** C10: on empty inputs cumtrapz returns the one-element array [0], not an
    empty array; on non-empty inputs of equal length it returns an array of
    the length of the input, without holes, whose first element is 0. *)
Theorem cumtrapz_output_length {N : Number} :
  Utils.cumtrapz [] [] = Ok [Some #0%num] /\
  ProcessWithMatlab.cumtrapz [] [] = Ok [Some #0%num] /\
  forall x y : list num, x <> [] -> length x = length y ->
    (exists r, Utils.cumtrapz x y = Ok r /\ length r = length x /\
               nth_error r 0 = Some (Some #0%num) /\ dense r) /\
    (exists r, ProcessWithMatlab.cumtrapz x y = Ok r /\ length r = length x /\
               nth_error r 0 = Some (Some #0%num) /\ dense r).
Proof.
  split; [reflexivity|]. split; [reflexivity|].
  intros x y Hne Hlen.
  assert (Hpos : Nat.max 1 (length x) = length x).
  { destruct x; [congruence | simpl; lia]. }
  split.
  - destruct (utils_cumtrapz_ok x y Hlen) as (r & Hr & Hl & H0 & Hd).
    exists r. rewrite <- Hpos at 1. auto.
  - destruct (pwm_cumtrapz_ok x y Hlen) as (r & Hr & Hl & H0 & Hd).
    exists r. rewrite <- Hpos at 1. auto.
Qed.

Lemma cumtrapz_output_length_witness :
  exists r, Utils.cumtrapz (N:=Float64.number) [#0; #1]%num [#2; #2]%num = Ok r /\
            length r = 2 /\ nth_error r 0 = Some (Some #0%num) /\ dense r.
Proof.
  destruct (@cumtrapz_output_length Float64.number) as (_ & _ & H).
  destruct (H [#0; #1]%num [#2; #2]%num) as [Hu _].
  - discriminate.
  - reflexivity.
  - exact Hu.
Defined.

(** C7 (as amended): cumtrapz checks the lengths and nothing else.  When the
    two arrays differ in length it throws and returns no array; when they
    have the same length it returns an array, whatever the order of the
    time samples. *)
Theorem cumtrapz_checks_lengths_only {N : Number} (time values : list num) :
  (length time <> length values ->
     Utils.cumtrapz time values =
       Throw (Error "cumtrapz: x and y must have same length") /\
     ProcessWithMatlab.cumtrapz time values =
       Throw (Error "Time and data arrays must have same length")) /\
  (length time = length values ->
     is_ok (Utils.cumtrapz time values) = true /\
     is_ok (ProcessWithMatlab.cumtrapz time values) = true).
Proof.
  split.
  - intros H. split; [apply utils_cumtrapz_mismatch | apply pwm_cumtrapz_mismatch]; exact H.
  - intros H.
    destruct (utils_cumtrapz_ok time values H) as (r & -> & _).
    destruct (pwm_cumtrapz_ok time values H) as (r' & -> & _).
    split; reflexivity.
Qed.

Lemma cumtrapz_checks_lengths_only_witness :
  Utils.cumtrapz (N:=Float64.number) [#0; #1]%num [#2]%num =
    Throw (Error "cumtrapz: x and y must have same length") /\
  is_ok (ProcessWithMatlab.cumtrapz (N:=Float64.number) [#0; #1]%num [#2; #2]%num) = true.
Proof.
  split.
  - apply (proj1 (cumtrapz_checks_lengths_only (N:=Float64.number) [#0; #1]%num [#2]%num)).
    simpl; lia.
  - apply (proj2 (cumtrapz_checks_lengths_only (N:=Float64.number) [#0; #1]%num [#2; #2]%num)).
    reflexivity.
Defined.

(** C7 as stated fails: a time array that decreases is integrated like any
    other, by both copies. *)
Lemma cumtrapz_accepts_decreasing_time :
  strictly_increasing (N:=Float64.number) [#1; #0]%num = false /\
  Utils.cumtrapz (N:=Float64.number) [#1; #0]%num [#1; #1]%num =
    Ok [Some #0; Some #(-1)]%num /\
  ProcessWithMatlab.cumtrapz (N:=Float64.number) [#1; #0]%num [#1; #1]%num =
    Ok [Some #0; Some #(-1)]%num.
Proof. repeat split; vm_compute; reflexivity. Qed.

(** ** Loops and splitting *)

Lemma for_loop_invariant {S} (I : nat -> S -> Prop) (body : nat -> S -> result S) :
  forall count start s,
    I start s ->
    (forall k s, start <= k < start + count -> I k s ->
                 exists s', body k s = Ok s' /\ I (Datatypes.S k) s') ->
    exists s', for_loop start count body s = Ok s' /\ I (start + count) s'.
Proof.
  induction count as [|c IH]; intros start s Hs Hbody; simpl.
  - exists s. rewrite Nat.add_0_r. auto.
  - destruct (Hbody start s) as (s1 & Hb & Hs1); [lia | assumption |].
    rewrite Hb. simpl.
    destruct (IH (Datatypes.S start) s1 Hs1) as (s2 & Hl & Hs2).
    + intros k s' Hk. apply Hbody. lia.
    + exists s2. split; [assumption|].
      replace (start + Datatypes.S c) with (Datatypes.S start + c) by lia. exact Hs2.
Qed.

Lemma for_loop_throws {S} (body : nat -> S -> result S) (e : exn) (d : nat) :
  forall c start s,
    (forall k s, start <= k < start + c -> exists s', body k s = Ok s') ->
    (forall s, body (start + c) s = Throw e) ->
    for_loop start (c + Datatypes.S d) body s = Throw e.
Proof.
  induction c as [|c IH]; intros start s Hok Hthrow; simpl.
  - specialize (Hthrow s). rewrite Nat.add_0_r in Hthrow. rewrite Hthrow. reflexivity.
  - destruct (Hok start s) as (s1 & Hb); [lia|]. rewrite Hb. simpl.
    apply IH.
    + intros k s' Hk. apply Hok. lia.
    + intros s'. replace (Datatypes.S start + c) with (start + Datatypes.S c) by lia.
      apply Hthrow.
Qed.

Lemma evens_odds_length {A} (l : list A) :
  length (evens l) = (length l + 1) / 2 /\ length (odds l) = length l / 2.
Proof.
  induction l as [|a t [IHe IHo]]; [split; reflexivity|].
  simpl evens; simpl odds; simpl length. rewrite IHo, IHe. split.
  - replace (S (length t) + 1) with (length t + 1 * 2) by lia.
    rewrite Nat.div_add by lia. lia.
  - f_equal. lia.
Qed.

Lemma js_get_Some {A} (a : jsarray A) i :
  dense a -> i < length a -> exists v, js_get a i = Some v.
Proof.
  intros Hd Hi. destruct (dense_filled Hd Hi) as [v Hv].
  exists v. unfold js_get. rewrite Hv. reflexivity.
Qed.

Lemma js_get_None {A} (a : jsarray A) i : length a <= i -> js_get a i = None.
Proof.
  intros Hi. unfold js_get.
  destruct (nth_error a i) eqn:E; [|reflexivity].
  assert (i < length a) by (apply nth_error_Some; congruence). lia.
Qed.

Lemma dense_map_Some {A} (l : list A) : dense (map Some l).
Proof.
  apply Forall_forall. intros o Ho. apply in_map_iff in Ho.
  destruct Ho as (v & <- & _). discriminate.
Qed.

Lemma dense_map {A B} (f : A -> B) (l : list A) : dense (map (fun x => Some (f x)) l).
Proof.
  apply Forall_forall. intros o Ho. apply in_map_iff in Ho.
  destruct Ho as (v & <- & _). discriminate.
Qed.

(** ** Powers of two *)

Lemma Pow2_pos n : Pow2 n -> 1 <= n.
Proof. induction 1; lia. Qed.

Lemma Pow2_pow k : Pow2 (2 ^ k).
Proof.
  induction k as [|k IH]; [constructor|].
  rewrite Nat.pow_succ_r'. constructor. exact IH.
Qed.

Lemma Pow2_inv n : Pow2 n -> exists k, n = 2 ^ k.
Proof.
  induction 1 as [|n _ [k ->]]; [exists 0; reflexivity|].
  exists (S k). rewrite Nat.pow_succ_r'. reflexivity.
Qed.

Lemma Pow2_half m : Pow2 (2 * m) -> Pow2 m.
Proof.
  intros H. inversion H as [E | n Hn E]; [lia|].
  assert (n = m) by lia. subst. assumption.
Qed.

Lemma Pow2_even n : Pow2 n -> 1 < n -> exists h, n = 2 * h /\ Pow2 h.
Proof. intros H Hn. inversion H as [E | h Hh E]; [lia|]. exists h. auto. Qed.

Lemma Pow2_odd j : 1 <= j -> ~ Pow2 (2 * j + 1).
Proof. intros Hj H. inversion H; lia. Qed.

Lemma Pow2_dec n : {Pow2 n} + {~ Pow2 n}.
Proof.
  destruct (Nat.eq_dec n (2 ^ Nat.log2 n)) as [E|E].
  - left. rewrite E. apply Pow2_pow.
  - right. intros H. apply E. destruct (Pow2_inv H) as [k ->].
    rewrite Nat.log2_pow2 by lia. reflexivity.
Qed.

Lemma nextPow2_Pow2 n : Pow2 (nextPow2 n).
Proof. apply Pow2_pow. Qed.

Lemma nextPow2_ge n : n <= nextPow2 n.
Proof.
  unfold nextPow2. destruct n as [|[|n]]; [lia | simpl; lia |].
  apply Nat.log2_up_spec. lia.
Qed.

Lemma nextPow2_least n m : 1 <= n -> Pow2 m -> n <= m -> nextPow2 n <= m.
Proof.
  intros Hn Hm Hle. destruct (Pow2_inv Hm) as [k ->]. unfold nextPow2.
  apply Nat.pow_le_mono_r; [lia|]. apply Nat.log2_up_le_pow2; lia.
Qed.

Lemma nextPow2_fix n : Pow2 n -> nextPow2 n = n.
Proof.
  intros H. destruct (Pow2_inv H) as [k ->]. unfold nextPow2.
  rewrite Nat.log2_up_pow2 by lia. reflexivity.
Qed.

(** ** The radix-2 transform: when it returns and when it throws *)

Section Radix2Facts.
Context {N : Number} {T : Trig N}.

Lemma combine_ok h (evenFFT oddFFT : jsarray complex) :
  1 <= h ->
  length evenFFT = h -> dense evenFFT ->
  length oddFFT = h -> dense oddFFT ->
  exists r, Radix2.combine (2 * h) evenFFT oddFFT = Ok r /\
            length r = 2 * h /\ dense r.
Proof.
  intros Hh Hle Hde Hlo Hdo. unfold Radix2.combine.
  assert (E1 : (2 * h + 1) / 2 = h).
  { replace (2 * h + 1) with (1 + h * 2) by lia. rewrite Nat.div_add by lia. reflexivity. }
  assert (E2 : 2 * h / 2 = h).
  { replace (2 * h) with (h * 2) by lia. apply Nat.div_mul. lia. }
  assert (E3 : Nat.even (2 * h) = true) by (apply Nat.even_spec; exists h; lia).
  rewrite E1, E2, E3.
  set (I := fun (k : nat) (a : jsarray complex) =>
              length a = 2 * h /\
              (forall i, i < k -> exists v, nth_error a i = Some (Some v)) /\
              (forall i, i < k -> exists v, nth_error a (h + i) = Some (Some v))).
  match goal with |- context [for_loop 0 h ?body ?s] =>
    destruct (@for_loop_invariant _ I body h 0 s) as (r & Hr & Hlen & Hlow & Hup)
  end.
  - repeat split; [unfold new_Array; apply repeat_length | |]; intros; lia.
  - intros k a Hk (Hlen & Hlow & Hup).
    destruct (@js_get_Some _ oddFFT k Hdo) as [ov Hov]; [lia|].
    destruct (@js_get_Some _ evenFFT k Hde) as [ev Hev]; [lia|].
    rewrite Hov, Hev. simpl. eexists; split; [reflexivity|].
    unfold js_set. repeat split.
    + rewrite !js_store_length. lia.
    + intros i Hi. rewrite js_store_other by (rewrite ?js_store_length; lia).
      destruct (Nat.eq_dec i k) as [->|Hne].
      * rewrite js_store_same. eauto.
      * rewrite js_store_other by lia. apply Hlow. lia.
    + intros i Hi. destruct (Nat.eq_dec i k) as [->|Hne].
      * replace (h + k) with (k + h) by lia. rewrite js_store_same. eauto.
      * rewrite js_store_other by (rewrite ?js_store_length; lia).
        rewrite js_store_other by lia. apply Hup. lia.
  - exists r. repeat split; [exact Hr | exact Hlen |].
    apply filled_dense. rewrite Hlen. intros i Hi.
    destruct (Nat.lt_ge_cases i h) as [Hlt|Hge].
    + apply Hlow. simpl. lia.
    + replace i with (h + (i - h)) by lia. apply Hup. simpl. lia.
Qed.

Lemma combine_odd_throws j (evenFFT oddFFT : jsarray complex) :
  length evenFFT = j + 1 -> dense evenFFT ->
  length oddFFT = j -> dense oddFFT ->
  Radix2.combine (2 * j + 1) evenFFT oddFFT = Throw TypeError.
Proof.
  intros Hle Hde Hlo Hdo. unfold Radix2.combine.
  assert (E1 : (2 * j + 1 + 1) / 2 = j + 1).
  { replace (2 * j + 1 + 1) with ((j + 1) * 2) by lia. apply Nat.div_mul. lia. }
  rewrite E1. apply for_loop_throws.
  - intros k a Hk.
    destruct (@js_get_Some _ oddFFT k Hdo) as [ov Hov]; [lia|].
    destruct (@js_get_Some _ evenFFT k Hde) as [ev Hev]; [lia|].
    rewrite Hov, Hev. simpl. eauto.
  - intros a. simpl. rewrite js_get_None by lia. reflexivity.
Qed.

(** On an array whose length is at most 1 or a power of two, fftRecursive
    returns an array of the same length, every slot written. *)
Lemma fftRecursive_fuel_ok : forall fuel (x : list complex),
  length x <= fuel ->
  length x <= 1 \/ Pow2 (length x) ->
  exists r, Radix2.fftRecursive_fuel fuel x = Ok r /\
            length r = length x /\ dense r.
Proof.
  induction fuel as [|fuel IH]; intros x Hfuel Hx; simpl.
  - exists (map Some x). rewrite length_map. auto using dense_map_Some.
  - destruct (Nat.leb_spec (length x) 1) as [Hle|Hgt].
    + exists (map Some x). rewrite length_map. auto using dense_map_Some.
    + destruct Hx as [Hx|Hx]; [lia|].
      destruct (Pow2_even Hx Hgt) as (h & E & Hh).
      destruct (evens_odds_length x) as [He Ho]. rewrite E in He, Ho.
      assert (E1 : (2 * h + 1) / 2 = h).
      { replace (2 * h + 1) with (1 + h * 2) by lia. rewrite Nat.div_add by lia. reflexivity. }
      assert (E2 : 2 * h / 2 = h).
      { replace (2 * h) with (h * 2) by lia. apply Nat.div_mul. lia. }
      rewrite E1 in He. rewrite E2 in Ho.
      pose proof (Pow2_pos Hh) as Hpos.
      destruct (IH (evens x)) as (re & Hre & Hlre & Hdre); [lia | rewrite He; auto |].
      destruct (IH (odds x)) as (ro & Hro & Hlro & Hdro); [lia | rewrite Ho; auto |].
      rewrite Hre, Hro. simpl. rewrite E.
      apply combine_ok; auto; lia.
Qed.

(** On any other array it throws a TypeError: some sub-array of odd length
    at least 3 is reached, and the combine loop reads one element past the
    end of its shorter half. *)
Lemma fftRecursive_fuel_throws : forall fuel (x : list complex),
  length x <= fuel ->
  1 < length x -> ~ Pow2 (length x) ->
  Radix2.fftRecursive_fuel fuel x = Throw TypeError.
Proof.
  induction fuel as [|fuel IH]; intros x Hfuel Hgt Hnp; [lia|]. simpl.
  destruct (Nat.leb_spec (length x) 1) as [Hle|_]; [lia|].
  destruct (evens_odds_length x) as [He Ho].
  destruct (Nat.Even_or_Odd (length x)) as [[h Hh]|[j Hj]].
  - (* even length: the half is no power of two either *)
    assert (E1 : (length x + 1) / 2 = h).
    { rewrite Hh. replace (2 * h + 1) with (1 + h * 2) by lia.
      rewrite Nat.div_add by lia. reflexivity. }
    rewrite E1 in He.
    assert (Hnh : ~ Pow2 h).
    { intros Hp. apply Hnp. rewrite Hh. constructor. exact Hp. }
    assert (Hh1 : 1 < h).
    { destruct h as [|[|h]]; try lia. exfalso. apply Hnh. constructor. }
    rewrite (IH (evens x)); [reflexivity | lia | lia | rewrite He; exact Hnh].
  - (* odd length *)
    assert (E1 : (length x + 1) / 2 = j + 1).
    { rewrite Hj. replace (2 * j + 1 + 1) with ((j + 1) * 2) by lia.
      apply Nat.div_mul. lia. }
    assert (E2 : length x / 2 = j).
    { rewrite Hj. replace (2 * j + 1) with (1 + j * 2) by lia.
      rewrite Nat.div_add by lia. reflexivity. }
    rewrite E1 in He. rewrite E2 in Ho.
    destruct (Pow2_dec (j + 1)) as [Hpe|Hpe].
    + destruct (@fftRecursive_fuel_ok fuel (evens x)) as (re & Hre & Hlre & Hdre);
        [lia | rewrite He; auto |].
      rewrite Hre. simpl.
      assert (Hoc : length (odds x) <= 1 \/ Pow2 (length (odds x)) \/
                    (1 < length (odds x) /\ ~ Pow2 (length (odds x)))).
      { destruct (Pow2_dec (length (odds x))); [auto|].
        destruct (Nat.le_gt_cases (length (odds x)) 1); auto. }
      destruct Hoc as [Hoc|[Hoc|[Hoc1 Hoc2]]].
      * destruct (@fftRecursive_fuel_ok fuel (odds x)) as (ro & Hro & Hlro & Hdro);
          [lia | auto |].
        rewrite Hro. simpl. rewrite Hj. apply combine_odd_throws; auto; congruence.
      * destruct (@fftRecursive_fuel_ok fuel (odds x)) as (ro & Hro & Hlro & Hdro);
          [lia | auto |].
        rewrite Hro. simpl. rewrite Hj. apply combine_odd_throws; auto; congruence.
      * rewrite (IH (odds x)); [reflexivity | lia | assumption | assumption].
    + rewrite (IH (evens x)); [reflexivity | lia | lia | rewrite He; exact Hpe].
Qed.

Lemma fftRecursive_ok (x : list complex) :
  length x <= 1 \/ Pow2 (length x) ->
  exists r, Radix2.fftRecursive x = Ok r /\ length r = length x /\ dense r.
Proof. intros H. apply fftRecursive_fuel_ok; auto. Qed.

Lemma fftRecursive_throws (x : list complex) :
  1 < length x -> ~ Pow2 (length x) -> Radix2.fftRecursive x = Throw TypeError.
Proof. intros H1 H2. apply fftRecursive_fuel_throws; auto. Qed.

(** the fuel is enough: any larger amount gives the same result *)
Lemma fftRecursive_fuel_enough : forall fuel1 fuel2 (x : list complex),
  length x <= fuel1 -> length x <= fuel2 ->
  Radix2.fftRecursive_fuel fuel1 x = Radix2.fftRecursive_fuel fuel2 x.
Proof.
  induction fuel1 as [|fuel1 IH]; intros fuel2 x H1 H2.
  - destruct fuel2; simpl; [reflexivity|].
    destruct (Nat.leb_spec (length x) 1); [reflexivity | lia].
  - simpl. destruct (Nat.leb_spec (length x) 1) as [Hle|Hgt].
    + destruct fuel2; simpl; [reflexivity|].
      destruct (Nat.leb_spec (length x) 1); [reflexivity | lia].
    + destruct fuel2 as [|fuel2]; [lia|]. simpl.
      destruct (Nat.leb_spec (length x) 1) as [|_]; [lia|].
      destruct (evens_odds_length x) as [He Ho].
      assert (Hhalf : (length x + 1) / 2 < length x).
      { apply Nat.Div0.div_lt_upper_bound. lia. }
      assert (Hhalf' : length x / 2 < length x).
      { apply Nat.Div0.div_lt_upper_bound. lia. }
      rewrite (IH fuel2 (evens x)) by lia.
      rewrite (IH fuel2 (odds x)) by lia.
      reflexivity.
Qed.

End Radix2Facts.

(** ** The transform's entry points *)

Section EntryPoints.
Context {N : Number} {T : Trig N}.

Lemma map_obj_from_ok {A B} (f : A -> nat -> B) (a : jsarray A) : forall i,
  dense a -> exists l, map_obj_from i f a = Ok l /\ length l = length a.
Proof.
  induction a as [|o t IH]; intros i Hd; simpl.
  - exists []. auto.
  - inversion Hd as [|? ? Ho Ht]; subst. destruct o as [v|]; [|congruence]. simpl.
    destruct (IH (S i) Ht) as (l & -> & Hl). simpl.
    eexists; split; [reflexivity|]. simpl. congruence.
Qed.

Lemma map_obj_ok {A B} (f : A -> nat -> B) (a : jsarray A) :
  dense a -> exists l, map_obj f a = Ok l /\ length l = length a.
Proof. apply map_obj_from_ok. Qed.

Lemma mapi_from_length {A B} (f : A -> nat -> B) (l : list A) : forall i,
  length (mapi_from i f l) = length l.
Proof. induction l; intros; simpl; auto. Qed.

Lemma mapi_length {A B} (f : A -> nat -> B) (l : list A) :
  length (mapi f l) = length l.
Proof. apply mapi_from_length. Qed.

Lemma utils_detrend_length (data : list num) :
  length (Utils.detrend data) = length data.
Proof.
  unfold Utils.detrend. destruct (length data <? 2); [reflexivity|].
  apply mapi_length.
Qed.

Lemma pwm_detrend_length (data : list num) :
  length (ProcessWithMatlab.detrend data) = length data.
Proof.
  unfold ProcessWithMatlab.detrend. destruct (length data <? 2); [reflexivity|].
  apply mapi_length.
Qed.

Lemma filters_detrend_length (data : list num) :
  length (Filters.detrend data) = length data.
Proof.
  unfold Filters.detrend. destruct (Nat.eqb_spec (length data) 0) as [E|E];
    [rewrite E; reflexivity|].
  apply mapi_length.
Qed.

Lemma padded_length_ok n : padded_length n <= 1 \/ Pow2 (padded_length n).
Proof.
  unfold padded_length. destruct (Nat.leb_spec n 1); [auto|].
  right. apply nextPow2_Pow2.
Qed.

Lemma padded_length_ge n : n <= padded_length n.
Proof.
  unfold padded_length. destruct (Nat.leb_spec n 1); [lia | apply nextPow2_ge].
Qed.

Lemma padded_length_idem n : padded_length (padded_length n) = padded_length n.
Proof.
  unfold padded_length. destruct (n <=? 1) eqn:E.
  - rewrite E. reflexivity.
  - apply Nat.leb_gt in E. pose proof (nextPow2_ge n).
    destruct (Nat.leb_spec (nextPow2 n) 1); [lia|].
    apply nextPow2_fix, nextPow2_Pow2.
Qed.

Lemma utils_fft_ok (signal : list sample) :
  exists r, Utils.fft signal = Ok r /\
            length r = padded_length (length signal) /\ dense r.
Proof.
  unfold Utils.fft, padded_length.
  destruct (Nat.leb_spec (length signal) 1) as [Hle|Hgt].
  - eexists; split; [reflexivity|]. rewrite !length_map. auto using dense_map_Some.
  - pose proof (nextPow2_ge (length signal)) as Hge.
    pose proof (nextPow2_Pow2 (length signal)) as Hp.
    unfold Utils.fftRecursive.
    destruct (Nat.eqb_spec (length signal) (nextPow2 (length signal))) as [E|E]; simpl negb; cbv iota.
    + destruct (@fftRecursive_ok _ _ (map to_complex signal)) as (r & Hr & Hl & Hd).
      { right. rewrite length_map, E. exact Hp. }
      exists r. rewrite length_map in Hl. rewrite <- E. auto.
    + match goal with |- context [Radix2.fftRecursive ?x] =>
        destruct (@fftRecursive_ok _ _ x) as (r & Hr & Hl & Hd)
      end.
      { right. rewrite length_app, repeat_length, length_map.
        replace (length signal + (nextPow2 (length signal) - length signal))
          with (nextPow2 (length signal)) by lia. exact Hp. }
      exists r. rewrite length_app, repeat_length, length_map in Hl.
      repeat split; auto. lia.
Qed.

Lemma pwm_fft_ok (signal : list num) :
  exists r, ProcessWithMatlab.fft signal = Ok r /\
            length r = padded_length (length signal) /\ dense r.
Proof.
  unfold ProcessWithMatlab.fft, padded_length.
  destruct (Nat.leb_spec (length signal) 1) as [Hle|Hgt].
  - eexists; split; [reflexivity|]. rewrite !length_map. split; [reflexivity|].
    apply (dense_map (fun x => {| real := x; imag := #0%num |})).
  - pose proof (nextPow2_ge (length signal)) as Hge.
    pose proof (nextPow2_Pow2 (length signal)) as Hp.
    unfold ProcessWithMatlab._fftRecursive.
    match goal with |- context [Radix2.fftRecursive ?x] =>
      destruct (@fftRecursive_ok _ _ x) as (r & Hr & Hl & Hd)
    end.
    { right. rewrite length_map, length_app, repeat_length.
      replace (length signal + (nextPow2 (length signal) - length signal))
        with (nextPow2 (length signal)) by lia. exact Hp. }
    exists r. rewrite length_map, length_app, repeat_length in Hl.
    repeat split; auto. lia.
Qed.

Lemma gui_fft_ok (signal : list num) :
  exists r, Gui.fft signal = Ok r /\
            length r = padded_length (length signal) /\ dense r.
Proof. exact (pwm_fft_ok signal). Qed.

Lemma filters_fft_ok (x : list num) :
  length x <= 1 \/ Pow2 (length x) ->
  exists r, Filters.fft x = Ok r /\ length r = length x /\ dense r.
Proof.
  intros Hx. unfold Filters.fft.
  destruct (Nat.leb_spec (length x) 1) as [Hle|Hgt].
  - eexists; split; [reflexivity|]. rewrite length_map. split; [reflexivity|].
    apply (dense_map (fun x => {| real := x; imag := #0%num |})).
  - unfold Filters.fftRecursive.
    match goal with |- context [Radix2.fftRecursive ?y] =>
      destruct (@fftRecursive_ok _ _ y) as (r & Hr & Hl & Hd)
    end.
    { rewrite length_map. exact Hx. }
    exists r. rewrite length_map in Hl. auto.
Qed.

Lemma filters_fft_throws (x : list num) :
  1 < length x -> ~ Pow2 (length x) -> Filters.fft x = Throw TypeError.
Proof.
  intros Hgt Hnp. unfold Filters.fft.
  destruct (Nat.leb_spec (length x) 1) as [Hle|_]; [lia|].
  apply fftRecursive_throws; rewrite length_map; assumption.
Qed.

Lemma filters_preprocessBoore_throws (data : list num) (fs cornerFreq : num) :
  1 < length data -> ~ Pow2 (length data) ->
  (fs <=? #0)%num = false -> (cornerFreq <=? #0)%num = false ->
  Filters.preprocessBoore data fs cornerFreq = Throw TypeError.
Proof.
  intros Hgt Hnp Hfs Hfc. unfold Filters.preprocessBoore.
  destruct (Nat.eqb_spec (length data) 0) as [E|_]; [lia|].
  rewrite Hfs, Hfc. simpl orb. cbv iota.
  rewrite filters_fft_throws; [reflexivity | |]; rewrite filters_detrend_length; assumption.
Qed.

End EntryPoints.

(** ** The high-pass filter *)

Section HighPassFacts.
Context {N : Number} {T : Trig N}.

Lemma utils_ifft_ok (spectrum : jsarray complex) :
  dense spectrum ->
  exists l, Utils.ifft spectrum = Ok l /\
            length l = padded_length (length spectrum).
Proof.
  intros Hd. unfold Utils.ifft.
  destruct (map_obj_ok (fun (c : complex) (_ : nat) =>
              {| real := real c; imag := (- imag c)%num |}) Hd) as (conj & -> & Hc).
  simpl.
  destruct (utils_fft_ok (map Cx conj)) as (r & -> & Hr & Hdr). simpl.
  rewrite length_map, Hc in Hr.
  destruct (map_obj_ok (fun (c : complex) (_ : nat) =>
              {| real := (real c / of_nat (length r))%num;
                 imag := (- imag c / of_nat (length r))%num |}) Hdr) as (l & -> & Hl).
  exists l. split; [reflexivity | congruence].
Qed.

Lemma utils_highPassFilter_length (data : list num) (fs cornerFreq : num) :
  exists out, Utils.highPassFilter data fs cornerFreq = Ok out /\
              length out = padded_length (length data).
Proof.
  unfold Utils.highPassFilter.
  destruct (utils_fft_ok (map Re (Utils.detrend data))) as (fftData & -> & Hf & Hdf).
  rewrite length_map, utils_detrend_length in Hf. simpl.
  match goal with |- context [map_obj ?f fftData] =>
    destruct (map_obj_ok f Hdf) as (filtered & -> & Hfl)
  end.
  simpl.
  destruct (utils_ifft_ok (dense_map_Some filtered)) as (res & -> & Hres). simpl.
  eexists; split; [reflexivity|].
  rewrite length_map, Hres, length_map, Hfl, Hf. apply padded_length_idem.
Qed.

Lemma pwm_ifft_ok (X : list complex) :
  length X <= 1 \/ Pow2 (length X) ->
  exists l, ProcessWithMatlab.ifft X = Ok l /\ length l = length X.
Proof.
  intros HX. unfold ProcessWithMatlab.ifft, ProcessWithMatlab._fftRecursive.
  match goal with |- context [Radix2.fftRecursive ?y] =>
    destruct (@fftRecursive_ok _ _ y) as (r & -> & Hl & Hd)
  end.
  { rewrite length_map. exact HX. }
  simpl. rewrite length_map in Hl.
  match goal with |- context [map_obj ?f r] =>
    destruct (map_obj_ok f Hd) as (l & -> & Hll)
  end.
  exists l. split; [reflexivity | congruence].
Qed.

Lemma pwm_highPassFilter_length (data : list num) (fs cornerFreq : num) :
  exists out, ProcessWithMatlab.highPassFilter data fs cornerFreq = Ok out /\
              length out = length data.
Proof.
  unfold ProcessWithMatlab.highPassFilter.
  destruct (pwm_fft_ok (ProcessWithMatlab.detrend data)) as (fftData & -> & Hf & Hdf).
  rewrite pwm_detrend_length in Hf. simpl.
  match goal with |- context [map_obj ?f fftData] =>
    destruct (map_obj_ok f Hdf) as (filtered & -> & Hfl)
  end.
  simpl.
  destruct (pwm_ifft_ok filtered) as (res & -> & Hres).
  { rewrite Hfl, Hf. apply padded_length_ok. }
  simpl. eexists; split; [reflexivity|].
  rewrite length_firstn, length_map, Hres, Hfl, Hf.
  pose proof (padded_length_ge (length data)). lia.
Qed.

End HighPassFacts.

(** C3: the high-pass filter of processWithMatlab.js returns an array of the
    length of its input, for every input and every fs and fc.  The one of
    utils.js does not slice: it returns the padded length, so 4 samples for
    an input of 3. *)
Theorem highPassFilter_output_length {N : Number} {T : Trig N}
  (data : list num) (fs cornerFreq : num) :
  (exists out, ProcessWithMatlab.highPassFilter data fs cornerFreq = Ok out /\
               length out = length data) /\
  (exists out, Utils.highPassFilter data fs cornerFreq = Ok out /\
               length out = padded_length (length data)) /\
  (length data = 3 ->
   exists out, Utils.highPassFilter data fs cornerFreq = Ok out /\ length out = 4).
Proof.
  split; [apply pwm_highPassFilter_length|].
  split; [apply utils_highPassFilter_length|].
  intros H3. destruct (utils_highPassFilter_length data fs cornerFreq) as (out & Ho & Hl).
  exists out. split; [exact Ho|]. rewrite Hl, H3. reflexivity.
Qed.

Lemma highPassFilter_output_length_witness :
  exists out,
    Utils.highPassFilter (N:=Exact.number)
      [Exact.Fin 1; Exact.Fin 2; Exact.Fin 3] (Exact.Fin 100) (Exact.Fin (5 / 100)) = Ok out /\
    length out = 4.
Proof.
  apply (proj2 (proj2 (highPassFilter_output_length (N:=Exact.number)
           [Exact.Fin 1; Exact.Fin 2; Exact.Fin 3] (Exact.Fin 100) (Exact.Fin (5 / 100))))).
  reflexivity.
Defined.

(** C2: for an input whose length n > 1 is not a power of two, fft of
    utils.js and of the two classes pads to the least power of two that is at
    least n.  fft of filters.js does not pad: it hands the array to
    fftRecursive as it is and throws a TypeError, and so does the
    preprocessBoore that calls it. *)
Theorem fft_length_not_power_of_two {N : Number} {T : Trig N} (x : list num) :
  1 < length x -> ~ Pow2 (length x) ->
  (Pow2 (nextPow2 (length x)) /\ length x <= nextPow2 (length x) /\
   forall m, Pow2 m -> length x <= m -> nextPow2 (length x) <= m) /\
  (exists r, Utils.fft (map Re x) = Ok r /\ length r = nextPow2 (length x)) /\
  (exists r, ProcessWithMatlab.fft x = Ok r /\ length r = nextPow2 (length x)) /\
  (exists r, Gui.fft x = Ok r /\ length r = nextPow2 (length x)) /\
  Filters.fft x = Throw TypeError /\
  (forall fs cornerFreq, (fs <=? #0)%num = false -> (cornerFreq <=? #0)%num = false ->
     Filters.preprocessBoore x fs cornerFreq = Throw TypeError).
Proof.
  intros Hgt Hnp.
  assert (Hpad : padded_length (length x) = nextPow2 (length x)).
  { unfold padded_length. destruct (Nat.leb_spec (length x) 1); [lia | reflexivity]. }
  split; [|split; [|split; [|split; [|split]]]].
  - split; [apply nextPow2_Pow2|]. split; [apply nextPow2_ge|].
    intros m Hm Hle. apply nextPow2_least; auto; lia.
  - destruct (utils_fft_ok (map Re x)) as (r & Hr & Hl & _).
    exists r. rewrite length_map, Hpad in Hl. auto.
  - destruct (pwm_fft_ok x) as (r & Hr & Hl & _). exists r. rewrite Hpad in Hl. auto.
  - destruct (gui_fft_ok x) as (r & Hr & Hl & _). exists r. rewrite Hpad in Hl. auto.
  - apply filters_fft_throws; assumption.
  - intros fs fc Hfs Hfc. apply filters_preprocessBoore_throws; assumption.
Qed.

Lemma fft_length_not_power_of_two_witness :
  Filters.fft (N:=Exact.number) [Exact.Fin 1; Exact.Fin 2; Exact.Fin 3] = Throw TypeError.
Proof.
  apply (fft_length_not_power_of_two (N:=Exact.number)
           [Exact.Fin 1; Exact.Fin 2; Exact.Fin 3]).
  - simpl. lia.
  - simpl. apply (Pow2_odd (j:=1)). lia.
Defined.

(** ** The round trip: inverse after forward transform *)

Section TransformFacts.
Variable K : Type.
Variables (zero one : K) (add mul sub : K -> K -> K) (opp : K -> K).
Hypothesis Kring : ring_theory zero one add mul sub opp (@eq K).
Add Ring Kring_ring : Kring.

Variable tw : nat -> nat -> K.
Hypothesis tw_zero : forall n, tw 0 n = one.
Hypothesis tw_even : forall j h, 1 <= h -> tw (2 * j) (2 * h) = tw j h.
Hypothesis tw_odd : forall j h, 1 <= h ->
  tw (2 * j + 1) (2 * h) = mul (tw 1 (2 * h)) (tw j h).

Variable conj : K -> K.
Hypothesis conj_add : forall a b, conj (add a b) = add (conj a) (conj b).
Hypothesis conj_sub : forall a b, conj (sub a b) = sub (conj a) (conj b).
Hypothesis conj_mul : forall a b, conj (mul a b) = mul (conj a) (conj b).
Hypothesis conj_conj : forall a, conj (conj a) = a.
Hypothesis tw_unit : forall k n, 1 <= n -> mul (conj (tw k n)) (tw k n) = one.

Local Notation "'F'" := (transform add mul sub tw).
Local Notation "'G'" := (transform add mul sub (fun k n => conj (tw k n))).

Lemma transform_S (t : nat -> nat -> K) m f k :
  transform add mul sub t (S m) f k =
  if k <? 2 ^ m
  then add (transform add mul sub t m (fun j => f (2 * j)) k)
           (mul (t k (2 * 2 ^ m)) (transform add mul sub t m (fun j => f (2 * j + 1)) k))
  else sub (transform add mul sub t m (fun j => f (2 * j)) (k - 2 ^ m))
           (mul (t (k - 2 ^ m) (2 * 2 ^ m))
                (transform add mul sub t m (fun j => f (2 * j + 1)) (k - 2 ^ m))).
Proof. reflexivity. Qed.

Lemma pow2_pos m : 1 <= 2 ^ m.
Proof. induction m; simpl; lia. Qed.

Lemma transform_ext (t : nat -> nat -> K) m : forall f g,
  (forall j, j < 2 ^ m -> f j = g j) ->
  forall k, k < 2 ^ m ->
  transform add mul sub t m f k = transform add mul sub t m g k.
Proof.
  induction m as [|m IH]; intros f g Hfg k Hk.
  - simpl. apply Hfg. exact Hk.
  - rewrite !transform_S. rewrite Nat.pow_succ_r' in Hk, Hfg.
    assert (He : forall j, j < 2 ^ m -> f (2 * j) = g (2 * j))
      by (intros j Hj; apply Hfg; lia).
    assert (Ho : forall j, j < 2 ^ m -> f (2 * j + 1) = g (2 * j + 1))
      by (intros j Hj; apply Hfg; lia).
    destruct (Nat.ltb_spec k (2 ^ m)).
    + rewrite (IH _ _ He), (IH _ _ Ho) by lia. reflexivity.
    + rewrite (IH _ _ He), (IH _ _ Ho) by lia. reflexivity.
Qed.

Lemma transform_scale (t : nat -> nat -> K) c m : forall f k,
  transform add mul sub t m (fun j => mul c (f j)) k =
  mul c (transform add mul sub t m f k).
Proof.
  induction m as [|m IH]; intros f k; [reflexivity|].
  rewrite !transform_S.
  rewrite !(IH (fun j => f (2 * j))), !(IH (fun j => f (2 * j + 1))).
  destruct (k <? 2 ^ m); ring.
Qed.

Local Ltac reindex m j :=
  replace (2 * (j + 2 ^ m)) with (2 * j + 2 * 2 ^ m) by lia;
  replace (2 * j + 2 * 2 ^ m + 1) with (2 * j + 1 + 2 * 2 ^ m) by lia.

(** The transform of the recursion that splits by parity also satisfies the
    recursion that splits into halves. *)
Lemma transform_halves m : forall f k,
  k < 2 ^ m ->
  F (S m) f (2 * k) = F m (fun j => add (f j) (f (j + 2 ^ m))) k /\
  F (S m) f (2 * k + 1) =
    F m (fun j => mul (tw j (2 * 2 ^ m)) (sub (f j) (f (j + 2 ^ m)))) k.
Proof.
  induction m as [|m IH]; intros f k Hk.
  - assert (k = 0) by (simpl in Hk; lia). subst k.
    cbn. rewrite !tw_zero. split; ring.
  - pose proof (pow2_pos m) as Hpos.
    rewrite Nat.pow_succ_r' in Hk.
    assert (Hee : forall k', k' < 2 ^ m ->
              F (S m) (fun j => f (2 * j)) (2 * k') =
              F m (fun j => add (f (2 * j)) (f (2 * j + 2 * 2 ^ m))) k').
    { intros k' Hk'. rewrite (proj1 (IH _ k' Hk')).
      apply transform_ext; [|exact Hk']. intros j Hj. cbn beta.
      reindex m j. reflexivity. }
    assert (Hoe : forall k', k' < 2 ^ m ->
              F (S m) (fun j => f (2 * j + 1)) (2 * k') =
              F m (fun j => add (f (2 * j + 1)) (f (2 * j + 1 + 2 * 2 ^ m))) k').
    { intros k' Hk'. rewrite (proj1 (IH _ k' Hk')).
      apply transform_ext; [|exact Hk']. intros j Hj. cbn beta.
      reindex m j. reflexivity. }
    assert (Heo : forall k', k' < 2 ^ m ->
              F (S m) (fun j => f (2 * j)) (2 * k' + 1) =
              F m (fun j => mul (tw (2 * j) (2 * (2 * 2 ^ m)))
                                (sub (f (2 * j)) (f (2 * j + 2 * 2 ^ m)))) k').
    { intros k' Hk'. rewrite (proj2 (IH _ k' Hk')).
      apply transform_ext; [|exact Hk']. intros j Hj. cbn beta.
      rewrite tw_even by lia. reindex m j. reflexivity. }
    assert (Hoo : forall k', k' < 2 ^ m ->
              mul (tw 1 (2 * (2 * 2 ^ m)))
                  (F (S m) (fun j => f (2 * j + 1)) (2 * k' + 1)) =
              F m (fun j => mul (tw (2 * j + 1) (2 * (2 * 2 ^ m)))
                                (sub (f (2 * j + 1)) (f (2 * j + 1 + 2 * 2 ^ m)))) k').
    { intros k' Hk'. rewrite (proj2 (IH _ k' Hk')), <- transform_scale.
      apply transform_ext; [|exact Hk']. intros j Hj. cbn beta.
      rewrite tw_odd by lia. reindex m j. ring. }
    rewrite (transform_S _ (S m) f (2 * k)).
    rewrite (transform_S _ (S m) f (2 * k + 1)).
    rewrite (transform_S _ m _ k).
    rewrite (transform_S _ m (fun j => mul (tw j (2 * 2 ^ S m)) (sub (f j) (f (j + 2 ^ S m)))) k).
    rewrite !Nat.pow_succ_r'.
    destruct (Nat.ltb_spec k (2 ^ m)) as [Hlt|Hge].
    + destruct (Nat.ltb_spec (2 * k) (2 * 2 ^ m)); [|lia].
      destruct (Nat.ltb_spec (2 * k + 1) (2 * 2 ^ m)); [|lia].
      rewrite <- Hee, <- Hoe, <- Heo, <- Hoo by lia.
      rewrite tw_even, tw_odd by lia.
      split; ring.
    + destruct (Nat.ltb_spec (2 * k) (2 * 2 ^ m)); [lia|].
      destruct (Nat.ltb_spec (2 * k + 1) (2 * 2 ^ m)); [lia|].
      replace (2 * k - 2 * 2 ^ m) with (2 * (k - 2 ^ m)) by lia.
      replace (2 * k + 1 - 2 * 2 ^ m) with (2 * (k - 2 ^ m) + 1) by lia.
      rewrite <- Hee, <- Hoe, <- Heo, <- Hoo by lia.
      rewrite tw_even, tw_odd by lia.
      split; ring.
Qed.

Lemma transform_conj m : forall f k,
  conj (F m f k) = G m (fun j => conj (f j)) k.
Proof.
  induction m as [|m IH]; intros f k; [reflexivity|].
  rewrite !transform_S.
  destruct (k <? 2 ^ m); rewrite ?conj_add, ?conj_sub, conj_mul, !IH; reflexivity.
Qed.

(** The transform with the conjugate twiddles undoes the transform, up to
    the factor [2 ^ m]. *)
Lemma transform_inverse m : forall f k,
  k < 2 ^ m ->
  G m (F m f) k = mul (pow2K one add mul m) (f k).
Proof.
  induction m as [|m IH]; intros f k Hk.
  - cbn. ring.
  - pose proof (pow2_pos m) as Hpos.
    rewrite Nat.pow_succ_r' in Hk.
    assert (HE : forall k', k' < 2 ^ m ->
              G m (fun j => F (S m) f (2 * j)) k' =
              mul (pow2K one add mul m) (add (f k') (f (k' + 2 ^ m)))).
    { intros k' Hk'.
      transitivity (G m (F m (fun j => add (f j) (f (j + 2 ^ m)))) k');
        [|exact (IH (fun j => add (f j) (f (j + 2 ^ m))) k' Hk')].
      apply transform_ext; [|exact Hk'].
      intros j Hj. apply transform_halves. exact Hj. }
    assert (HO : forall k', k' < 2 ^ m ->
              G m (fun j => F (S m) f (2 * j + 1)) k' =
              mul (pow2K one add mul m)
                  (mul (tw k' (2 * 2 ^ m)) (sub (f k') (f (k' + 2 ^ m))))).
    { intros k' Hk'.
      transitivity
        (G m (F m (fun j => mul (tw j (2 * 2 ^ m)) (sub (f j) (f (j + 2 ^ m))))) k');
        [|exact (IH (fun j => mul (tw j (2 * 2 ^ m)) (sub (f j) (f (j + 2 ^ m))))
                    k' Hk')].
      apply transform_ext; [|exact Hk'].
      intros j Hj. apply transform_halves. exact Hj. }
    rewrite (transform_S _ m (F (S m) f) k). cbn [pow2K].
    destruct (Nat.ltb_spec k (2 ^ m)) as [Hlt|Hge].
    + rewrite HE, HO by lia.
      assert (Hu := tw_unit k (n := 2 * 2 ^ m)).
      set (t := tw k (2 * 2 ^ m)) in *.
      transitivity (add (mul (pow2K one add mul m) (add (f k) (f (k + 2 ^ m))))
                        (mul (mul (conj t) t)
                             (mul (pow2K one add mul m) (sub (f k) (f (k + 2 ^ m)))))).
      { ring. }
      rewrite Hu by lia. ring.
    + rewrite HE, HO by lia.
      replace (k - 2 ^ m + 2 ^ m) with k by lia.
      assert (Hu := tw_unit (k - 2 ^ m) (n := 2 * 2 ^ m)).
      set (t := tw (k - 2 ^ m) (2 * 2 ^ m)) in *.
      set (k' := k - 2 ^ m).
      transitivity (sub (mul (pow2K one add mul m) (add (f k') (f k)))
                        (mul (mul (conj t) t)
                             (mul (pow2K one add mul m) (sub (f k') (f k))))).
      { ring. }
      rewrite Hu by lia. ring.
Qed.

(** conjugate, transform, conjugate: the inverse up to the factor *)
Lemma transform_round_trip m f k :
  k < 2 ^ m ->
  conj (F m (fun j => conj (F m f j)) k) = mul (pow2K one add mul m) (f k).
Proof.
  intros Hk. rewrite transform_conj.
  transitivity (G m (F m f) k); [|apply transform_inverse; exact Hk].
  apply transform_ext; [|exact Hk].
  intros j Hj. apply conj_conj.
Qed.

End TransformFacts.

Lemma nth_error_tabulate {A} (f : nat -> A) n i :
  nth_error (tabulate n f) i = if i <? n then Some (f i) else None.
Proof.
  unfold tabulate. rewrite nth_error_map, nth_error_seq.
  destruct (i <? n); reflexivity.
Qed.

Lemma length_tabulate {A} (f : nat -> A) n : length (tabulate n f) = n.
Proof. unfold tabulate. rewrite length_map, length_seq. reflexivity. Qed.

Lemma js_get_tabulate {A} (f : nat -> A) n i :
  i < n -> js_get (map Some (tabulate n f)) i = Some (f i).
Proof.
  intros Hi. unfold js_get. rewrite nth_error_map, nth_error_tabulate.
  destruct (Nat.ltb_spec i n); [reflexivity | lia].
Qed.

Lemma tabulate_ext {A} (f g : nat -> A) n :
  (forall i, i < n -> f i = g i) -> tabulate n f = tabulate n g.
Proof.
  intros H. apply map_ext_in. intros i Hi. apply in_seq in Hi. apply H. lia.
Qed.

Lemma tabulate_nth {A B} (g : A -> B) (l : list A) d :
  tabulate (length l) (fun k => g (nth k l d)) = map g l.
Proof.
  apply nth_error_ext. intros i.
  rewrite nth_error_tabulate, nth_error_map.
  destruct (Nat.ltb_spec i (length l)) as [Hlt|Hge].
  - rewrite (nth_error_nth' l d Hlt). reflexivity.
  - apply nth_error_None in Hge. rewrite Hge. reflexivity.
Qed.

Lemma nth_error_evens_odds {A} (l : list A) :
  (forall i, nth_error (evens l) i = nth_error l (2 * i)) /\
  (forall i, nth_error (odds l) i = nth_error l (2 * i + 1)).
Proof.
  induction l as [|a t [IHe IHo]]; [split; intros [|i]; reflexivity|].
  split; intros i.
  - destruct i as [|i]; [reflexivity|].
    cbn [evens nth_error]. rewrite IHo.
    replace (2 * S i) with (S (2 * i + 1)) by lia. reflexivity.
  - cbn [odds]. rewrite IHe.
    replace (2 * i + 1) with (S (2 * i)) by lia. reflexivity.
Qed.

Lemma evens_tabulate {A} (f : nat -> A) h :
  evens (tabulate (2 * h) f) = tabulate h (fun j => f (2 * j)).
Proof.
  apply nth_error_ext. intros i.
  rewrite (proj1 (nth_error_evens_odds _)), !nth_error_tabulate.
  destruct (Nat.ltb_spec (2 * i) (2 * h)), (Nat.ltb_spec i h); try lia; reflexivity.
Qed.

Lemma odds_tabulate {A} (f : nat -> A) h :
  odds (tabulate (2 * h) f) = tabulate h (fun j => f (2 * j + 1)).
Proof.
  apply nth_error_ext. intros i.
  rewrite (proj2 (nth_error_evens_odds _)), !nth_error_tabulate.
  destruct (Nat.ltb_spec (2 * i + 1) (2 * h)), (Nat.ltb_spec i h); try lia; reflexivity.
Qed.

Section Radix2Transform.
Context {N : Number} {T : Trig N}.

Local Notation "'FT'" :=
  (transform Radix2.complexAdd Radix2.complexMultiply Radix2.complexSubtract twiddle).

Lemma combine_tabulate h (e o : nat -> complex) :
  1 <= h ->
  Radix2.combine (2 * h) (map Some (tabulate h e)) (map Some (tabulate h o)) =
  Ok (map Some
        (tabulate (2 * h)
           (fun k =>
              if k <? h
              then Radix2.complexAdd (e k)
                     (Radix2.complexMultiply (twiddle k (2 * h)) (o k))
              else Radix2.complexSubtract (e (k - h))
                     (Radix2.complexMultiply (twiddle (k - h) (2 * h)) (o (k - h)))))).
Proof.
  intros Hh. unfold Radix2.combine.
  assert (E1 : (2 * h + 1) / 2 = h).
  { replace (2 * h + 1) with (1 + h * 2) by lia. rewrite Nat.div_add by lia. reflexivity. }
  assert (E2 : 2 * h / 2 = h).
  { replace (2 * h) with (h * 2) by lia. apply Nat.div_mul. lia. }
  assert (E3 : Nat.even (2 * h) = true) by (apply Nat.even_spec; exists h; lia).
  rewrite E1, E2, E3.
  set (lo := fun k => Radix2.complexAdd (e k)
                        (Radix2.complexMultiply (twiddle k (2 * h)) (o k))).
  set (up := fun k => Radix2.complexSubtract (e k)
                        (Radix2.complexMultiply (twiddle k (2 * h)) (o k))).
  set (I := fun (k : nat) (a : jsarray complex) =>
              length a = 2 * h /\
              (forall i, i < k -> nth_error a i = Some (Some (lo i))) /\
              (forall i, i < k -> nth_error a (h + i) = Some (Some (up i)))).
  match goal with |- context [for_loop 0 h ?body ?s] =>
    destruct (@for_loop_invariant _ I body h 0 s) as (r & Hr & Hlen & Hlow & Hup)
  end.
  - repeat split; [unfold new_Array; apply repeat_length | |]; intros; lia.
  - intros k a Hk (Hlen & Hlow & Hup).
    rewrite !js_get_tabulate by lia. cbn [obj bind].
    eexists; split; [reflexivity|].
    unfold js_set. repeat split.
    + rewrite !js_store_length. lia.
    + intros i Hi. rewrite js_store_other by (rewrite ?js_store_length; lia).
      destruct (Nat.eq_dec i k) as [->|Hne].
      * rewrite js_store_same. reflexivity.
      * rewrite js_store_other by lia. apply Hlow. lia.
    + intros i Hi. destruct (Nat.eq_dec i k) as [->|Hne].
      * replace (h + k) with (k + h) by lia. rewrite js_store_same. reflexivity.
      * rewrite js_store_other by (rewrite ?js_store_length; lia).
        rewrite js_store_other by lia. apply Hup. lia.
  - rewrite Hr. f_equal. apply nth_error_ext. intros i.
    rewrite nth_error_map, nth_error_tabulate.
    destruct (Nat.ltb_spec i (2 * h)) as [Hi|Hi].
    + destruct (Nat.ltb_spec i h) as [Hih|Hih].
      * rewrite Hlow by (simpl; lia). reflexivity.
      * replace i with (h + (i - h)) at 1 by lia.
        rewrite Hup by (simpl; lia). reflexivity.
    + apply nth_error_None. lia.
Qed.

(** What fftRecursive computes on an array of length [2 ^ m]. *)
Lemma fftRecursive_fuel_tabulate m : forall fuel (f : nat -> complex),
  2 ^ m <= fuel ->
  Radix2.fftRecursive_fuel fuel (tabulate (2 ^ m) f) =
  Ok (map Some (tabulate (2 ^ m) (FT m f))).
Proof.
  induction m as [|m IH]; intros fuel f Hfuel.
  - destruct fuel as [|fuel]; [simpl in Hfuel; lia|]. reflexivity.
  - pose proof (pow2_pos m) as Hpos.
    rewrite Nat.pow_succ_r' in *.
    destruct fuel as [|fuel]; [lia|].
    cbn [Radix2.fftRecursive_fuel]. rewrite length_tabulate.
    destruct (Nat.leb_spec (2 * 2 ^ m) 1) as [|_]; [lia|].
    rewrite evens_tabulate, odds_tabulate.
    rewrite !IH by lia. cbn [bind].
    rewrite combine_tabulate by lia.
    reflexivity.
Qed.

End Radix2Transform.

Section ExactTransform.
Import Exact Cplx.
Local Open Scope R_scope.

Lemma C_ring : ring_theory Czero Cone Cadd Cmul Csub Copp (@eq C).
Proof.
  constructor; intros; repeat match goal with z : C |- _ => destruct z end;
    unfold Czero, Cone, Cadd, Cmul, Csub, Copp; cbn [fst snd]; f_equal; ring.
Qed.

Lemma IZR_of_nat_pos n : (1 <= n)%nat -> IZR (Z.of_nat n) <> 0.
Proof. intros H. apply not_0_IZR. lia. Qed.

Lemma IZR_of_nat_double n : IZR (Z.of_nat (2 * n)) = 2 * IZR (Z.of_nat n).
Proof. rewrite Nat2Z.inj_mul, mult_IZR. reflexivity. Qed.

Lemma IZR_of_nat_succ n : IZR (Z.of_nat (n + 1)) = IZR (Z.of_nat n) + 1.
Proof. rewrite Nat2Z.inj_add, plus_IZR. reflexivity. Qed.

Lemma root_zero n : root 0 n = Cone.
Proof.
  unfold root, Cone. cbn [Z.of_nat].
  replace (IZR (-2) * PI * 0 / IZR (Z.of_nat n)) with 0
    by (unfold Rdiv; ring).
  rewrite cos_0, sin_0. reflexivity.
Qed.

Lemma root_even j h : (1 <= h)%nat -> root (2 * j) (2 * h) = root j h.
Proof.
  intros Hh. unfold root. rewrite !IZR_of_nat_double.
  pose proof (IZR_of_nat_pos Hh) as Hnz.
  replace (IZR (-2) * PI * (2 * IZR (Z.of_nat j)) / (2 * IZR (Z.of_nat h)))
    with (IZR (-2) * PI * IZR (Z.of_nat j) / IZR (Z.of_nat h))
    by (field; exact Hnz).
  reflexivity.
Qed.

Lemma root_odd j h : (1 <= h)%nat ->
  root (2 * j + 1) (2 * h) = Cmul (root 1 (2 * h)) (root j h).
Proof.
  intros Hh. unfold root, Cmul. cbn [fst snd].
  rewrite IZR_of_nat_succ, !IZR_of_nat_double.
  pose proof (IZR_of_nat_pos Hh) as Hnz.
  set (a := IZR (-2) * PI * IZR (Z.of_nat 1) / (2 * IZR (Z.of_nat h))).
  set (b := IZR (-2) * PI * IZR (Z.of_nat j) / IZR (Z.of_nat h)).
  replace (IZR (-2) * PI * (2 * IZR (Z.of_nat j) + 1) / (2 * IZR (Z.of_nat h)))
    with (a + b)
    by (unfold a, b; cbn [Z.of_nat Pos.of_succ_nat]; field; exact Hnz).
  rewrite cos_plus, sin_plus. f_equal. ring.
Qed.

Lemma root_unit k n : Cmul (Cconj (root k n)) (root k n) = Cone.
Proof.
  unfold root, Cmul, Cconj, Cone. cbn [fst snd].
  set (a := IZR (-2) * PI * IZR (Z.of_nat k) / IZR (Z.of_nat n)).
  pose proof (sin2_cos2 a) as H. unfold Rsqr in H.
  f_equal; [|ring].
  rewrite <- H. ring.
Qed.

Lemma Cconj_add a b : Cconj (Cadd a b) = Cadd (Cconj a) (Cconj b).
Proof. destruct a, b. unfold Cconj, Cadd. cbn [fst snd]. f_equal. ring. Qed.

Lemma Cconj_sub a b : Cconj (Csub a b) = Csub (Cconj a) (Cconj b).
Proof. destruct a, b. unfold Cconj, Csub. cbn [fst snd]. f_equal. ring. Qed.

Lemma Cconj_mul a b : Cconj (Cmul a b) = Cmul (Cconj a) (Cconj b).
Proof. destruct a, b. unfold Cconj, Cmul. cbn [fst snd]. f_equal; ring. Qed.

Lemma Cconj_conj a : Cconj (Cconj a) = a.
Proof. destruct a. unfold Cconj. cbn [fst snd]. f_equal. ring. Qed.

Lemma pow2K_C m : pow2K Cone Cadd Cmul m = (2 ^ m, 0).
Proof.
  induction m as [|m IH]; [reflexivity|].
  cbn [pow2K]. rewrite IH. unfold Cmul, Cadd, Cone. cbn [fst snd].
  f_equal; simpl; ring.
Qed.

Lemma IZR_of_nat_pow2 m : IZR (Z.of_nat (2 ^ m)) = 2 ^ m.
Proof.
  rewrite Nat2Z.inj_pow. change (Z.of_nat 2) with 2%Z.
  rewrite <- pow_IZR. reflexivity.
Qed.

(** the round trip on index maps, over the reals *)
Lemma C_round_trip m (f : nat -> C) k :
  (k < 2 ^ m)%nat ->
  Cconj (transform Cadd Cmul Csub root m
           (fun j => Cconj (transform Cadd Cmul Csub root m f j)) k) =
  (2 ^ m * fst (f k), 2 ^ m * snd (f k)).
Proof.
  intros Hk.
  rewrite (@transform_round_trip C Czero Cone Cadd Cmul Csub Copp C_ring root
             root_zero root_even root_odd Cconj
             Cconj_add Cconj_sub Cconj_mul Cconj_conj
             (fun k n _ => root_unit k n) m f k Hk).
  rewrite pow2K_C. unfold Cmul. cbn [fst snd]. f_equal; ring.
Qed.

(** *** The code, in exact arithmetic, computes over the reals *)

Lemma embed_add a b : Radix2.complexAdd (embed a) (embed b) = embed (Cadd a b).
Proof. reflexivity. Qed.

Lemma embed_sub a b : Radix2.complexSubtract (embed a) (embed b) = embed (Csub a b).
Proof. reflexivity. Qed.

Lemma embed_mul a b : Radix2.complexMultiply (embed a) (embed b) = embed (Cmul a b).
Proof. reflexivity. Qed.

Lemma twiddle_exact k n : (1 <= n)%nat -> twiddle k n = embed (root k n).
Proof.
  intros Hn. unfold twiddle, root, embed. cbn [fst snd].
  unfold of_nat. cbn [of_Z js_mul js_div Math_PI number xmul xdiv].
  destruct (Req_dec_T (IZR (Z.of_nat n)) 0) as [E|_];
    [exfalso; revert E; apply IZR_of_nat_pos; exact Hn|].
  reflexivity.
Qed.

Lemma transform_exact m : forall (f : nat -> C) k,
  transform Radix2.complexAdd Radix2.complexMultiply Radix2.complexSubtract
            twiddle m (fun j => embed (f j)) k =
  embed (transform Cadd Cmul Csub root m f k).
Proof.
  induction m as [|m IH]; intros f k; [reflexivity|].
  pose proof (pow2_pos m) as Hpos.
  rewrite !transform_S.
  rewrite !(IH (fun j => f (2 * j)%nat)), !(IH (fun j => f (2 * j + 1)%nat)).
  rewrite !twiddle_exact by lia.
  destruct (k <? 2 ^ m)%nat; rewrite embed_mul, ?embed_add, ?embed_sub; reflexivity.
Qed.

End ExactTransform.

Section UtilsPow2.
Context {N : Number} {T : Trig N}.

Lemma map_obj_from_Some {A B} (g : A -> B) (l : list A) : forall i,
  map_obj_from i (fun c _ => g c) (map Some l) = Ok (map g l).
Proof.
  induction l as [|a t IH]; intros i; [reflexivity|].
  cbn [map map_obj_from obj bind]. rewrite IH. reflexivity.
Qed.

(** on a power-of-two length, fft of utils.js pads nothing *)
Lemma utils_fft_pow2 (signal : list sample) :
  Pow2 (length signal) ->
  Utils.fft signal = Radix2.fftRecursive (map to_complex signal).
Proof.
  intros Hp. unfold Utils.fft, Utils.fftRecursive, Radix2.fftRecursive.
  pose proof (Pow2_pos Hp) as Hpos.
  destruct (Nat.leb_spec (length signal) 1) as [Hle|Hgt].
  - rewrite length_map. replace (length signal) with 1 by lia.
    cbn [Radix2.fftRecursive_fuel]. rewrite length_map.
    destruct (Nat.leb_spec (length signal) 1); [reflexivity | lia].
  - rewrite (nextPow2_fix Hp), Nat.eqb_refl. reflexivity.
Qed.

End UtilsPow2.

Section RoundTrip.
Import Exact Cplx.
Local Open Scope R_scope.

Lemma exact_fftRecursive m (f : nat -> C) :
  @Radix2.fftRecursive Exact.number exact_trig
     (tabulate (2 ^ m) (fun k => embed (f k))) =
  Ok (map Some (tabulate (2 ^ m)
                  (fun k => embed (transform Cadd Cmul Csub root m f k)))).
Proof.
  unfold Radix2.fftRecursive. rewrite length_tabulate.
  rewrite fftRecursive_fuel_tabulate by lia.
  do 2 f_equal. apply tabulate_ext. intros k _. apply transform_exact.
Qed.

Lemma map_tabulate {A B} (g : A -> B) (h : nat -> A) n :
  map g (tabulate n h) = tabulate n (fun k => g (h k)).
Proof. unfold tabulate. apply map_map. Qed.

(** C1 (as amended): in exact arithmetic, that is, over the reals with the
    cosine and the sine, for every real-valued array x whose length is a
    power of two fft of utils.js returns a spectrum, and ifft (conjugate,
    forward transform, conjugate, divide by N) of that spectrum returns x
    itself: element k has real part x[k] and imaginary part 0. *)
Theorem fft_ifft_round_trip (x : list R) :
  Pow2 (length x) ->
  exists spectrum,
    @Utils.fft Exact.number exact_trig (map Re (map Fin x)) = Ok spectrum /\
    @Utils.ifft Exact.number exact_trig spectrum =
    Ok (map (fun v => @Complex Exact.number (Fin v) (Fin 0)) x).
Proof.
  intros Hp. destruct (Pow2_inv Hp) as [m Hm].
  set (f := fun k : nat => (nth k x 0, 0) : C).
  assert (Hx : map to_complex (map Re (map Fin x)) =
               tabulate (2 ^ m) (fun k => embed (f k))).
  { rewrite <- Hm, !map_map. symmetry.
    exact (tabulate_nth (fun v => embed (v, 0)) x 0). }
  rewrite utils_fft_pow2 by (rewrite !length_map; exact Hp).
  rewrite Hx, exact_fftRecursive.
  eexists; split; [reflexivity|].
  unfold Utils.ifft, map_obj. rewrite map_obj_from_Some. cbn [bind].
  rewrite utils_fft_pow2
    by (rewrite !length_map, length_tabulate; apply Pow2_pow).
  rewrite map_map. cbn [to_complex]. rewrite map_id.
  rewrite map_tabulate.
  rewrite (tabulate_ext _
             (fun k => embed (Cconj (transform Cadd Cmul Csub root m f k))))
    by (intros; reflexivity).
  rewrite exact_fftRecursive. cbn [bind].
  rewrite map_obj_from_Some. f_equal.
  rewrite length_map, length_tabulate, map_tabulate.
  rewrite <- (tabulate_nth (fun v => @Complex Exact.number (Fin v) (Fin 0)) x 0).
  rewrite Hm. apply tabulate_ext. intros k Hk.
  pose proof (@C_round_trip m f k Hk) as Hrt.
  set (z := transform Cadd Cmul Csub root m
              (fun j => Cconj (transform Cadd Cmul Csub root m f j)) k) in *.
  unfold Cconj, f in Hrt. cbn [fst snd] in Hrt.
  injection Hrt as Hre Him.
  unfold embed, of_nat. cbn [real imag of_Z js_div js_neg number xdiv xneg].
  rewrite IZR_of_nat_pow2.
  assert (Hnz : 2 ^ m <> 0) by (apply pow_nonzero; lra).
  destruct (Req_dec_T (2 ^ m) 0) as [E|_]; [contradiction|].
  rewrite Hre, Him. f_equal; f_equal; field; exact Hnz.
Qed.

End RoundTrip.

Lemma fft_ifft_round_trip_witness :
  Pow2 (length [1; 2]%R) /\
  exists spectrum,
    @Utils.fft Exact.number exact_trig (map (@Re Exact.number) (map Exact.Fin [1; 2]%R)) = Ok spectrum /\
    @Utils.ifft Exact.number exact_trig spectrum =
    Ok (map (fun v => @Complex Exact.number (Exact.Fin v) (Exact.Fin 0)) [1; 2]%R).
Proof.
  split; [|apply fft_ifft_round_trip]; exact (Pow2_double Pow2_one).
Defined.

Section RoundTripBinary64.
Import PrimFloat.
Local Existing Instance Float64.number.

(** fft and ifft of utils.js on [1, 1e-17] in binary64, for any host whose
    cosine and sine take the values that ECMAScript fixes at -0: 1 + 1e-17
    and 1 - 1e-17 both round to 1 *)
Lemma utils_round_trip_small_sample (T : Trig Float64.number) :
  conforming T ->
  Utils.fft (map Re [#1; dec 1 100000000000000000]%num) =
    Ok [Some {| real := 1; imag := 0 |}; Some {| real := 1; imag := 0 |}]%float /\
  Utils.ifft [Some {| real := 1; imag := 0 |}; Some {| real := 1; imag := 0 |}]%float =
    Ok [{| real := 1; imag := 0 |}; {| real := 0; imag := -0 |}]%float.
Proof.
  destruct T as [c s]. intros [Hc Hs]. cbv in Hc, Hs.
  split; cbv; rewrite ?Hc, ?Hs; vm_compute; reflexivity.
Qed.

(** and on [2^1023, 2^1023]: the sum overflows *)
Lemma utils_round_trip_overflow (T : Trig Float64.number) :
  conforming T ->
  Utils.fft (map Re [0x1p+1023; 0x1p+1023]%float) =
    Ok [Some {| real := infinity; imag := 0 |}; Some {| real := 0; imag := 0 |}]%float /\
  Utils.ifft [Some {| real := infinity; imag := 0 |}; Some {| real := 0; imag := 0 |}]%float =
    Ok [{| real := infinity; imag := 0 |}; {| real := infinity; imag := -0 |}]%float.
Proof.
  destruct T as [c s]. intros [Hc Hs]. cbv in Hc, Hs.
  split; cbv; rewrite ?Hc, ?Hs; vm_compute; reflexivity.
Qed.

(** C1 as stated fails in binary64, whatever the host's cosine and sine:
    [1, 1e-17] comes back as [1, 0], so the second element is off by the
    whole of its value; and [2^1023, 2^1023] comes back as
    [Infinity, Infinity], because the sum of the two samples overflows. *)
Lemma fft_ifft_round_trip_not_within_tolerance :
  (~ exists T : Trig Float64.number,
       conforming T /\
       round_trip_within (dec 1 1000000000) [#1; dec 1 100000000000000000]%num) /\
  (~ exists T : Trig Float64.number,
       conforming T /\
       round_trip_within (dec 1 1000000000) [0x1p+1023; 0x1p+1023]%float).
Proof.
  split; intros (T & Hc & H).
  - destruct (utils_round_trip_small_sample Hc) as [Efft Eifft].
    specialize (H _ _ Efft Eifft).
    inversion H as [|? ? ? ? _ H2]; subst.
    inversion H2 as [|? ? ? ? H3 _]; subst.
    vm_compute in H3. discriminate.
  - destruct (utils_round_trip_overflow Hc) as [Efft Eifft].
    specialize (H _ _ Efft Eifft).
    inversion H as [|? ? ? ? H1 _]; subst.
    vm_compute in H1. discriminate.
Qed.

End RoundTripBinary64.

(** ** Bracketed duration *)

Section BracketedFacts.
Context {N : Number}.

Lemma no_index_above (threshold : num) (acceleration : list num) : forall i,
  (forall a, In a acceleration -> (Math_abs a >=? threshold)%num = false) ->
  filter (fun i => negb (i =? -1)%Z)
         (mapi_from i (fun acc i => if (Math_abs acc >=? threshold)%num
                                    then Z.of_nat i else (-1)%Z) acceleration) = [].
Proof.
  induction acceleration as [|a t IH]; intros i H; simpl; [reflexivity|].
  rewrite (H a) by (left; reflexivity). simpl. apply IH.
  intros b Hb. apply H. right. exact Hb.
Qed.

Lemma no_item_above (thresh : num) (time acceleration : list num) : forall i,
  (forall a, In a acceleration -> (Math_abs a >=? thresh)%num = false) ->
  filter Analysis.above
         (mapi_from i (fun acc i => {| Analysis.index := i;
                                       Analysis.time_ := value_at time i;
                                       Analysis.above := (Math_abs acc >=? thresh)%num |})
                    acceleration) = [].
Proof.
  induction acceleration as [|a t IH]; intros i H; simpl; [reflexivity|].
  rewrite (H a) by (left; reflexivity). apply IH.
  intros b Hb. apply H. right. exact Hb.
Qed.

End BracketedFacts.

(** C5 (as amended): when no sample reaches the threshold the duration is 0;
    the analysis module then reports the bounds as null, while
    processWithMatlab.js and earthquakeAnalysis.js report them as NaN, with
    -1 for both indices. *)
Theorem bracketed_duration_no_exceedance {N : Number} (time acceleration : list num) :
  (forall threshold,
     (forall a, In a acceleration -> (Math_abs a >=? threshold)%num = false) ->
     ProcessWithMatlab.calculateBracketedDuration time acceleration threshold =
       {| ProcessWithMatlab.duration := #0%num;
          ProcessWithMatlab.startTime := Num NaN;
          ProcessWithMatlab.endTime := Num NaN;
          ProcessWithMatlab.startIndex := -1;
          ProcessWithMatlab.endIndex := -1 |} /\
     Gui.calculateBracketedDuration time acceleration threshold =
       {| Gui.duration := #0%num;
          Gui.startTime := Num NaN;
          Gui.endTime := Num NaN;
          Gui.startIndex := -1;
          Gui.endIndex := -1 |}) /\
  (forall threshold,
     let thresh := or_default threshold
                     (dec 5 100 * Math_max (map Math_abs acceleration))%num in
     (forall a, In a acceleration -> (Math_abs a >=? thresh)%num = false) ->
     Analysis.calculateBracketedDuration acceleration time threshold =
       {| Analysis.duration := #0%num;
          Analysis.startTime := Null;
          Analysis.endTime := Null;
          Analysis.threshold := thresh;
          Analysis.exceedances := 0;
          Analysis.units := None |}).
Proof.
  split.
  - intros threshold H.
    unfold ProcessWithMatlab.calculateBracketedDuration, Gui.calculateBracketedDuration, mapi.
    rewrite (no_index_above threshold acceleration 0 H). split; reflexivity.
  - intros threshold thresh H.
    unfold Analysis.calculateBracketedDuration, mapi. fold thresh.
    rewrite (no_item_above thresh time acceleration 0 H). reflexivity.
Qed.

Lemma bracketed_duration_no_exceedance_witness :
  ProcessWithMatlab.startTime
    (ProcessWithMatlab.calculateBracketedDuration (N:=Float64.number)
       [#0; #1]%num [#1; #2]%num #5%num) = Num NaN /\
  Analysis.startTime
    (Analysis.calculateBracketedDuration (N:=Float64.number)
       [#1; #2]%num [#0; #1]%num (Some #5%num)) = Null.
Proof.
  destruct (bracketed_duration_no_exceedance (N:=Float64.number)
              [#0; #1]%num [#1; #2]%num) as [Hp Ha].
  split.
  - destruct (Hp #5%num) as [-> _]; [|reflexivity].
    intros a [<-|[<-|[]]]; vm_compute; reflexivity.
  - rewrite (Ha (Some #5%num)); [reflexivity|].
    intros a [<-|[<-|[]]]; vm_compute; reflexivity.
Defined.

(** C5 as stated fails for processWithMatlab.js and earthquakeAnalysis.js:
    with accelerations 1 and 2 and threshold 5 no sample reaches the
    threshold, and both bounds are NaN. *)
Lemma bracketed_duration_bounds_are_NaN :
  forallb (fun a : @num Float64.number => negb (Math_abs a >=? #5)%num)
          [#1; #2]%num = true /\
  value_isNaN (ProcessWithMatlab.startTime
    (ProcessWithMatlab.calculateBracketedDuration (N:=Float64.number)
       [#0; #1]%num [#1; #2]%num #5%num)) = true /\
  value_isNaN (ProcessWithMatlab.endTime
    (ProcessWithMatlab.calculateBracketedDuration (N:=Float64.number)
       [#0; #1]%num [#1; #2]%num #5%num)) = true /\
  value_isNaN (Gui.startTime
    (Gui.calculateBracketedDuration (N:=Float64.number)
       [#0; #1]%num [#1; #2]%num #5%num)) = true /\
  value_isNaN (Gui.endTime
    (Gui.calculateBracketedDuration (N:=Float64.number)
       [#0; #1]%num [#1; #2]%num #5%num)) = true.
Proof. repeat split; vm_compute; reflexivity. Qed.

(** ** Response spectrum: the guard on the effective stiffness *)

Section SpectrumFacts.
Context {N : Number}.

Lemma analysis_oscillator_guarded (acceleration : list num)
  (nc : Analysis.newmark_constants) (zeta T_ : num) :
  let keff := effective_stiffness (Analysis.a0 nc) (Analysis.a1 nc) zeta
                                  (#2 * Math_PI / T_)%num in
  negb (isFinite keff) || (keff <=? #0)%num = true ->
  Analysis.oscillator acceleration nc zeta T_ =
    {| Analysis.SD := #0%num; Analysis.PSV := #0%num; Analysis.PSA := #0%num |}.
Proof.
  intros keff H. unfold Analysis.oscillator.
  fold (effective_stiffness (Analysis.a0 nc) (Analysis.a1 nc) zeta (#2 * Math_PI / T_)%num).
  fold keff. rewrite H. reflexivity.
Qed.

Lemma pwm_oscillator_guarded (acceleration : list num)
  (nc : ProcessWithMatlab.newmark_constants) (dampingRatio f : num) :
  let keff := effective_stiffness (ProcessWithMatlab.a0 nc) (ProcessWithMatlab.a1 nc)
                                  dampingRatio (#2 * Math_PI * f)%num in
  (keff === #0)%num || negb (isFinite keff) = true ->
  ProcessWithMatlab.oscillator acceleration nc dampingRatio f =
    {| ProcessWithMatlab.SD := #0%num; ProcessWithMatlab.PSV := #0%num;
       ProcessWithMatlab.PSA := #0%num |}.
Proof.
  intros keff H. unfold ProcessWithMatlab.oscillator.
  fold (effective_stiffness (ProcessWithMatlab.a0 nc) (ProcessWithMatlab.a1 nc)
                            dampingRatio (#2 * Math_PI * f)%num).
  fold keff. rewrite H. reflexivity.
Qed.

Lemma analysis_oscillator_eq (acceleration : list num)
  (nc : Analysis.newmark_constants) (zeta T_ : num) :
  Analysis.oscillator acceleration nc zeta T_ =
  let omega := (#2 * Math_PI / T_)%num in
  let keff := effective_stiffness (Analysis.a0 nc) (Analysis.a1 nc) zeta omega in
  if negb (isFinite keff) || (keff <=? #0)%num then
    {| Analysis.SD := #0%num; Analysis.PSV := #0%num; Analysis.PSA := #0%num |}
  else
    let '(u, v, acc) :=
      Analysis.timeIntegration acceleration nc #1%num (damping_coefficient zeta omega) keff in
    {| Analysis.SD := Math_max (map_num Math_abs u);
       Analysis.PSV := Math_max (map_num Math_abs v);
       Analysis.PSA := Math_max (map_num Math_abs acc) |}.
Proof. reflexivity. Qed.

Lemma pwm_oscillator_eq (acceleration : list num)
  (nc : ProcessWithMatlab.newmark_constants) (dampingRatio f : num) :
  ProcessWithMatlab.oscillator acceleration nc dampingRatio f =
  let omega := (#2 * Math_PI * f)%num in
  let keff := effective_stiffness (ProcessWithMatlab.a0 nc) (ProcessWithMatlab.a1 nc)
                                  dampingRatio omega in
  if (keff === #0)%num || negb (isFinite keff) then
    {| ProcessWithMatlab.SD := #0%num; ProcessWithMatlab.PSV := #0%num;
       ProcessWithMatlab.PSA := #0%num |}
  else
    let '(u, v, a) :=
      ProcessWithMatlab.timeIntegration acceleration nc #1%num
        (damping_coefficient dampingRatio omega) keff in
    {| ProcessWithMatlab.SD := Math_max (map_num Math_abs u);
       ProcessWithMatlab.PSV := Math_max (map_num Math_abs v);
       ProcessWithMatlab.PSA := Math_max (map_num Math_abs a) |}.
Proof. reflexivity. Qed.

Lemma nth_error_map2 {A B C} (f : A -> B) (g : B -> C) (l : list A) i a :
  nth_error l i = Some a -> nth_error (map g (map f l)) i = Some (g (f a)).
Proof. intros H. rewrite !nth_error_map, H. reflexivity. Qed.

End SpectrumFacts.

(** C6 (as amended): the sweep writes one entry per period into each of SD,
    PSV and PSA.  In the analysis module a period whose effective stiffness
    is non-finite or non-positive gets 0 in all three.  In
    processWithMatlab.js the guard is [keff === 0 || !isFinite(keff)]: a
    period whose effective stiffness is zero or non-finite gets 0 in all
    three. *)
Theorem spectrum_guard_emits_zero {N : Number} (acceleration time : list num) :
  (forall this periods damping i T_,
     let zeta := or_default damping (Analysis.dampingRatio this) in
     let dt := if 1 <? length time then (time.[1] - time.[0])%num else dec 1 100 in
     let nc := Analysis.newmark dt in
     let grid := match periods with Some p => p | None => Analysis.period_grid end in
     let keff := effective_stiffness (Analysis.a0 nc) (Analysis.a1 nc) zeta
                                     (#2 * Math_PI / T_)%num in
     let r := Analysis.calculateResponseSpectra this acceleration time periods damping in
     length (Analysis.rs_SD r) = length grid /\
     length (Analysis.rs_PSV r) = length grid /\
     length (Analysis.rs_PSA r) = length grid /\
     (nth_error grid i = Some T_ ->
      negb (isFinite keff) || (keff <=? #0)%num = true ->
      nth_error (Analysis.rs_SD r) i = Some #0%num /\
      nth_error (Analysis.rs_PSV r) i = Some #0%num /\
      nth_error (Analysis.rs_PSA r) i = Some #0%num)) /\
  (forall dampingRatio i T_,
     let zeta := match dampingRatio with Some d => d | None => dec 5 100 end in
     let nc := ProcessWithMatlab.newmark (time.[1] - time.[0])%num in
     let keff := effective_stiffness (ProcessWithMatlab.a0 nc) (ProcessWithMatlab.a1 nc)
                                     zeta (#2 * Math_PI * (#1 / T_))%num in
     let r := ProcessWithMatlab.calculateResponseSpectrum acceleration time dampingRatio in
     length (ProcessWithMatlab.rs_SD r) = length ProcessWithMatlab.period_grid /\
     length (ProcessWithMatlab.rs_PSV r) = length ProcessWithMatlab.period_grid /\
     length (ProcessWithMatlab.rs_PSA r) = length ProcessWithMatlab.period_grid /\
     (nth_error ProcessWithMatlab.period_grid i = Some T_ ->
      (keff === #0)%num || negb (isFinite keff) = true ->
      nth_error (ProcessWithMatlab.rs_SD r) i = Some #0%num /\
      nth_error (ProcessWithMatlab.rs_PSV r) i = Some #0%num /\
      nth_error (ProcessWithMatlab.rs_PSA r) i = Some #0%num)).
Proof.
  split.
  - intros this periods damping i T_ zeta dt nc grid keff r.
    unfold r, Analysis.calculateResponseSpectra. cbn [Analysis.rs_SD Analysis.rs_PSV Analysis.rs_PSA].
    fold zeta dt nc grid. rewrite !length_map.
    split; [reflexivity|]. split; [reflexivity|]. split; [reflexivity|].
    intros Hi Hg. repeat split.
    all: erewrite nth_error_map2 by eassumption.
    all: rewrite analysis_oscillator_guarded by assumption; reflexivity.
  - intros dampingRatio i T_ zeta nc keff r.
    unfold r, ProcessWithMatlab.calculateResponseSpectrum.
    cbn [ProcessWithMatlab.rs_SD ProcessWithMatlab.rs_PSV ProcessWithMatlab.rs_PSA].
    fold zeta nc. rewrite !length_map.
    split; [reflexivity|]. split; [reflexivity|]. split; [reflexivity|].
    intros Hi Hg. repeat split.
    all: erewrite nth_error_map2 by (rewrite nth_error_map, Hi; reflexivity).
    all: rewrite pwm_oscillator_guarded by assumption; reflexivity.
Qed.

Lemma spectrum_guard_emits_zero_witness :
  nth_error (Analysis.rs_SD
    (Analysis.calculateResponseSpectra (N:=Float64.number) Analysis.default_options
       [#0; #1]%num [#0; #0]%num (Some [#1]%num) None)) 0 = Some #0%num /\
  nth_error (ProcessWithMatlab.rs_SD
    (ProcessWithMatlab.calculateResponseSpectrum (N:=Float64.number)
       [#0; #1]%num [#0; #0]%num None)) 0 = Some #0%num.
Proof.
  destruct (spectrum_guard_emits_zero (N:=Float64.number) [#0; #1]%num [#0; #0]%num)
    as [Ha Hp].
  split.
  - destruct (Ha Analysis.default_options (Some [#1]%num) None 0 #1%num)
      as (_ & _ & _ & H).
    apply H; vm_compute; reflexivity.
  - destruct (Hp None 0 (dec 1 100)) as (_ & _ & _ & H).
    apply H; vm_compute; reflexivity.
Defined.

Section SpectrumExample.
Import PrimFloat.
Local Existing Instance Float64.number.

(** C6 as stated fails for processWithMatlab.js: with damping ratio -10 and
    dt = 0.01 the effective stiffness of the first period (T = 0.01) is
    finite and negative (about -2.08e6), the guard
    [keff === 0 || !isFinite(keff)] lets it through, and the entry of SD is
    about 4.8e-7, not 0. *)
Lemma spectrum_negative_stiffness_not_zero :
  let nc := ProcessWithMatlab.newmark (dec 1 100 - #0)%num in
  let keff := effective_stiffness (ProcessWithMatlab.a0 nc) (ProcessWithMatlab.a1 nc)
                                  #(-10)%num (#2 * Math_PI * (#1 / dec 1 100))%num in
  nth_error ProcessWithMatlab.period_grid 0 = Some (dec 1 100) /\
  keff = (-0x1.fb719f263563ep+20)%float /\
  isFinite keff = true /\
  (keff <=? #0)%num = true /\
  nth_error (ProcessWithMatlab.rs_SD
    (ProcessWithMatlab.calculateResponseSpectrum
       [#0; #1]%num [#0; dec 1 100]%num (Some #(-10)%num))) 0 =
    Some 0x1.024c6ce838e02p-21%float /\
  (0x1.024c6ce838e02p-21 =? 0)%float = false.
Proof. repeat split; vm_compute; reflexivity. Qed.

End SpectrumExample.

(** ** Newmark-Beta: the copies compared *)

Section NewmarkFacts.
Import PrimFloat.
Local Existing Instance Float64.number.

(** In binary64 the literals 0.25 and 0.5 of the analysis module are the
    defaults 1/4 and 1/2 of newmarkBeta. *)
Lemma newmark_defaults :
  (dec 25 100 : num) = (#1 / #4)%num /\ (dec 5 10 : num) = (#1 / #2)%num.
Proof. split; vm_compute; reflexivity. Qed.

Lemma analysis_timeIntegration_utils (acceleration : list num) (dt zeta T_ : num) :
  let nc := Analysis.newmark dt in
  let omega := (#2 * Math_PI / T_)%num in
  let r := Utils.newmarkBeta (newmark_params_of acceleration dt zeta T_) in
  Analysis.timeIntegration acceleration nc #1%num (damping_coefficient zeta omega)
    (effective_stiffness (Analysis.a0 nc) (Analysis.a1 nc) zeta omega) =
  (Utils.displacement r, Utils.velocity r, Utils.acceleration r).
Proof.
  intros nc omega r. unfold r, Utils.newmarkBeta, newmark_params_of.
  cbn [Utils.p_acceleration Utils.p_dt Utils.p_omega Utils.p_zeta Utils.p_beta Utils.p_gamma].
  cbv zeta.
  match goal with |- context [fold_left ?f ?l ?i] => set (F := fold_left f l i) end.
  assert (E : Analysis.timeIntegration acceleration nc #1%num
                (damping_coefficient zeta omega)
                (effective_stiffness (Analysis.a0 nc) (Analysis.a1 nc) zeta omega) = F)
    by reflexivity.
  rewrite E. destruct F as [[u v] acc]. reflexivity.
Qed.

(** C4 (as amended): calculateResponseSpectra of the analysis module and
    newmarkBeta of utils.js run the same recurrence.  For a period T whose
    effective stiffness passes the guard of the analysis module, the
    displacement, velocity and acceleration histories of that period are
    those that newmarkBeta returns for omega = 2 pi / T, and the entries of
    SD, PSV and PSA are their largest absolute values. *)
Theorem newmark_analysis_agrees_with_utils
  (this : Analysis.options) (acceleration time : list num)
  (periods : option (list num)) (damping : option num) (i : nat) (T_ : num) :
  let zeta := or_default damping (Analysis.dampingRatio this) in
  let dt := if (1 <? length time)%nat then (time.[1] - time.[0])%num else dec 1 100 in
  let nc := Analysis.newmark dt in
  let grid := match periods with Some p => p | None => Analysis.period_grid end in
  let omega := (#2 * Math_PI / T_)%num in
  let keff := effective_stiffness (Analysis.a0 nc) (Analysis.a1 nc) zeta omega in
  let r := Analysis.calculateResponseSpectra this acceleration time periods damping in
  let h := Utils.newmarkBeta (newmark_params_of acceleration dt zeta T_) in
  nth_error grid i = Some T_ ->
  negb (isFinite keff) || (keff <=? #0)%num = false ->
  Analysis.timeIntegration acceleration nc #1%num (damping_coefficient zeta omega) keff =
    (Utils.displacement h, Utils.velocity h, Utils.acceleration h) /\
  nth_error (Analysis.rs_SD r) i = Some (Math_max (map_num Math_abs (Utils.displacement h))) /\
  nth_error (Analysis.rs_PSV r) i = Some (Math_max (map_num Math_abs (Utils.velocity h))) /\
  nth_error (Analysis.rs_PSA r) i = Some (Math_max (map_num Math_abs (Utils.acceleration h))).
Proof.
  intros zeta dt nc grid omega keff r h Hi Hg.
  pose proof (analysis_timeIntegration_utils acceleration dt zeta T_) as E.
  cbv zeta in E. fold nc omega keff h in E.
  split; [exact E|].
  assert (Ho : Analysis.oscillator acceleration nc zeta T_ =
               {| Analysis.SD := Math_max (map_num Math_abs (Utils.displacement h));
                  Analysis.PSV := Math_max (map_num Math_abs (Utils.velocity h));
                  Analysis.PSA := Math_max (map_num Math_abs (Utils.acceleration h)) |}).
  { rewrite analysis_oscillator_eq. cbv zeta. fold omega. fold keff.
    rewrite Hg, E. reflexivity. }
  unfold r, Analysis.calculateResponseSpectra.
  cbn [Analysis.rs_SD Analysis.rs_PSV Analysis.rs_PSA]. fold zeta dt nc grid.
  repeat split.
  all: erewrite nth_error_map2 by eassumption.
  all: rewrite Ho; reflexivity.
Qed.

Lemma newmark_analysis_agrees_with_utils_witness :
  nth_error (Analysis.rs_PSV
    (Analysis.calculateResponseSpectra Analysis.default_options
       [#0; #1; #0]%num [#0; dec 1 100; dec 2 100]%num None None)) 0 =
  Some (Math_max (map_num Math_abs (Utils.velocity
    (Utils.newmarkBeta (newmark_params_of [#0; #1; #0]%num
       (dec 1 100 - #0)%num (dec 5 100) (dec 1 100)))))).
Proof.
  apply (@newmark_analysis_agrees_with_utils Analysis.default_options
           [#0; #1; #0]%num [#0; dec 1 100; dec 2 100]%num None None 0 (dec 1 100)).
  - vm_compute. reflexivity.
  - vm_compute. reflexivity.
Defined.

(** C4 as stated fails: calculateResponseSpectrum of processWithMatlab.js
    updates the velocity by [a1 * du - a4 * u[j-1] - a2 * v[j-1] - a5 * a[j-1]],
    the other two by [a1 * (du - u[j-1]) - a4 * v[j-1] - a5 * acc[j-1]].  For
    the ground acceleration [0, 1, 0] sampled at dt = 0.01, damping 0.05 and
    the first period of the grid (T = 0.01), the velocity histories differ
    in their third sample, and so do the entries of PSV.  It also updates the
    acceleration by [a0 * du - a0 * u[j-1] - ...] where the other two have
    [a0 * (du - u[j-1]) - ...]: the same number over the reals, another one
    after rounding.  For the third period (T = 0.05) the entries of PSA
    differ in their last bit. *)
Lemma newmark_copies_differ :
  snd (fst (ProcessWithMatlab.timeIntegration [#0; #1; #0]%num
              (ProcessWithMatlab.newmark (dec 1 100 - #0)%num) #1%num
              (damping_coefficient (dec 5 100) (#2 * Math_PI * (#1 / dec 1 100))%num)
              (effective_stiffness
                 (ProcessWithMatlab.a0 (ProcessWithMatlab.newmark (dec 1 100 - #0)%num))
                 (ProcessWithMatlab.a1 (ProcessWithMatlab.newmark (dec 1 100 - #0)%num))
                 (dec 5 100) (#2 * Math_PI * (#1 / dec 1 100))%num))) =
    [Some 0x0p+0; Some (-0x1.d4cb3bf0f2874p-12); Some 0x1.6ec9579703716p-3]%float /\
  Utils.velocity (Utils.newmarkBeta (newmark_params_of [#0; #1; #0]%num
                    (dec 1 100 - #0)%num (dec 5 100) (dec 1 100))) =
    [Some 0x0p+0; Some (-0x1.d4cb3bf0f2874p-12); Some 0x1.2f17fbc32800ep-10]%float /\
  nth_error (ProcessWithMatlab.rs_PSV
    (ProcessWithMatlab.calculateResponseSpectrum
       [#0; #1; #0]%num [#0; dec 1 100; dec 2 100]%num None)) 0 =
    Some 0x1.6ec9579703716p-3%float /\
  nth_error (Analysis.rs_PSV
    (Analysis.calculateResponseSpectra Analysis.default_options
       [#0; #1; #0]%num [#0; dec 1 100; dec 2 100]%num None None)) 0 =
    Some 0x1.2f17fbc32800ep-10%float /\
  (0x1.6ec9579703716p-3 =? 0x1.2f17fbc32800ep-10)%float = false /\
  nth_error (ProcessWithMatlab.rs_PSA
    (ProcessWithMatlab.calculateResponseSpectrum
       [#0; #1; #0]%num [#0; dec 1 100; dec 2 100]%num None)) 2 =
    Some 0x1.7d0abb10534b5p+0%float /\
  nth_error (Analysis.rs_PSA
    (Analysis.calculateResponseSpectra Analysis.default_options
       [#0; #1; #0]%num [#0; dec 1 100; dec 2 100]%num None None)) 2 =
    Some 0x1.7d0abb10534b4p+0%float /\
  (0x1.7d0abb10534b5p+0 =? 0x1.7d0abb10534b4p+0)%float = false.
Proof. repeat split; vm_compute; reflexivity. Qed.

End NewmarkFacts.

(** ** Site frequency *)

Section SiteFrequencyFacts.
Context {N : Number}.

Lemma first_index_of_shift (a : num) (l : list num) (v : num) i :
  (a === v)%num = false -> first_index_of l v i -> first_index_of (a :: l) v (S i).
Proof.
  intros Ha (b & Hb & Hbv & Hfirst). exists b. repeat split; auto.
  intros [|j] c Hj Hc; simpl in Hc.
  - congruence.
  - apply (Hfirst j c); [lia | exact Hc].
Qed.

Lemma indexOf_from_first (l : list num) (v : num) : forall k,
  (indexOf_from k l v = (-1)%Z /\ forall i, ~ first_index_of l v i) \/
  (exists i, indexOf_from k l v = Z.of_nat (k + i) /\ first_index_of l v i).
Proof.
  induction l as [|a t IH]; intros k; simpl.
  - left. split; [reflexivity|]. intros i (b & Hb & _). destruct i; discriminate.
  - destruct (a === v)%num eqn:E.
    + right. exists 0. rewrite Nat.add_0_r. split; [reflexivity|].
      exists a. repeat split; auto. intros j b Hj. lia.
    + destruct (IH (S k)) as [[Hm Hnone]|(i & Hi & Hfirst)].
      * left. split; [exact Hm|].
        intros [|i] (b & Hb & Hbv & Hfirst); simpl in Hb.
        -- congruence.
        -- apply (Hnone i). exists b. repeat split; auto.
           intros j c Hj Hc. apply (Hfirst (S j) c); [lia | exact Hc].
      * right. exists (S i). split.
        -- rewrite Hi. f_equal. lia.
        -- apply first_index_of_shift; assumption.
Qed.

Lemma first_index_of_unique (l : list num) (v : num) i j :
  first_index_of l v i -> first_index_of l v j -> i = j.
Proof.
  intros (a & Ha & Hav & Hfa) (b & Hb & Hbv & Hfb).
  destruct (Nat.lt_trichotomy i j) as [H|[H|H]]; [|assumption|].
  - rewrite (Hfb i a H Ha) in Hav. discriminate.
  - rewrite (Hfa j b H Hb) in Hbv. discriminate.
Qed.

(** [frequencies[magnitudes.indexOf(Math.max(...magnitudes))]] *)
Lemma reported_frequency (magnitudes : list num) (n : nat) (f : nat -> num) i :
  length magnitudes = n ->
  first_index_of magnitudes (Math_max magnitudes) i ->
  at_Z (tabulate n f) (indexOf magnitudes (Math_max magnitudes)) = Some (f i).
Proof.
  intros Hlen Hfirst. unfold indexOf.
  destruct (indexOf_from_first magnitudes (Math_max magnitudes) 0)
    as [[_ Hnone]|(j & Hj & Hfj)].
  - exfalso. exact (Hnone i Hfirst).
  - rewrite Hj. assert (j = i) by (eapply first_index_of_unique; eassumption). subst j.
    unfold at_Z. simpl Nat.add.
    destruct (Z.ltb_spec (Z.of_nat i) 0); [lia|]. rewrite Nat2Z.id.
    unfold tabulate. rewrite nth_error_map.
    destruct Hfirst as (a & Ha & _).
    assert (Hi : i < n) by (rewrite <- Hlen; apply nth_error_Some; congruence).
    rewrite (nth_error_nth' (seq 0 n) 0) by (rewrite length_seq; lia).
    rewrite seq_nth by lia. reflexivity.
Qed.

Lemma dense_firstn {A} (a : jsarray A) n : dense a -> dense (firstn n a).
Proof.
  intros H. unfold dense in *. rewrite <- (firstn_skipn n a) in H.
  apply Forall_app in H. exact (proj1 H).
Qed.

End SiteFrequencyFacts.

(** C9 (as amended): findSiteFrequency takes the amplitudes |FFT[i]| of the
    bins 0 .. floor(N/2) - 1 only (the slice stops before the bin N/2), and
    reports the frequency i fs / N of the first of these bins whose amplitude
    is the maximum.  N is the length of the transform in processWithMatlab.js
    and the length of the input in earthquakeAnalysis.js. *)
Theorem site_frequency_first_maximum {N : Number} {T : Trig N}
  (acceleration : list num) (fs : num) :
  (exists fftResult r,
     ProcessWithMatlab.fft acceleration = Ok fftResult /\
     ProcessWithMatlab.findSiteFrequency acceleration fs = Ok r /\
     map_obj (fun x _ => amplitude x) (firstn (length fftResult / 2) fftResult) =
       Ok (ProcessWithMatlab.magnitudes r) /\
     length (ProcessWithMatlab.magnitudes r) = length fftResult / 2 /\
     forall i,
       first_index_of (ProcessWithMatlab.magnitudes r)
                      (Math_max (ProcessWithMatlab.magnitudes r)) i ->
       ProcessWithMatlab.frequency r =
         Some (of_nat i * fs / of_nat (length fftResult))%num) /\
  (exists fftResult r,
     Gui.fft acceleration = Ok fftResult /\
     Gui.findSiteFrequency acceleration fs = Ok r /\
     map_obj (fun x _ => amplitude x) (firstn (length acceleration / 2) fftResult) =
       Ok (Gui.amplitudes r) /\
     length (Gui.amplitudes r) = length acceleration / 2 /\
     forall i,
       first_index_of (Gui.amplitudes r) (Math_max (Gui.amplitudes r)) i ->
       Gui.frequency r = Some (of_nat i * fs / of_nat (length acceleration))%num).
Proof.
  split.
  - destruct (pwm_fft_ok acceleration) as (fftResult & Hfft & Hlen & Hd).
    destruct (map_obj_ok (fun x (_ : nat) => amplitude x)
                (dense_firstn (length fftResult / 2) Hd)) as (mags & Hm & Hml).
    rewrite length_firstn in Hml.
    assert (Hhalf : length fftResult / 2 <= length fftResult)
      by (apply Nat.Div0.div_le_upper_bound; lia).
    exists fftResult. eexists. split; [exact Hfft|].
    unfold ProcessWithMatlab.findSiteFrequency. rewrite Hfft. cbn [bind].
    change (map_obj (fun x (_ : nat) => Math_sqrt (real x * real x + imag x * imag x)%num)
                    (firstn (length fftResult / 2) fftResult))
      with (map_obj (fun x (_ : nat) => amplitude x)
                    (firstn (length fftResult / 2) fftResult)).
    rewrite Hm. cbn [bind]. split; [reflexivity|]. cbn [ProcessWithMatlab.magnitudes
      ProcessWithMatlab.frequency]. split; [reflexivity|]. split; [lia|].
    intros i Hi.
    apply (@reported_frequency _ mags _
             (fun i => (of_nat i * fs / of_nat (length fftResult))%num) i);
      [lia | exact Hi].
  - destruct (gui_fft_ok acceleration) as (fftResult & Hfft & Hlen & Hd).
    destruct (map_obj_ok (fun x (_ : nat) => amplitude x)
                (dense_firstn (length acceleration / 2) Hd)) as (amps & Hm & Hml).
    rewrite length_firstn in Hml.
    assert (Hhalf : length acceleration / 2 <= length acceleration)
      by (apply Nat.Div0.div_le_upper_bound; lia).
    pose proof (padded_length_ge (length acceleration)) as Hge.
    exists fftResult. eexists. split; [exact Hfft|].
    unfold Gui.findSiteFrequency. rewrite Hfft. cbn [bind].
    change (map_obj (fun x (_ : nat) => Math_sqrt (real x * real x + imag x * imag x)%num)
                    (firstn (length acceleration / 2) fftResult))
      with (map_obj (fun x (_ : nat) => amplitude x)
                    (firstn (length acceleration / 2) fftResult)).
    rewrite Hm. cbn [bind]. split; [reflexivity|]. cbn [Gui.amplitudes Gui.frequency].
    split; [reflexivity|]. split; [lia|].
    intros i Hi.
    apply (@reported_frequency _ amps _
             (fun i => (of_nat i * fs / of_nat (length acceleration))%num) i);
      [lia | exact Hi].
Qed.

Lemma Some_eq_inv {A} (a b : A) : Some a = Some b -> a = b.
Proof. intros H. injection H. auto. Qed.

Section SiteFrequencyExample.
Import PrimFloat.
Local Existing Instance Float64.number.

(** the transform of [1, -1], for any host whose cosine and sine take the
    values that ECMAScript fixes at -0 *)
Lemma pwm_fft_alternating (T : Trig Float64.number) :
  conforming T ->
  ProcessWithMatlab.fft [#1; #(-1)]%num =
  Ok [Some {| real := 0; imag := 0 |}; Some {| real := 2; imag := 0 |}]%float.
Proof.
  destruct T as [c s]. intros [Hc Hs]. cbv in Hc, Hs.
  cbv. rewrite Hc, Hs. vm_compute. reflexivity.
Qed.

(** C9 as stated fails: for the series [1, -1] sampled at 2 Hz the spectrum
    is [0, 2], so the largest amplitude among the bins 0 .. N/2 is in bin
    N/2 = 1, at 1 Hz; findSiteFrequency searches bin 0 alone and reports
    0 Hz.  This holds for every host cosine and sine that ECMAScript allows. *)
Lemma site_frequency_skips_nyquist_bin :
  ~ exists T : Trig Float64.number,
      conforming T /\
      forall fftResult amps r i,
        ProcessWithMatlab.fft [#1; #(-1)]%num = Ok fftResult ->
        half_spectrum_inclusive fftResult = Ok amps ->
        ProcessWithMatlab.findSiteFrequency [#1; #(-1)]%num #2%num = Ok r ->
        first_index_of amps (Math_max amps) i ->
        ProcessWithMatlab.frequency r =
          Some (of_nat i * #2 / of_nat (length fftResult))%num.
Proof.
  intros (T & Hc & H).
  pose proof (pwm_fft_alternating Hc) as Efft.
  assert (Er : ProcessWithMatlab.findSiteFrequency [#1; #(-1)]%num #2%num =
               Ok {| ProcessWithMatlab.frequency := Some 0%float;
                     ProcessWithMatlab.magnitude := Some 0%float;
                     ProcessWithMatlab.frequencies := [0%float];
                     ProcessWithMatlab.magnitudes := [0%float] |}).
  { unfold ProcessWithMatlab.findSiteFrequency. rewrite Efft. vm_compute. reflexivity. }
  assert (Ea : half_spectrum_inclusive
                 [Some {| real := 0; imag := 0 |}; Some {| real := 2; imag := 0 |}]%float =
               Ok [0; 2]%float) by (vm_compute; reflexivity).
  assert (Hfirst : first_index_of [0; 2]%float (Math_max [0; 2]%float) 1).
  { exists 2%float. split; [reflexivity|]. split; [vm_compute; reflexivity|].
    intros j b Hj Hb. assert (j = 0)%nat by lia. subst j. simpl in Hb.
    apply Some_eq_inv in Hb. subst b. vm_compute. reflexivity. }
  specialize (H _ _ _ 1%nat Efft Ea Er Hfirst).
  cbn [ProcessWithMatlab.frequency] in H. apply Some_eq_inv in H.
  apply (f_equal (fun x => eqb x 0%float)) in H. vm_compute in H. discriminate.
Qed.

End SiteFrequencyExample.

Section SiteFrequencyExact.
Import Exact Cplx.
Local Open Scope R_scope.

(** the transform of [1, 1] in exact arithmetic *)
Lemma exact_pwm_fft_pair :
  @ProcessWithMatlab.fft Exact.number exact_trig [Fin 1; Fin 1] =
  Ok [Some (embed (Cadd (1, 0) (Cmul Cone (1, 0))));
      Some (embed (Csub (1, 0) (Cmul Cone (1, 0))))].
Proof.
  unfold ProcessWithMatlab.fft, ProcessWithMatlab._fftRecursive.
  cbn [length Nat.leb]. change (nextPow2 2) with 2%nat.
  cbn [Nat.sub repeat app map].
  change [@Complex Exact.number (Fin 1) (of_Z 0); @Complex Exact.number (Fin 1) (of_Z 0)]
    with (tabulate (2 ^ 1) (fun k : nat => embed (1, 0))).
  rewrite exact_fftRecursive.
  cbn [tabulate seq map Nat.pow Nat.mul Nat.add].
  rewrite !transform_S. cbn [transform Nat.pow Nat.ltb Nat.leb Nat.sub Nat.mul Nat.add].
  rewrite root_zero. reflexivity.
Qed.

Lemma site_frequency_first_maximum_witness :
  exists r,
    @ProcessWithMatlab.findSiteFrequency Exact.number exact_trig
       [Fin 1; Fin 1] (Fin 2) = Ok r /\
    ProcessWithMatlab.frequency r = Some (xdiv (xmul (Fin 0) (Fin 2)) (Fin 2)).
Proof.
  destruct (@site_frequency_first_maximum Exact.number exact_trig [Fin 1; Fin 1] (Fin 2))
    as [(fftResult & r & Hfft & Hr & Hm & _ & H) _].
  exists r. split; [exact Hr|].
  rewrite exact_pwm_fft_pair in Hfft. injection Hfft as <-.
  cbn [length Nat.div Nat.divmod fst firstn map_obj map_obj_from obj bind] in Hm, H.
  injection Hm as Hm. rewrite <- Hm in H.
  apply (H 0%nat). clear H Hm Hr.
  unfold first_index_of, amplitude, embed, Cadd, Csub, Cmul, Cone, Math_max.
  cbn [fst snd real imag js_add js_mul Math_sqrt number xadd xmul xsqrt nth_error fold_left].
  destruct (Rlt_dec _ 0) as [Hneg|_].
  - exfalso. revert Hneg. apply Rle_not_lt. nra.
  - eexists. split; [reflexivity|]. split.
    + cbn. destruct (Req_dec_T _ _) as [_|Hne]; [reflexivity | congruence].
    + intros j b Hj. lia.
Defined.

End SiteFrequencyExact.

(** ** Arias intensity *)

Section AriasFacts.
Context {N : Number}.

Lemma js_store_end {A} (a : jsarray A) (o : option A) :
  js_store (length a) o a = a ++ [o].
Proof. induction a as [|h t IH]; simpl; [reflexivity | rewrite IH; reflexivity]. Qed.

Lemma hole_at_map (f : nat -> num) n k :
  k < n -> hole_at (map (fun k => Some (f k)) (seq 0 n)) k = f k.
Proof.
  intros Hk. unfold hole_at, js_get. rewrite nth_error_map.
  rewrite (nth_error_nth' (seq 0 n) 0) by (rewrite length_seq; lia).
  rewrite seq_nth by lia. reflexivity.
Qed.

(** the array that cumtrapz of processWithMatlab.js returns *)
Lemma pwm_cumtrapz_eq (time data : list num) :
  length time = length data ->
  ProcessWithMatlab.cumtrapz time data =
  Ok (map (fun k => Some (trapezoid_sum time data k)) (seq 0 (Nat.max 1 (length data)))).
Proof.
  intros H. unfold ProcessWithMatlab.cumtrapz. rewrite H, Nat.eqb_refl. cbn [negb].
  f_equal.
  assert (Hloop : forall c,
    fold_left (fun integrated i =>
                 js_set i (integrated.{i - 1} +
                           dec 5 10 * (data.[i] + data.[i - 1]) *
                           (time.[i] - time.[i - 1]))%num integrated)
              (seq 1 c) [Some #0%num] =
    map (fun k => Some (trapezoid_sum time data k)) (seq 0 (S c))).
  { induction c as [|c IH]; [reflexivity|].
    rewrite seq_S, fold_left_app, IH. cbn [fold_left].
    replace (1 + c - 1) with c by lia.
    rewrite hole_at_map by lia.
    unfold js_set.
    replace (1 + c) with (length (map (fun k => Some (trapezoid_sum time data k))
                                      (seq 0 (S c)))) at 1
      by (rewrite length_map, length_seq; lia).
    rewrite js_store_end.
    rewrite (seq_S (S c)), map_app. reflexivity. }
  rewrite Hloop. f_equal. f_equal. lia.
Qed.

Lemma js_store_middle {A} (a t : jsarray A) (h o : option A) :
  js_store (length a) o (a ++ h :: t) = a ++ o :: t.
Proof. induction a as [|x a IH]; simpl; [reflexivity | rewrite IH; reflexivity]. Qed.

Lemma hole_at_prefix (f : nat -> num) (t : jsarray num) n k :
  k < n -> hole_at (map (fun k => Some (f k)) (seq 0 n) ++ t) k = f k.
Proof.
  intros Hk. unfold hole_at, js_get.
  rewrite nth_error_app1 by (rewrite length_map, length_seq; lia).
  rewrite nth_error_map.
  rewrite (nth_error_nth' (seq 0 n) 0) by (rewrite length_seq; lia).
  rewrite seq_nth by lia. reflexivity.
Qed.

(** the number that trapz of utils.js returns *)
Lemma utils_trapz_eq (x y : list num) :
  length x = length y -> 2 <= length x ->
  Utils.trapz x y = Ok (trapezoid_sum_utils x y (length x - 1)).
Proof.
  intros H H2. unfold Utils.trapz. rewrite H, Nat.eqb_refl. cbn [negb orb].
  destruct (Nat.ltb_spec (length y) 2) as [|_]; [lia|]. f_equal.
  generalize (length y - 1). intros c.
  induction c as [|c IH]; [reflexivity|].
  rewrite seq_S, fold_left_app, IH. cbn [fold_left trapezoid_sum_utils].
  replace (1 + c - 1) with c by lia. reflexivity.
Qed.

(** the array that cumtrapz of utils.js returns *)
Lemma utils_cumtrapz_eq (x y : list num) :
  length x = length y ->
  Utils.cumtrapz x y =
  Ok (map (fun k => Some (trapezoid_sum_utils x y k)) (seq 0 (Nat.max 1 (length x)))).
Proof.
  intros H. unfold Utils.cumtrapz. rewrite H, Nat.eqb_refl. cbn [negb].
  f_equal.
  destruct (length y) as [|n]; [reflexivity|].
  replace (S n - 1) with n by lia.
  assert (Hloop : forall c, c <= n ->
    fold_left (fun result i =>
                 js_set i (result.{i - 1} + (x.[i] - x.[i - 1]) *
                                            ((y.[i] + y.[i - 1]) / #2))%num result)
              (seq 1 c) (js_set 0 #0%num (new_Array (S n))) =
    map (fun k => Some (trapezoid_sum_utils x y k)) (seq 0 (S c)) ++ repeat None (n - c)).
  { induction c as [|c IH]; intros Hc.
    - rewrite Nat.sub_0_r. reflexivity.
    - rewrite seq_S, fold_left_app, IH by lia. cbn [fold_left].
      replace (1 + c - 1) with c by lia.
      rewrite hole_at_prefix by lia.
      replace (n - c) with (S (n - S c)) by lia. cbn [repeat].
      unfold js_set.
      replace (1 + c) with (length (map (fun k => Some (trapezoid_sum_utils x y k))
                                        (seq 0 (S c)))) at 1
        by (rewrite length_map, length_seq; lia).
      rewrite js_store_middle.
      rewrite (seq_S (S c)), map_app, <- app_assoc. reflexivity. }
  rewrite (Hloop n) by lia. rewrite Nat.sub_diag, app_nil_r.
  f_equal.
Qed.

End AriasFacts.

Section AriasExact.
Import Exact.
Local Open Scope R_scope.

Lemma exact_at (ts : list R) (k : nat) :
  (k < length ts)%nat -> at_ (N:=Exact.number) (map Fin ts) k = Fin (nth k ts 0).
Proof.
  intros Hk. unfold at_. rewrite nth_error_map.
  rewrite (nth_error_nth' ts 0) by assumption. reflexivity.
Qed.

Lemma exact_at_repeat (s : R) (n k : nat) :
  (k < n)%nat -> at_ (N:=Exact.number) (repeat (Fin s) n) k = Fin s.
Proof.
  intros Hk. unfold at_.
  rewrite (nth_error_nth' (repeat (Fin s) n) (Fin s)) by (rewrite repeat_length; assumption).
  rewrite nth_repeat. reflexivity.
Qed.

Lemma exact_dec (n d : Z) :
  IZR d <> 0 -> dec (N:=Exact.number) n d = Fin (IZR n / IZR d).
Proof.
  intros Hd. unfold dec. cbn. destruct (Req_dec_T (IZR d) 0); [contradiction | reflexivity].
Qed.

Lemma exact_div (a b : R) :
  b <> 0 -> js_div (Number:=Exact.number) (Fin a) (Fin b) = Fin (a / b).
Proof. intros Hb. cbn. destruct (Req_dec_T b 0); [contradiction | reflexivity]. Qed.

(** the integral of a constant s over the time samples, in exact arithmetic *)
Lemma exact_trapezoid_constant (ts : list R) (s : R) (k : nat) :
  (k < length ts)%nat ->
  trapezoid_sum (N:=Exact.number) (map Fin ts) (repeat (Fin s) (length ts)) k =
  Fin (s * (nth k ts 0 - nth 0 ts 0)).
Proof.
  induction k as [|j IH]; intros Hk.
  - cbn. f_equal. ring.
  - cbn [trapezoid_sum]. rewrite IH by lia.
    rewrite !exact_at, !exact_at_repeat by lia.
    rewrite exact_dec by lra. cbn. f_equal. field.
Qed.

Lemma at_map_seq {N : Number} (f : nat -> num) (n k : nat) :
  (k < n)%nat -> at_ (map f (seq 0 n)) k = f k.
Proof.
  intros Hk. unfold at_. rewrite nth_error_map.
  rewrite (nth_error_nth' (seq 0 n) 0%nat) by (rewrite length_seq; lia).
  rewrite seq_nth by lia. reflexivity.
Qed.

Lemma map_num_map {N : Number} {B} (f : num -> B) (g : nat -> num) (l : list nat) :
  map_num f (map (fun k => Some (g k)) l) = map (fun k => f (g k)) l.
Proof. unfold map_num. rewrite map_map. reflexivity. Qed.

(** what calculateAriasIntensity of processWithMatlab.js returns, in terms of
    the recurrence of the integrator *)
Lemma pwm_arias_eq {N : Number} (time acceleration : list num) :
  length time = length acceleration ->
  let accSquared := map (fun a => (a * a)%num) (map (fun a => (a / #100)%num) acceleration) in
  let total := ((Math_PI / (#2 * ProcessWithMatlab.gravitationalAccel)) *
                trapezoid_sum time accSquared (Nat.max 1 (length acceleration) - 1))%num in
  exists r, ProcessWithMatlab.calculateAriasIntensity time acceleration = Ok r /\
            ProcessWithMatlab.totalMeterUnits r = total /\
            ProcessWithMatlab.total r = (total * #100)%num.
Proof.
  intros Hlen accSquared total. unfold ProcessWithMatlab.calculateAriasIntensity.
  fold accSquared.
  assert (Hl : length time = length accSquared)
    by (unfold accSquared; rewrite !length_map; exact Hlen).
  rewrite (pwm_cumtrapz_eq time accSquared Hl). cbn [bind].
  rewrite map_num_map, length_map, length_seq.
  assert (Hn : length accSquared = length acceleration)
    by (unfold accSquared; rewrite !length_map; reflexivity).
  rewrite Hn.
  rewrite (at_map_seq (fun k => (Math_PI / (#2 * ProcessWithMatlab.gravitationalAccel) *
                                 trapezoid_sum time accSquared k)%num)) by lia.
  eexists. split; [reflexivity|]. split; reflexivity.
Qed.

Lemma nth_pred_length_last {A} (l : list A) (d : A) :
  nth (length l - 1) l d = last l d.
Proof.
  induction l as [|a [|b t] IH]; try reflexivity.
  replace (length (a :: b :: t) - 1)%nat with (S (length (b :: t) - 1))
    by (simpl; lia).
  change (nth (length (b :: t) - 1) (b :: t) d = last (b :: t) d).
  exact IH.
Qed.

(** In exact arithmetic: for a constant acceleration a (in cm/s^2) over the
    time samples ts, totalMeterUnits is (pi / (2 g)) (a/100)^2 T, with
    T = last ts - first ts and g = 9.81, and total is 100 times that. *)
Lemma exact_arias_constant (ts : list R) (a : R) :
  ts <> [] ->
  exists r,
    ProcessWithMatlab.calculateAriasIntensity (N:=Exact.number)
      (map Fin ts) (repeat (Fin a) (length ts)) = Ok r /\
    ProcessWithMatlab.totalMeterUnits r =
      Fin (PI / (2 * (981 / 100)) * (a / 100 * (a / 100)) * (last ts 0 - hd 0 ts)) /\
    ProcessWithMatlab.total r =
      Fin (100 * (PI / (2 * (981 / 100)) * (a / 100 * (a / 100)) * (last ts 0 - hd 0 ts))).
Proof.
  intros Hne.
  assert (Hpos : (1 <= length ts)%nat) by (destruct ts; [congruence | simpl; lia]).
  destruct (pwm_arias_eq (N:=Exact.number) (map Fin ts) (repeat (Fin a) (length ts)))
    as (r & Hr & Hm & Ht).
  { rewrite length_map, repeat_length. reflexivity. }
  exists r. split; [exact Hr|].
  assert (Esq : map (fun x : num => (x * x)%num)
                    (map (fun x : num => (x / #100)%num) (repeat (Fin a) (length ts))) =
                repeat (Fin (a / 100 * (a / 100))) (length ts)).
  { rewrite !map_repeat. f_equal. change (#100%num) with (Fin 100).
    rewrite exact_div by lra. reflexivity. }
  assert (Etot : ProcessWithMatlab.totalMeterUnits r =
                 Fin (PI / (2 * (981 / 100)) * (a / 100 * (a / 100)) * (last ts 0 - hd 0 ts))).
  { rewrite Hm, Esq, repeat_length.
    replace (Nat.max 1 (length ts) - 1)%nat with (length ts - 1)%nat by lia.
    rewrite exact_trapezoid_constant by lia.
    rewrite nth_pred_length_last.
    replace (nth 0 ts 0) with (hd 0 ts) by (destruct ts; reflexivity).
    unfold ProcessWithMatlab.gravitationalAccel. rewrite exact_dec by lra.
    cbn. destruct (Req_dec_T (2 * (981 / 100)) 0) as [E|_]; [exfalso; lra|].
    cbn. f_equal. ring. }
  split; [exact Etot|].
  rewrite Ht, <- Hm, Etot. cbn. f_equal. ring.
Qed.

Lemma exact_trapezoid_utils_constant (ts : list R) (s : R) (k : nat) :
  (k < length ts)%nat ->
  trapezoid_sum_utils (N:=Exact.number) (map Fin ts) (repeat (Fin s) (length ts)) k =
  Fin (s * (nth k ts 0 - nth 0 ts 0)).
Proof.
  induction k as [|j IH]; intros Hk.
  - cbn. f_equal. ring.
  - cbn [trapezoid_sum_utils]. rewrite IH by lia.
    rewrite !exact_at, !exact_at_repeat by lia.
    cbn. destruct (Req_dec_T 2 0) as [E|_]; [exfalso; lra|].
    cbn. f_equal. field.
Qed.

(** the same closed form for calculateAriasIntensity of the analysis module,
    which needs at least two samples: ariasIntensity is
    100 (pi / (2 g)) (a/100)^2 T *)
Lemma exact_arias_constant_analysis (ts : list R) (a : R) :
  (2 <= length ts)%nat ->
  exists r,
    Analysis.calculateAriasIntensity (N:=Exact.number) Analysis.default_options
      (repeat (Fin a) (length ts)) (map Fin ts) = Ok r /\
    Analysis.ariasIntensity r =
      Fin (100 * (PI / (2 * (981 / 100)) * (a / 100 * (a / 100)) * (last ts 0 - hd 0 ts))).
Proof.
  intros H2. unfold Analysis.calculateAriasIntensity.
  assert (Esq : map (fun x : num => (x * x)%num)
                    (map (fun x : num => (x / #100)%num) (repeat (Fin a) (length ts))) =
                repeat (Fin (a / 100 * (a / 100))) (length ts)).
  { rewrite !map_repeat. f_equal. change (#100%num) with (Fin 100).
    rewrite exact_div by lra. reflexivity. }
  rewrite Esq.
  rewrite utils_trapz_eq, utils_cumtrapz_eq;
    rewrite ?length_map, ?repeat_length; try reflexivity; try assumption.
  cbn [bind]. eexists. split; [reflexivity|]. cbn [Analysis.ariasIntensity].
  rewrite exact_trapezoid_utils_constant by lia.
  rewrite nth_pred_length_last.
  replace (nth 0 ts 0) with (hd 0 ts) by (destruct ts; reflexivity).
  cbn [Analysis.gravityConstant Analysis.default_options].
  rewrite exact_dec by lra.
  cbn. destruct (Req_dec_T (2 * (981 / 100)) 0) as [E|_]; [exfalso; lra|].
  cbn. f_equal. ring.
Qed.

End AriasExact.

Section AriasBinary64.
Import PrimFloat SpecFloat FloatOps FloatAxioms.
Local Existing Instance Float64.number.

Lemma Prim2SF_finite (x : float) :
  is_finite x = true ->
  (exists s, Prim2SF x = S754_zero s) \/ (exists s m e, Prim2SF x = S754_finite s m e).
Proof.
  unfold is_finite. intros H. apply negb_true_iff, orb_false_iff in H.
  destruct H as [Hn Hi]. unfold Prim2SF. rewrite Hn, Hi.
  destruct (is_zero x); [left; eauto|].
  destruct (Z.frexp x) as [r e].
  destruct (shr_fexp prec emax (Uint63.to_Z (normfr_mantissa r)) (e - prec) loc_Exact)
    as [shr e'].
  destruct (shr_m shr); [left | right | left]; eauto.
Qed.

(** adding the area of a trapezoid of height zero and finite width to +0 *)
Lemma zero_plus_zero_area (dt : float) :
  is_finite dt = true -> (zero + zero * dt)%float = zero.
Proof.
  intros H. rewrite <- (SF2Prim_Prim2SF (zero + zero * dt)).
  rewrite add_spec, mul_spec.
  change (Prim2SF zero) with (S754_zero false).
  destruct (Prim2SF_finite dt H) as [[s ->]|(s & m & e & ->)];
    destruct s; reflexivity.
Qed.

Lemma at_repeat {N : Number} (v : num) (n k : nat) :
  k < n -> at_ (repeat v n) k = v.
Proof.
  intros Hk. unfold at_.
  rewrite (nth_error_nth' (repeat v n) v) by (rewrite repeat_length; assumption).
  rewrite nth_repeat. reflexivity.
Qed.

Lemma binary64_trapezoid_zero (time : list num) (k : nat) :
  (forall i, 1 <= i < length time -> isFinite (time.[i] - time.[i - 1])%num = true) ->
  k < length time ->
  trapezoid_sum time (repeat #0%num (length time)) k = #0%num.
Proof.
  intros Hfin. induction k as [|j IH]; intros Hk; [reflexivity|].
  change (trapezoid_sum time (repeat #0%num (length time)) (S j))
    with (trapezoid_sum time (repeat #0%num (length time)) j +
          dec 5 10 * ((repeat #0 (length time)).[S j] + (repeat #0 (length time)).[j]) *
          (time.[S j] - time.[j]))%num.
  rewrite IH by lia. rewrite !(at_repeat (N:=Float64.number)) by lia.
  change (dec 5 10 * (#0 + #0))%num with (#0%num).
  apply zero_plus_zero_area.
  specialize (Hfin (S j)). replace (S j - 1) with j in Hfin by lia.
  apply Hfin. lia.
Qed.

(** In binary64: the Arias intensity of an all-zero acceleration is 0,
    provided no step of the time array is infinite or NaN. *)
Lemma binary64_arias_zero (time : list num) :
  (forall i, 1 <= i < length time -> isFinite (time.[i] - time.[i - 1])%num = true) ->
  exists r,
    ProcessWithMatlab.calculateAriasIntensity time (repeat #0%num (length time)) = Ok r /\
    ProcessWithMatlab.total r = #0%num /\
    ProcessWithMatlab.totalMeterUnits r = #0%num.
Proof.
  intros Hfin.
  destruct (pwm_arias_eq time (repeat #0%num (length time))) as (r & Hr & Hm & Ht).
  { rewrite repeat_length. reflexivity. }
  exists r. split; [exact Hr|].
  rewrite !map_repeat, repeat_length in Hm, Ht.
  change ((#0 / #100) * (#0 / #100))%num with (#0%num) in Hm, Ht.
  assert (E : trapezoid_sum time (repeat #0%num (length time))
                            (Nat.max 1 (length time) - 1) = #0%num).
  { destruct (Nat.eq_dec (length time) 0) as [E0|E0].
    - rewrite E0. reflexivity.
    - apply binary64_trapezoid_zero; [exact Hfin | lia]. }
  rewrite E in Hm, Ht. rewrite Hm, Ht. split; vm_compute; reflexivity.
Qed.

End AriasBinary64.

(** C8 (as amended): in exact arithmetic, for a constant acceleration a
    (in cm/s^2) over time samples of total duration T, the Arias intensity
    in metre units is (pi / (2 g)) (a/100)^2 T with g = 9.81, and the
    reported total is 100 times that, that is (pi / (2 g)) a^2 T / 100; for
    a = 0 this is 0.  In binary64 the total of an all-zero acceleration is
    exactly 0 whenever no step of the time array is infinite or NaN. *)
Theorem arias_intensity_closed_form :
  (forall (ts : list R) (a : R), ts <> [] ->
   exists r,
     ProcessWithMatlab.calculateAriasIntensity (N:=Exact.number)
       (map Exact.Fin ts) (repeat (Exact.Fin a) (length ts)) = Ok r /\
     ProcessWithMatlab.totalMeterUnits r =
       Exact.Fin (PI / (2 * (981 / 100)) * (a / 100 * (a / 100)) * (last ts 0 - hd 0 ts))%R /\
     ProcessWithMatlab.total r =
       Exact.Fin (100 * (PI / (2 * (981 / 100)) * (a / 100 * (a / 100)) *
                         (last ts 0 - hd 0 ts)))%R) /\
  (forall (ts : list R) (a : R), 2 <= length ts ->
   exists r,
     Analysis.calculateAriasIntensity (N:=Exact.number) Analysis.default_options
       (repeat (Exact.Fin a) (length ts)) (map Exact.Fin ts) = Ok r /\
     Analysis.ariasIntensity r =
       Exact.Fin (100 * (PI / (2 * (981 / 100)) * (a / 100 * (a / 100)) *
                         (last ts 0 - hd 0 ts)))%R) /\
  (forall time : list (@num Float64.number),
   (forall i, 1 <= i < length time -> isFinite (time.[i] - time.[i - 1])%num = true) ->
   exists r,
     ProcessWithMatlab.calculateAriasIntensity time (repeat #0%num (length time)) = Ok r /\
     ProcessWithMatlab.total r = #0%num /\
     ProcessWithMatlab.totalMeterUnits r = #0%num).
Proof.
  split; [exact exact_arias_constant|].
  split; [exact exact_arias_constant_analysis|].
  exact binary64_arias_zero.
Qed.

Lemma arias_intensity_closed_form_witness :
  exists r,
    ProcessWithMatlab.calculateAriasIntensity (N:=Exact.number)
      [Exact.Fin 0; Exact.Fin 1] [Exact.Fin 100; Exact.Fin 100] = Ok r /\
    ProcessWithMatlab.total r =
      Exact.Fin (100 * (PI / (2 * (981 / 100)) * (100 / 100 * (100 / 100)) * (1 - 0)))%R.
Proof.
  destruct (proj1 arias_intensity_closed_form [0; 1]%R 100%R) as (r & Hr & _ & Ht).
  - discriminate.
  - exists r. split; [exact Hr | exact Ht].
Defined.

Section AriasExample.
Import PrimFloat.
Local Existing Instance Float64.number.

(** C8 as stated fails: for the constant acceleration 100 cm/s^2 (1 m/s^2)
    over the time samples [0, 1], the reported total is 100 pi / (2 g),
    about 16.01.  It is neither (pi / (2 g)) a^2 T with a = 100 (about
    1601.2) nor with a = 1 (about 0.1601, the value of totalMeterUnits). *)
Lemma arias_total_is_rescaled :
  ProcessWithMatlab.calculateAriasIntensity [#0; #1]%num [#100; #100]%num =
    Ok {| ProcessWithMatlab.total := 0x1.0031f35afbdbdp+4;
          ProcessWithMatlab.cumulative := [0x0p+0; 0x1.0031f35afbdbdp+4];
          ProcessWithMatlab.totalMeterUnits := 0x1.47ee044b7fd1bp-3 |}%float /\
  (Math_PI / (#2 * dec 981 100) * (#100 * #100) * #1)%num = 0x1.904e0c3e29877p+10%float /\
  (Math_PI / (#2 * dec 981 100) * (#1 * #1) * #1)%num = 0x1.47ee044b7fd1bp-3%float /\
  (0x1.0031f35afbdbdp+4 =? 0x1.904e0c3e29877p+10)%float = false /\
  (0x1.0031f35afbdbdp+4 =? 0x1.47ee044b7fd1bp-3)%float = false.
Proof. repeat split; vm_compute; reflexivity. Qed.

End AriasExample.

(** * Further properties of the code *)

(** ** fftRecursive and the inverse transforms *)

Section InverseEntryPoints.
Context {N : Number} {T : Trig N}.

Lemma filters_ifft_ok (X : list complex) :
  length X <= 1 \/ Pow2 (length X) ->
  exists l, Filters.ifft X = Ok l /\ length l = length X.
Proof.
  intros HX. unfold Filters.ifft, Filters.fftRecursive.
  match goal with |- context [Radix2.fftRecursive ?y] =>
    destruct (@fftRecursive_ok _ _ y) as (r & -> & Hl & Hd)
  end.
  { rewrite length_map. exact HX. }
  cbn [bind]. rewrite length_map in Hl.
  match goal with |- context [map_obj ?f r] =>
    destruct (map_obj_ok f Hd) as (l & -> & Hll)
  end.
  exists l. split; [reflexivity | congruence].
Qed.

Lemma pwm_ifft_throws (X : list complex) :
  1 < length X -> ~ Pow2 (length X) -> ProcessWithMatlab.ifft X = Throw TypeError.
Proof.
  intros H1 H2. unfold ProcessWithMatlab.ifft, ProcessWithMatlab._fftRecursive.
  rewrite fftRecursive_throws by (rewrite length_map; assumption). reflexivity.
Qed.

Lemma filters_ifft_throws (X : list complex) :
  1 < length X -> ~ Pow2 (length X) -> Filters.ifft X = Throw TypeError.
Proof.
  intros H1 H2. unfold Filters.ifft, Filters.fftRecursive.
  rewrite fftRecursive_throws by (rewrite length_map; assumption). reflexivity.
Qed.

End InverseEntryPoints.

(** X1: fftRecursive (the same text in utils.js, filters.js, processWithMatlab.js
    and earthquakeAnalysis.js) returns exactly on the arrays whose length is
    0, 1 or a power of two, and then an array of the same length without
    holes; on every other array it throws a TypeError. *)
Theorem fftRecursive_returns_iff_power_of_two {N : Number} {T : Trig N}
  (x : list complex) :
  (length x <= 1 \/ Pow2 (length x) ->
   exists r, Radix2.fftRecursive x = Ok r /\ length r = length x /\ dense r) /\
  (1 < length x -> ~ Pow2 (length x) -> Radix2.fftRecursive x = Throw TypeError) /\
  (is_ok (Radix2.fftRecursive x) = true <-> length x <= 1 \/ Pow2 (length x)).
Proof.
  split; [apply fftRecursive_ok|]. split; [apply fftRecursive_throws|].
  split.
  - intros Hok. destruct (Pow2_dec (length x)) as [Hp|Hp]; [auto|].
    destruct (Nat.le_gt_cases (length x) 1) as [Hle|Hgt]; [auto|].
    rewrite (fftRecursive_throws x Hgt Hp) in Hok. discriminate.
  - intros H. destruct (fftRecursive_ok x H) as (r & -> & _). reflexivity.
Qed.

Lemma fftRecursive_returns_iff_power_of_two_witness :
  (exists r, Radix2.fftRecursive (N:=Exact.number)
               [Cplx.embed (1, 0); Cplx.embed (2, 0)]%R = Ok r /\
             length r = 2 /\ dense r) /\
  Radix2.fftRecursive (N:=Exact.number)
    [Cplx.embed (1, 0); Cplx.embed (2, 0); Cplx.embed (3, 0)]%R = Throw TypeError.
Proof.
  split.
  - apply (proj1 (fftRecursive_returns_iff_power_of_two (N:=Exact.number)
                    [Cplx.embed (1, 0); Cplx.embed (2, 0)]%R)).
    right. exact (Pow2_double Pow2_one).
  - apply (proj1 (proj2 (fftRecursive_returns_iff_power_of_two (N:=Exact.number)
                    [Cplx.embed (1, 0); Cplx.embed (2, 0); Cplx.embed (3, 0)]%R))).
    + simpl. lia.
    + simpl. apply (Pow2_odd (j:=1)). lia.
Defined.

(** X2: ifft of processWithMatlab.js and of filters.js hand their argument to
    fftRecursive unpadded: they return an array of the argument's length
    when that length is 0, 1 or a power of two and throw a TypeError
    otherwise.  ifft of utils.js goes through fft, which pads: on a spectrum
    without holes it always returns, an array of the padded length. *)
Theorem ifft_length_or_TypeError {N : Number} {T : Trig N} (X : list complex) :
  (length X <= 1 \/ Pow2 (length X) ->
   (exists l, ProcessWithMatlab.ifft X = Ok l /\ length l = length X) /\
   (exists l, Filters.ifft X = Ok l /\ length l = length X)) /\
  (1 < length X -> ~ Pow2 (length X) ->
   ProcessWithMatlab.ifft X = Throw TypeError /\
   Filters.ifft X = Throw TypeError) /\
  (exists l, Utils.ifft (map Some X) = Ok l /\
             length l = padded_length (length X)).
Proof.
  split; [|split].
  - intros H. split; [apply pwm_ifft_ok | apply filters_ifft_ok]; exact H.
  - intros H1 H2. split; [apply pwm_ifft_throws | apply filters_ifft_throws]; assumption.
  - destruct (utils_ifft_ok (dense_map_Some X)) as (l & Hl & Hlen).
    exists l. rewrite length_map in Hlen. auto.
Qed.

Lemma ifft_length_or_TypeError_witness :
  ProcessWithMatlab.ifft (N:=Exact.number)
    [Cplx.embed (1, 0); Cplx.embed (2, 0); Cplx.embed (3, 0)]%R = Throw TypeError /\
  exists l, Filters.ifft (N:=Exact.number)
              [Cplx.embed (1, 0); Cplx.embed (2, 0)]%R = Ok l /\ length l = 2.
Proof.
  split.
  - apply (proj1 (proj2 (ifft_length_or_TypeError (N:=Exact.number)
             [Cplx.embed (1, 0); Cplx.embed (2, 0); Cplx.embed (3, 0)]%R))).
    + simpl. lia.
    + simpl. apply (Pow2_odd (j:=1)). lia.
  - apply (proj1 (ifft_length_or_TypeError (N:=Exact.number)
             [Cplx.embed (1, 0); Cplx.embed (2, 0)]%R)).
    right. exact (Pow2_double Pow2_one).
Defined.

(** ** trapz and cumtrapz of utils.js *)

Section TrapzFacts.
Context {N : Number}.

Lemma utils_trapz_throws (x y : list num) :
  length x <> length y \/ length x < 2 ->
  Utils.trapz x y =
  Throw (Error "trapz: x and y must have same length and at least 2 elements").
Proof.
  intros H. unfold Utils.trapz.
  destruct (Nat.eqb_spec (length x) (length y)) as [E|E]; [|reflexivity].
  destruct (Nat.ltb_spec (length x) 2) as [_|Hge]; [reflexivity | lia].
Qed.

Lemma nth_error_map_seq {A} (f : nat -> A) n k :
  k < n -> nth_error (map f (seq 0 n)) k = Some (f k).
Proof.
  intros Hk. rewrite nth_error_map, nth_error_seq.
  destruct (Nat.ltb_spec k n); [reflexivity | lia].
Qed.

End TrapzFacts.

(** X3: trapz of utils.js throws unless the two arrays have the same length, at
    least 2; then it returns the last element of what cumtrapz returns on the
    same arguments, the same number to the last bit. *)
Theorem trapz_is_last_of_cumtrapz {N : Number} (x y : list num) :
  (length x <> length y \/ length x < 2 ->
   Utils.trapz x y =
   Throw (Error "trapz: x and y must have same length and at least 2 elements")) /\
  (length x = length y -> 2 <= length x ->
   exists v r, Utils.trapz x y = Ok v /\ Utils.cumtrapz x y = Ok r /\
               length r = length x /\
               nth_error r (length x - 1) = Some (Some v)).
Proof.
  split; [apply utils_trapz_throws|].
  intros H H2.
  rewrite (utils_trapz_eq x y H H2), (utils_cumtrapz_eq x y H).
  do 2 eexists. split; [reflexivity|]. split; [reflexivity|].
  replace (Nat.max 1 (length x)) with (length x) by lia.
  rewrite length_map, length_seq. split; [reflexivity|].
  rewrite (nth_error_map_seq (fun k => Some (trapezoid_sum_utils x y k))) by lia.
  reflexivity.
Qed.

Lemma trapz_is_last_of_cumtrapz_witness :
  exists v r,
    Utils.trapz (N:=Float64.number) [#0; #1; #3]%num [#2; #4; #4]%num = Ok v /\
    Utils.cumtrapz (N:=Float64.number) [#0; #1; #3]%num [#2; #4; #4]%num = Ok r /\
    length r = 3 /\ nth_error r 2 = Some (Some v).
Proof.
  apply (proj2 (trapz_is_last_of_cumtrapz (N:=Float64.number)
                  [#0; #1; #3]%num [#2; #4; #4]%num)).
  - reflexivity.
  - simpl. lia.
Defined.

(** ** Site frequency of a record too short to have a spectrum *)

(** X4: For an input of at most one sample findSiteFrequency searches no bin at
    all: [frequencies] and [magnitudes] are empty, [Math.max()] of nothing is
    -Infinity, [indexOf] answers -1, and the reported frequency and magnitude
    are [undefined]. *)
Theorem site_frequency_undefined_for_short_input {N : Number} {T : Trig N}
  (acceleration : list num) (fs : num) :
  length acceleration <= 1 ->
  ProcessWithMatlab.findSiteFrequency acceleration fs =
    Ok {| ProcessWithMatlab.frequency := None;
          ProcessWithMatlab.magnitude := None;
          ProcessWithMatlab.frequencies := [];
          ProcessWithMatlab.magnitudes := [] |} /\
  Gui.findSiteFrequency acceleration fs =
    Ok {| Gui.frequency := None;
          Gui.magnitude := None;
          Gui.frequencies := [];
          Gui.amplitudes := [] |}.
Proof.
  intros H. destruct acceleration as [|a [|b t]]; [| |simpl in H; lia];
    split; reflexivity.
Qed.

Lemma site_frequency_undefined_for_short_input_witness :
  ProcessWithMatlab.findSiteFrequency (N:=Exact.number) [Exact.Fin 5] (Exact.Fin 100) =
    Ok {| ProcessWithMatlab.frequency := None;
          ProcessWithMatlab.magnitude := None;
          ProcessWithMatlab.frequencies := [];
          ProcessWithMatlab.magnitudes := [] |}.
Proof.
  apply (site_frequency_undefined_for_short_input (N:=Exact.number)
           [Exact.Fin 5] (Exact.Fin 100)).
  simpl. lia.
Defined.

(** ** Arias intensity of the analysis module: total and cumulative *)

Section AriasTotals.
Context {N : Number}.

Lemma utils_cumtrapz_throws (x y : list num) :
  length x <> length y ->
  Utils.cumtrapz x y = Throw (Error "cumtrapz: x and y must have same length").
Proof.
  intros H. unfold Utils.cumtrapz.
  destruct (Nat.eqb_spec (length x) (length y)); [contradiction | reflexivity].
Qed.

End AriasTotals.

(** X5: calculateAriasIntensity of the analysis module integrates twice, by trapz
    and by cumtrapz.  It throws the error of trapz unless time and
    acceleration have the same length, at least 2; then the total it reports
    is the last element of the cumulative array it reports. *)
Theorem analysis_arias_total_is_last_cumulative {N : Number}
  (this : Analysis.options) (acceleration time : list num) :
  (length time <> length acceleration \/ length time < 2 ->
   Analysis.calculateAriasIntensity this acceleration time =
   Throw (Error "trapz: x and y must have same length and at least 2 elements")) /\
  (length time = length acceleration -> 2 <= length time ->
   exists r, Analysis.calculateAriasIntensity this acceleration time = Ok r /\
             length (Analysis.cumulativeAI r) = length time /\
             nth_error (Analysis.cumulativeAI r) (length time - 1) =
               Some (Analysis.ariasIntensity r)).
Proof.
  split.
  - intros H. unfold Analysis.calculateAriasIntensity.
    rewrite utils_trapz_throws by (rewrite !length_map; exact H). reflexivity.
  - intros H H2. unfold Analysis.calculateAriasIntensity.
    rewrite utils_trapz_eq by (rewrite ?length_map; assumption).
    rewrite utils_cumtrapz_eq by (rewrite ?length_map; assumption).
    cbn [bind]. eexists; split; [reflexivity|].
    cbn [Analysis.cumulativeAI Analysis.ariasIntensity].
    replace (Nat.max 1 (length time)) with (length time) by lia.
    unfold map_num. rewrite !length_map, length_seq. split; [reflexivity|].
    rewrite !map_map.
    rewrite nth_error_map_seq by lia. reflexivity.
Qed.

Lemma analysis_arias_total_is_last_cumulative_witness :
  exists r,
    Analysis.calculateAriasIntensity (N:=Float64.number) Analysis.default_options
      [#100; #50; #100]%num [#0; #1; #2]%num = Ok r /\
    length (Analysis.cumulativeAI r) = 3 /\
    nth_error (Analysis.cumulativeAI r) 2 = Some (Analysis.ariasIntensity r).
Proof.
  apply (proj2 (analysis_arias_total_is_last_cumulative (N:=Float64.number)
                  Analysis.default_options [#100; #50; #100]%num [#0; #1; #2]%num)).
  - reflexivity.
  - simpl. lia.
Defined.

(** ** Peak ground motion of the analysis module *)

Section PeakGroundMotion.
Context {N : Number}.

Lemma numbers_length (a : jsarray num) : length (numbers a) = length a.
Proof. apply length_map. Qed.

End PeakGroundMotion.

(** X6: calculatePeakGroundMotion integrates the acceleration twice with cumtrapz
    of utils.js.  It throws its own error when the two arrays differ in
    length.  On two empty arrays the first integration returns [0], one
    element for no time sample, and the second integration throws the
    length error of cumtrapz.  On non-empty arrays of equal length it
    returns velocity and displacement histories of the input's length,
    without holes, both starting at 0. *)
Theorem peak_ground_motion_histories {N : Number} (acceleration time : list num) :
  (length acceleration <> length time ->
   Analysis.calculatePeakGroundMotion acceleration time =
   Throw (Error "Acceleration and time arrays must have same length")) /\
  (acceleration = [] -> time = [] ->
   Analysis.calculatePeakGroundMotion acceleration time =
   Throw (Error "cumtrapz: x and y must have same length")) /\
  (acceleration <> [] -> length acceleration = length time ->
   exists r, Analysis.calculatePeakGroundMotion acceleration time = Ok r /\
             length (Analysis.velocity r) = length time /\
             length (Analysis.displacement r) = length time /\
             dense (Analysis.velocity r) /\ dense (Analysis.displacement r) /\
             nth_error (Analysis.velocity r) 0 = Some (Some #0%num) /\
             nth_error (Analysis.displacement r) 0 = Some (Some #0%num)).
Proof.
  split; [|split].
  - intros H. unfold Analysis.calculatePeakGroundMotion.
    destruct (Nat.eqb_spec (length acceleration) (length time));
      [contradiction | reflexivity].
  - intros -> ->. reflexivity.
  - intros Hne H. unfold Analysis.calculatePeakGroundMotion.
    rewrite H, Nat.eqb_refl. cbn [negb].
    assert (Hpos : Nat.max 1 (length time) = length time).
    { destruct acceleration; [congruence | simpl in H; lia]. }
    destruct (utils_cumtrapz_ok time acceleration (eq_sym H))
      as (v & -> & Hlv & Hv0 & Hdv).
    cbn [bind]. rewrite Hpos in Hlv.
    destruct (utils_cumtrapz_ok time (numbers v))
      as (d & -> & Hld & Hd0 & Hdd); [rewrite numbers_length; congruence|].
    cbn [bind]. rewrite Hpos in Hld.
    eexists; split; [reflexivity|].
    cbn [Analysis.velocity Analysis.displacement]. auto 10.
Qed.

Lemma peak_ground_motion_histories_witness :
  exists r,
    Analysis.calculatePeakGroundMotion (N:=Float64.number)
      [#1; #2; #1]%num [#0; #1; #2]%num = Ok r /\
    length (Analysis.velocity r) = 3 /\ length (Analysis.displacement r) = 3.
Proof.
  destruct (proj2 (proj2 (peak_ground_motion_histories (N:=Float64.number)
              [#1; #2; #1]%num [#0; #1; #2]%num))) as (r & Hr & Hv & Hd & _).
  - discriminate.
  - reflexivity.
  - exists r. auto.
Defined.

(** ** preprocessBoore of filters.js *)

Section PreprocessBoore.
Context {N : Number} {T : Trig N}.

Lemma filters_preprocessBoore_ok (data : list num) (fs cornerFreq : num) :
  Pow2 (length data) ->
  (fs <=? #0)%num = false -> (cornerFreq <=? #0)%num = false ->
  exists out, Filters.preprocessBoore data fs cornerFreq = Ok out /\
              length out = length data.
Proof.
  intros Hp Hfs Hfc. pose proof (Pow2_pos Hp) as Hpos.
  unfold Filters.preprocessBoore.
  destruct (Nat.eqb_spec (length data) 0) as [E|_]; [lia|].
  rewrite Hfs, Hfc. cbn [orb].
  destruct (filters_fft_ok (Filters.detrend data)) as (fftData & -> & Hf & Hdf).
  { rewrite filters_detrend_length. auto. }
  rewrite filters_detrend_length in Hf. cbn [bind].
  match goal with |- context [map_obj ?f fftData] =>
    destruct (map_obj_ok f Hdf) as (filtered & -> & Hfl)
  end.
  cbn [bind].
  destruct (filters_ifft_ok filtered) as (res & -> & Hres).
  { rewrite Hfl, Hf. auto. }
  cbn [bind]. eexists; split; [reflexivity|].
  rewrite length_map. congruence.
Qed.

End PreprocessBoore.

(** X7: preprocessBoore of filters.js: an empty input and a non-positive sampling
    or corner frequency are refused with an Error of their own; an input
    whose length is a power of two is filtered into an array of the same
    length; any other input runs into the TypeError of the unpadded
    transform. *)
Theorem preprocessBoore_outcomes {N : Number} {T : Trig N}
  (data : list num) (fs cornerFreq : num) :
  (data = [] ->
   Filters.preprocessBoore data fs cornerFreq =
   Throw (Error "Input data is empty or invalid")) /\
  (data <> [] -> (fs <=? #0)%num || (cornerFreq <=? #0)%num = true ->
   Filters.preprocessBoore data fs cornerFreq =
   Throw (Error "Sampling frequency and corner frequency must be positive")) /\
  ((fs <=? #0)%num || (cornerFreq <=? #0)%num = false ->
   (Pow2 (length data) ->
    exists out, Filters.preprocessBoore data fs cornerFreq = Ok out /\
                length out = length data) /\
   (1 < length data -> ~ Pow2 (length data) ->
    Filters.preprocessBoore data fs cornerFreq = Throw TypeError)).
Proof.
  split; [|split].
  - intros ->. reflexivity.
  - intros Hne H. unfold Filters.preprocessBoore.
    destruct data; [congruence|]. cbn [length Nat.eqb]. rewrite H. reflexivity.
  - intros H. apply orb_false_elim in H. destruct H as [Hfs Hfc]. split.
    + intros Hp. apply filters_preprocessBoore_ok; assumption.
    + intros H1 H2. apply filters_preprocessBoore_throws; assumption.
Qed.

Lemma exact_le_false (a b : R) :
  (b < a)%R -> js_le (Number:=Exact.number) (Exact.Fin a) (Exact.Fin b) = false.
Proof.
  intros H. cbn. unfold Exact.xle, Exact.xlt, Exact.xeq.
  destruct (Rlt_dec a b); [lra|]. destruct (Req_dec_T a b); [lra | reflexivity].
Qed.

Lemma exact_le_true (a b : R) :
  (a <= b)%R -> js_le (Number:=Exact.number) (Exact.Fin a) (Exact.Fin b) = true.
Proof.
  intros H. cbn. unfold Exact.xle, Exact.xlt, Exact.xeq.
  destruct (Rlt_dec a b); [reflexivity|]. destruct (Req_dec_T a b); [reflexivity | lra].
Qed.

Lemma preprocessBoore_outcomes_witness :
  (exists out,
     Filters.preprocessBoore (N:=Exact.number)
       [Exact.Fin 1; Exact.Fin 2; Exact.Fin 4; Exact.Fin 3]
       (Exact.Fin 100) (Exact.Fin 1) = Ok out /\ length out = 4) /\
  Filters.preprocessBoore (N:=Exact.number)
    [Exact.Fin 1; Exact.Fin 2] (Exact.Fin 0) (Exact.Fin 1) =
  Throw (Error "Sampling frequency and corner frequency must be positive").
Proof.
  split.
  - destruct (preprocessBoore_outcomes (N:=Exact.number)
                [Exact.Fin 1; Exact.Fin 2; Exact.Fin 4; Exact.Fin 3]
                (Exact.Fin 100) (Exact.Fin 1)) as (_ & _ & H).
    destruct H as [Hok _].
    + change (js_le (Number:=Exact.number) (Exact.Fin 100) (Exact.Fin 0) ||
              js_le (Number:=Exact.number) (Exact.Fin 1) (Exact.Fin 0) = false).
      rewrite !exact_le_false by lra. reflexivity.
    + apply Hok. exact (Pow2_double (Pow2_double Pow2_one)).
  - apply (proj1 (proj2 (preprocessBoore_outcomes (N:=Exact.number)
             [Exact.Fin 1; Exact.Fin 2] (Exact.Fin 0) (Exact.Fin 1)))).
    + discriminate.
    + change (js_le (Number:=Exact.number) (Exact.Fin 0) (Exact.Fin 0) ||
              js_le (Number:=Exact.number) (Exact.Fin 1) (Exact.Fin 0) = true).
      rewrite exact_le_true by lra. reflexivity.
Defined.

(** ** find of utils.js *)

Section FindFacts.
Context {N : Number}.

Lemma find_loop (p : nat -> bool) (l : list nat) : forall acc,
  fold_left (fun indices i => if p i then indices ++ [i] else indices) l acc =
  acc ++ List.filter p l.
Proof.
  induction l as [|i l IH]; intros acc; cbn [fold_left List.filter].
  - rewrite app_nil_r. reflexivity.
  - rewrite IH. destruct (p i); [rewrite <- app_assoc|]; reflexivity.
Qed.

Lemma utils_find_filter (array : list num) (condition : num -> nat -> bool) :
  Utils.find array condition =
  List.filter (fun i => condition (at_ array i) i) (seq 0 (length array)).
Proof. unfold Utils.find. rewrite find_loop. reflexivity. Qed.

Lemma filter_seq_sorted (p : nat -> bool) n : forall k,
  StronglySorted lt (List.filter p (seq k n)).
Proof.
  induction n as [|n IH]; intros k; cbn [seq List.filter]; [constructor|].
  destruct (p k); [|apply IH].
  constructor; [apply IH|].
  apply Forall_forall. intros i Hi. apply filter_In in Hi. destruct Hi as [Hi _].
  apply in_seq in Hi. lia.
Qed.

End FindFacts.

(** X8: find(array, condition) returns exactly the indices of the array at which
    the condition holds, each once, in increasing order. *)
Theorem find_returns_the_matching_indices {N : Number}
  (array : list num) (condition : num -> nat -> bool) :
  (forall i, In i (Utils.find array condition) <->
             i < length array /\ condition (at_ array i) i = true) /\
  StronglySorted lt (Utils.find array condition).
Proof.
  rewrite utils_find_filter. split.
  - intros i. rewrite filter_In, in_seq. split; intros [H1 H2]; split; auto; lia.
  - apply filter_seq_sorted.
Qed.

(** ** Bracketed duration: the bracket *)

Section BracketFacts.
Context {N : Number}.
Variable threshold : num.

Local Notation mark :=
  (fun (acc : num) (i : nat) =>
     if (Math_abs acc >=? threshold)%num then Z.of_nat i else (-1)%Z).
Local Notation kept := (fun i : Z => negb (i =? -1)%Z).

Lemma above_In (l : list num) : forall k z,
  In z (List.filter kept (mapi_from k mark l)) <->
  exists i a, z = Z.of_nat (k + i) /\ nth_error l i = Some a /\
              (Math_abs a >=? threshold)%num = true.
Proof.
  induction l as [|b l IH]; intros k z; cbn [mapi_from List.filter].
  - split; [intros [] | intros (i & a & _ & H & _); destruct i; discriminate].
  - destruct (Math_abs b >=? threshold)%num eqn:Eb.
    + replace (negb (Z.of_nat k =? -1)%Z) with true
        by (symmetry; apply negb_true_iff, Z.eqb_neq; lia).
      cbn [In]. rewrite IH. split.
      * intros [<-|(i & a & -> & Hi & Ha)].
        { exists 0, b. rewrite Nat.add_0_r. auto. }
        { exists (S i), a. split; [f_equal; lia | auto]. }
      * intros (i & a & -> & Hi & Ha). destruct i as [|i].
        { left. rewrite Nat.add_0_r. reflexivity. }
        { right. exists i, a. split; [f_equal; lia | auto]. }
    + change (negb (-1 =? -1)%Z) with false. cbv iota. rewrite IH. split.
      * intros (i & a & -> & Hi & Ha). exists (S i), a. split; [f_equal; lia | auto].
      * intros (i & a & -> & Hi & Ha). destruct i as [|i].
        { cbn in Hi. injection Hi as <-. congruence. }
        { exists i, a. split; [f_equal; lia | auto]. }
Qed.

Lemma above_sorted (l : list num) : forall k,
  StronglySorted Z.lt (List.filter kept (mapi_from k mark l)).
Proof.
  induction l as [|b l IH]; intros k; cbn [mapi_from List.filter]; [constructor|].
  destruct (negb _); [|apply IH].
  constructor; [apply IH|].
  apply Forall_forall. intros z Hz. apply above_In in Hz.
  destruct Hz as (i & a & -> & _).
  destruct (Math_abs b >=? threshold)%num; lia.
Qed.

Lemma sorted_between (A : list Z) (z : Z) :
  StronglySorted Z.lt A -> In z A ->
  (nth 0 A 0 <= z <= nth (length A - 1) A 0)%Z.
Proof.
  rewrite nth_pred_length_last.
  induction 1 as [|x A HA IH Hx]; intros Hz; [destruct Hz|].
  cbn [nth]. rewrite Forall_forall in Hx. destruct Hz as [->|Hz].
  - split; [lia|]. destruct A as [|y A]; [cbn; lia|].
    change (last (z :: y :: A) 0%Z) with (last (y :: A) 0%Z).
    assert (In (last (y :: A) 0%Z) (y :: A)).
    { destruct (exists_last (l:=y :: A)) as (A' & w & E); [discriminate|].
      rewrite E, last_last. apply in_or_app. right. left. reflexivity. }
    specialize (Hx _ H). lia.
  - specialize (IH Hz). specialize (Hx _ Hz).
    destruct A as [|y A]; [destruct Hz|].
    change (last (x :: y :: A) 0%Z) with (last (y :: A) 0%Z).
    cbn [nth] in IH. lia.
Qed.

Lemma nth_first_last_In (A : list Z) :
  A <> [] -> In (nth 0 A 0%Z) A /\ In (nth (length A - 1) A 0%Z) A.
Proof.
  intros HA. split.
  - destruct A; [congruence | left; reflexivity].
  - rewrite nth_pred_length_last.
    destruct (exists_last HA) as (A' & w & ->).
    rewrite last_last. apply in_or_app. right. left. reflexivity.
Qed.

(** the indices that the two classes keep in [aboveThreshold]: not empty as
    soon as one sample reaches the threshold, first and last element the
    first and the last such sample *)
Lemma above_bracket (acceleration : list num) (i : nat) (a : num) :
  nth_error acceleration i = Some a ->
  (Math_abs a >=? threshold)%num = true ->
  let A := List.filter kept (mapi_from 0 mark acceleration) in
  (length A =? 0) = false /\
  exists s e a_s a_e,
    nth 0 A 0%Z = Z.of_nat s /\ nth (length A - 1) A 0%Z = Z.of_nat e /\
    s <= i <= e /\
    nth_error acceleration s = Some a_s /\
    (Math_abs a_s >=? threshold)%num = true /\
    nth_error acceleration e = Some a_e /\
    (Math_abs a_e >=? threshold)%num = true.
Proof.
  intros Hi Ha A.
  assert (HiA : In (Z.of_nat i) A).
  { apply above_In. exists i, a. auto. }
  assert (HA : A <> []) by (intros E; rewrite E in HiA; destruct HiA).
  split; [destruct A; [congruence | reflexivity]|].
  destruct (nth_first_last_In HA) as [Hs He].
  apply above_In in Hs. destruct Hs as (s & a_s & Es & Hs & Has).
  apply above_In in He. destruct He as (e & a_e & Ee & He & Hae).
  pose proof (@sorted_between A (Z.of_nat i) (above_sorted acceleration 0) HiA) as Hb.
  fold A in Hb. rewrite Es, Ee in Hb.
  exists s, e, a_s, a_e. repeat split; auto; lia.
Qed.

Lemma value_at_Z_of_nat (l : list num) (s : nat) :
  value_at_Z l (Z.of_nat s) = value_at l s.
Proof.
  unfold value_at_Z. destruct (Z.ltb_spec (Z.of_nat s) 0); [lia|].
  rewrite Nat2Z.id. reflexivity.
Qed.

End BracketFacts.

(** X9: calculateBracketedDuration of processWithMatlab.js and of
    earthquakeAnalysis.js: as soon as one sample reaches the threshold, the
    reported start and end indices are indices of samples that reach it and
    every sample that reaches it lies between them; the reported times are
    the times at these two indices and the duration is their difference. *)
Theorem bracketed_duration_brackets_exceedances {N : Number}
  (time acceleration : list num) (threshold : num) (i : nat) (a : num) :
  nth_error acceleration i = Some a ->
  (Math_abs a >=? threshold)%num = true ->
  (let r := ProcessWithMatlab.calculateBracketedDuration time acceleration threshold in
   exists s e a_s a_e,
     ProcessWithMatlab.startIndex r = Z.of_nat s /\
     ProcessWithMatlab.endIndex r = Z.of_nat e /\
     s <= i <= e /\
     nth_error acceleration s = Some a_s /\
     (Math_abs a_s >=? threshold)%num = true /\
     nth_error acceleration e = Some a_e /\
     (Math_abs a_e >=? threshold)%num = true /\
     ProcessWithMatlab.startTime r = value_at time s /\
     ProcessWithMatlab.endTime r = value_at time e /\
     ProcessWithMatlab.duration r =
       (value_num (value_at time e) - value_num (value_at time s))%num) /\
  (let r := Gui.calculateBracketedDuration time acceleration threshold in
   exists s e a_s a_e,
     Gui.startIndex r = Z.of_nat s /\
     Gui.endIndex r = Z.of_nat e /\
     s <= i <= e /\
     nth_error acceleration s = Some a_s /\
     (Math_abs a_s >=? threshold)%num = true /\
     nth_error acceleration e = Some a_e /\
     (Math_abs a_e >=? threshold)%num = true /\
     Gui.startTime r = value_at time s /\
     Gui.endTime r = value_at time e /\
     Gui.duration r =
       (value_num (value_at time e) - value_num (value_at time s))%num).
Proof.
  intros Hi Ha.
  destruct (above_bracket threshold acceleration i Hi Ha)
    as (Hne & s & e & a_s & a_e & Es & Ee & Hb & Hs & Has & He & Hae).
  split.
  - unfold ProcessWithMatlab.calculateBracketedDuration, mapi.
    rewrite Hne, Es, Ee, !value_at_Z_of_nat.
    exists s, e, a_s, a_e. cbn. auto 12.
  - unfold Gui.calculateBracketedDuration, mapi.
    rewrite Hne, Es, Ee, !value_at_Z_of_nat.
    exists s, e, a_s, a_e. cbn. auto 12.
Qed.

Section BracketExample.
Local Existing Instance Float64.number.

Lemma bracketed_duration_brackets_exceedances_witness :
  exists s e a_s a_e,
    ProcessWithMatlab.startIndex
      (ProcessWithMatlab.calculateBracketedDuration (N:=Float64.number)
         [#0; #1; #2; #3; #4]%num [#1; #5; #2; #6; #1]%num #4%num) = Z.of_nat s /\
    ProcessWithMatlab.endIndex
      (ProcessWithMatlab.calculateBracketedDuration (N:=Float64.number)
         [#0; #1; #2; #3; #4]%num [#1; #5; #2; #6; #1]%num #4%num) = Z.of_nat e /\
    s <= 1 <= e /\
    nth_error [#1; #5; #2; #6; #1]%num s = Some a_s /\
    (Math_abs a_s >=? #4)%num = true /\
    nth_error [#1; #5; #2; #6; #1]%num e = Some a_e /\
    (Math_abs a_e >=? #4)%num = true.
Proof.
  destruct (@bracketed_duration_brackets_exceedances Float64.number
              [#0; #1; #2; #3; #4]%num [#1; #5; #2; #6; #1]%num #4%num 1 #5%num)
    as [(s & e & a_s & a_e & H1 & H2 & H3 & H4 & H5 & H6 & H7 & _) _].
  - reflexivity.
  - vm_compute. reflexivity.
  - exists s, e, a_s, a_e. auto 10.
Defined.

End BracketExample.

(** ** Loops that store into arrays *)

Lemma fold_left_seq_invariant {S} (P : nat -> S -> Prop) (f : S -> nat -> S) :
  forall c k s,
    P k s ->
    (forall i s, k <= i < k + c -> P i s -> P (Datatypes.S i) (f s i)) ->
    P (k + c) (fold_left f (seq k c) s).
Proof.
  induction c as [|c IH]; intros k s Hs Hstep; cbn [seq fold_left].
  - rewrite Nat.add_0_r. exact Hs.
  - replace (k + Datatypes.S c) with (Datatypes.S k + c) by lia.
    apply IH.
    + apply Hstep; [lia | exact Hs].
    + intros i s' Hi. apply Hstep. lia.
Qed.

Lemma js_set_dense {A} (j : nat) (v : A) (a : jsarray A) :
  dense a -> j < length a -> dense (js_set j v a).
Proof.
  intros Hd Hj. apply filled_dense. rewrite js_set_length.
  replace (Nat.max (S j) (length a)) with (length a) by lia.
  intros i Hi. unfold js_set. destruct (Nat.eq_dec i j) as [->|Hne].
  - rewrite js_store_same. eauto.
  - rewrite js_store_other by lia. apply (dense_filled Hd). exact Hi.
Qed.

Lemma js_set_length_in {A} (j : nat) (v : A) (a : jsarray A) :
  j < length a -> length (js_set j v a) = length a.
Proof. intros H. rewrite js_set_length. lia. Qed.

Lemma dense_rev {A} (a : jsarray A) : dense a -> dense (rev a).
Proof. apply Forall_rev. Qed.

Lemma dense_repeat {A} (v : A) n : dense (repeat (Some v) n).
Proof.
  apply Forall_forall. intros o Ho. apply repeat_spec in Ho. subst. discriminate.
Qed.

(** ** filter, filtfilt and butterworthHighPass of filters.js *)

Section FilterFacts.
Context {N : Number}.

Lemma output_loop (n : nat) (g : jsarray num -> nat -> num) (l : list nat) :
  forall y, n < length y -> filled (S n) y ->
  let y' := fold_left (fun y i => js_set n (g y i) y) l y in
  length y' = length y /\ filled (S n) y'.
Proof.
  induction l as [|i l IH]; intros y Hn Hf; cbn [fold_left]; [auto|].
  destruct (IH (js_set n (g y i) y)) as [Hl Hf'].
  - rewrite js_set_length_in; assumption.
  - intros k Hk. unfold js_set. destruct (Nat.eq_dec k n) as [->|Hne].
    + rewrite js_store_same. eauto.
    + rewrite js_store_other by lia. apply Hf. exact Hk.
  - split; [|exact Hf']. cbv zeta in Hl. rewrite Hl. apply js_set_length_in. exact Hn.
Qed.

Lemma filters_filter_shape (b a : list num) (x : jsarray num) :
  length (Filters.filter b a x) = length x /\ dense (Filters.filter b a x).
Proof.
  unfold Filters.filter.
  match goal with |- context [snd ?R] =>
    assert (H : length (snd R) = length x /\ filled (length x) (snd R))
  end.
  { apply (@fold_left_seq_invariant _
             (fun n (s : jsarray num * jsarray num) =>
                length (snd s) = length x /\ filled n (snd s)) _ (length x) 0).
    - cbn [snd]. split; [apply repeat_length | intros i Hi; lia].
    - intros n [w y] Hn [Hl Hf]. cbn [snd] in *.
      match goal with
      | |- context [fold_left (fun y0 i => js_set n (@?g y0 i) y0) ?l (js_set n ?v y)] =>
        destruct (@output_loop n g l (js_set n v y)) as [Hl' Hf']
      end.
      + rewrite js_set_length_in; lia.
      + apply filled_js_set; [exact Hf | lia].
      + split; [|exact Hf']. rewrite Hl'. rewrite js_set_length_in; lia. }
  destruct H as [Hl Hf].
  split; [exact Hl|]. apply filled_dense. rewrite Hl. exact Hf.
Qed.

Lemma filters_filtfilt_shape (b a : list num) (x : jsarray num) :
  length (Filters.filtfilt b a x) = length x /\ dense (Filters.filtfilt b a x).
Proof.
  unfold Filters.filtfilt.
  destruct (filters_filter_shape b a x) as [H1 _].
  destruct (filters_filter_shape b a (rev (Filters.filter b a x))) as [H2 Hd].
  rewrite length_rev in *. split; [congruence | apply dense_rev; exact Hd].
Qed.

End FilterFacts.

Section ButterworthFacts.
Import PrimFloat.
Local Existing Instance Float64.number.

(** X10: butterworthHighPass(data, fs, cutoffFreq, order = 4): only order 2 is
    designed, so a call that leaves the order to its default never returns a
    filtered signal.  It throws the Nyquist error when the normalised cutoff
    is at least 1 and the error of designButterworthHP for order 4
    otherwise, whatever the data.  With order 2 and a normalised cutoff
    that is not at least 1, it returns an array of the length of the data,
    without holes. *)
Theorem butterworthHighPass_outcomes (H : Host Float64.number)
  (data : list num) (fs cutoffFreq : num) :
  Filters.butterworthHighPass data fs cutoffFreq None =
    (if (cutoffFreq / (fs / #2) >=? #1)%num
     then Throw (Error "Cutoff frequency must be less than Nyquist frequency")
     else Throw (Error ("Butterworth filter design for order "
                        ++ number_toString #4%num ++ " not implemented"))) /\
  ((cutoffFreq / (fs / #2) >=? #1)%num = false ->
   exists out,
     Filters.butterworthHighPass data fs cutoffFreq (Some #2%num) = Ok out /\
     length out = length data /\ dense out).
Proof.
  split.
  - unfold Filters.butterworthHighPass.
    destruct (cutoffFreq / (fs / #2) >=? #1)%num; [reflexivity|].
    unfold Filters.designButterworthHP.
    replace (#4 === #2)%num with false by (vm_compute; reflexivity).
    reflexivity.
  - intros Hc. unfold Filters.butterworthHighPass. rewrite Hc.
    unfold Filters.designButterworthHP.
    replace (#2 === #2)%num with true by (vm_compute; reflexivity).
    cbn [bind fst snd]. eexists; split; [reflexivity|].
    match goal with |- context [Filters.filtfilt ?b ?a ?x] =>
      destruct (filters_filtfilt_shape b a x) as [Hl Hd]
    end.
    rewrite length_map in Hl. auto.
Qed.

Lemma butterworthHighPass_outcomes_witness :
  let H := @Build_Host Float64.number (fun x => x) (fun x _ => x) (fun x _ => x) (fun _ => "4"%string) in
  exists out,
    Filters.butterworthHighPass [#1; #2; #3]%num #100%num #10%num (Some #2%num) = Ok out /\
    length out = 3 /\ dense out.
Proof.
  intros H.
  apply (proj2 (butterworthHighPass_outcomes H [#1; #2; #3]%num #100%num #10%num)).
  vm_compute. reflexivity.
Defined.

End ButterworthFacts.

(** X11: filter(b, a, x) and filtfilt(b, a, x) return an array of the length of
    [x] in which every slot has been written, whatever the coefficient
    arrays are: empty ones, or ones longer than the signal. *)
Theorem filter_and_filtfilt_keep_length {N : Number} (b a : list num) (x : jsarray num) :
  (length (Filters.filter b a x) = length x /\ dense (Filters.filter b a x)) /\
  (length (Filters.filtfilt b a x) = length x /\ dense (Filters.filtfilt b a x)).
Proof. split; [apply filters_filter_shape | apply filters_filtfilt_shape]. Qed.

(** ** newmarkBeta of utils.js: the shape of what it returns *)

Section NewmarkShape.
Context {N : Number}.

Lemma js_set_keeps_first {A} (j : nat) (v : A) (a : jsarray A) :
  1 <= j -> 0 < length a -> nth_error (js_set j v a) 0 = nth_error a 0.
Proof. intros Hj Ha. unfold js_set. apply js_store_other; lia. Qed.

End NewmarkShape.

(** X12: newmarkBeta returns three histories of the length of the ground
    acceleration, without holes; when that length is not 0, each of them
    starts at 0: the oscillator is at rest at the first sample. *)
Theorem newmarkBeta_histories_shape {N : Number} (params : Utils.newmark_params) :
  let n := length (Utils.p_acceleration params) in
  let r := Utils.newmarkBeta params in
  (length (Utils.displacement r) = n /\ dense (Utils.displacement r)) /\
  (length (Utils.velocity r) = n /\ dense (Utils.velocity r)) /\
  (length (Utils.acceleration r) = n /\ dense (Utils.acceleration r)) /\
  (0 < n ->
   nth_error (Utils.displacement r) 0 = Some (Some #0%num) /\
   nth_error (Utils.velocity r) 0 = Some (Some #0%num) /\
   nth_error (Utils.acceleration r) 0 = Some (Some #0%num)).
Proof.
  intros n r. unfold r, Utils.newmarkBeta. fold n.
  set (good := fun a : jsarray num =>
                 length a = n /\ dense a /\
                 (0 < n -> nth_error a 0 = Some (Some #0%num))).
  match goal with |- context [fold_left ?F (seq 1 (n - 1)) ?s0] =>
    assert (H : good (fst (fst (fold_left F (seq 1 (n - 1)) s0))) /\
                good (snd (fst (fold_left F (seq 1 (n - 1)) s0))) /\
                good (snd (fold_left F (seq 1 (n - 1)) s0)));
    [|destruct (fold_left F (seq 1 (n - 1)) s0) as [[u v] acc]]
  end.
  { apply (@fold_left_seq_invariant _
             (fun (j : nat) (s : jsarray num * jsarray num * jsarray num) =>
                good (fst (fst s)) /\ good (snd (fst s)) /\ good (snd s))
             _ (n - 1) 1).
    - assert (Hz : good (repeat (Some #0%num) n)).
      { split; [apply repeat_length|]. split; [apply dense_repeat|].
        intros Hn. destruct n; [lia | reflexivity]. }
      cbn [fst snd]. auto.
    - intros j [[u v] acc] Hj (Hu & Hv & Ha). cbn [fst snd] in *.
      assert (Hstep : forall (a : jsarray num) x, good a -> good (js_set j x a)).
      { intros a x (Hl & Hd & H0). split; [|split].
        - rewrite js_set_length_in; lia.
        - apply js_set_dense; [exact Hd | lia].
        - intros Hn. rewrite js_set_keeps_first by lia. auto. }
      auto. }
  cbn [fst snd] in H. destruct H as ((Hlu & Hdu & Hu0) & (Hlv & Hdv & Hv0) & (Hla & Hda & Ha0)).
  cbn [Utils.displacement Utils.velocity Utils.acceleration]. auto 10.
Qed.

Lemma newmarkBeta_histories_shape_witness :
  let r := Utils.newmarkBeta (N:=Float64.number)
             {| Utils.p_acceleration := [#1; #2; #1]%num;
                Utils.p_dt := #1%num; Utils.p_omega := #2%num; Utils.p_zeta := #0%num;
                Utils.p_beta := None; Utils.p_gamma := None |} in
  nth_error (Utils.displacement r) 0 = Some (Some #0%num) /\
  nth_error (Utils.velocity r) 0 = Some (Some #0%num) /\
  nth_error (Utils.acceleration r) 0 = Some (Some #0%num).
Proof.
  apply (proj2 (proj2 (proj2 (newmarkBeta_histories_shape (N:=Float64.number)
           {| Utils.p_acceleration := [#1; #2; #1]%num;
              Utils.p_dt := #1%num; Utils.p_omega := #2%num; Utils.p_zeta := #0%num;
              Utils.p_beta := None; Utils.p_gamma := None |})))).
  simpl. lia.
Defined.

(** ** Sums over the reals and the least-squares line *)

Section Sums.
Import LeastSquares.
Local Open Scope R_scope.

Lemma fold_right_Rplus_acc (l : list R) (a : R) :
  fold_right Rplus a l = fold_right Rplus 0 l + a.
Proof. induction l as [|b l IH]; cbn [fold_right]; [ring | rewrite IH; ring]. Qed.

Lemma rsum_S (g : nat -> R) n : rsum g (S n) = rsum g n + g n.
Proof.
  unfold rsum. rewrite seq_S, map_app, fold_right_app. cbn [map fold_right Nat.add].
  rewrite fold_right_Rplus_acc. ring.
Qed.

Lemma rsum_ext (f g : nat -> R) n :
  (forall i, (i < n)%nat -> f i = g i) -> rsum f n = rsum g n.
Proof.
  intros H. unfold rsum. f_equal. apply map_ext_in.
  intros i Hi. apply in_seq in Hi. apply H. lia.
Qed.

Lemma rsum_plus (f g : nat -> R) n : rsum (fun i => f i + g i) n = rsum f n + rsum g n.
Proof. induction n as [|n IH]; [cbn; ring | rewrite !rsum_S, IH; ring]. Qed.

Lemma rsum_scal (c : R) (f : nat -> R) n : rsum (fun i => c * f i) n = c * rsum f n.
Proof. induction n as [|n IH]; [cbn; ring | rewrite !rsum_S, IH; ring]. Qed.

Lemma rsum_const (c : R) n : rsum (fun _ => c) n = INR n * c.
Proof. induction n as [|n IH]; [cbn; ring | rewrite rsum_S, IH, S_INR; ring]. Qed.

Lemma sumX_closed n : sumX n = INR n * (INR n - 1) / 2.
Proof.
  unfold sumX. induction n as [|n IH]; [cbn; field|].
  rewrite rsum_S, IH, S_INR. field.
Qed.

Lemma sumXX_closed n : sumXX n = (INR n - 1) * INR n * (2 * INR n - 1) / 6.
Proof.
  unfold sumXX. induction n as [|n IH]; [cbn; field|].
  rewrite rsum_S, IH, S_INR. field.
Qed.

(** the denominator of the slope is not 0 from two samples on *)
Lemma denominator_nonzero n :
  (2 <= n)%nat -> INR n * sumXX n - sumX n * sumX n <> 0.
Proof.
  intros Hn. rewrite sumX_closed, sumXX_closed.
  assert (H2 : 2 <= INR n) by (apply (le_INR 2); exact Hn).
  set (x := INR n) in *.
  replace (x * ((x - 1) * x * (2 * x - 1) / 6) - x * (x - 1) / 2 * (x * (x - 1) / 2))
    with (x * x * (x - 1) * (x + 1) / 12) by field.
  assert (0 < x * x * (x - 1) * (x + 1)).
  { apply Rmult_lt_0_compat; [|lra]. apply Rmult_lt_0_compat; [|lra]. nra. }
  lra.
Qed.

Lemma nth_map_seq (g : nat -> R) n i :
  (i < n)%nat -> nth i (map g (seq 0 n)) 0 = g i.
Proof.
  intros Hi. apply nth_error_nth. rewrite nth_error_map, nth_error_seq.
  destruct (Nat.ltb_spec i n); [reflexivity | lia].
Qed.

(** the residuals sum to 0 and are orthogonal to the index *)
Lemma residuals_length ys : length (residuals ys) = length ys.
Proof. unfold residuals. rewrite length_map, length_seq. reflexivity. Qed.

Lemma residuals_nth ys i :
  (i < length ys)%nat ->
  nth i (residuals ys) 0 = nth i ys 0 - (slope ys * INR i + intercept ys).
Proof.
  intros Hi. unfold residuals. apply nth_map_seq. exact Hi.
Qed.

Lemma sumY_residuals ys : (2 <= length ys)%nat -> sumY (residuals ys) = 0.
Proof.
  intros Hn. unfold sumY. rewrite residuals_length.
  rewrite (rsum_ext _ (fun i => nth i ys 0 +
                          ((- slope ys) * INR i + (- intercept ys))))
    by (intros i Hi; rewrite residuals_nth by exact Hi; ring).
  rewrite rsum_plus, rsum_plus, rsum_scal, rsum_const.
  fold (sumY ys). fold (sumX (length ys)).
  unfold intercept.
  assert (INR (length ys) <> 0) by (apply not_0_INR; lia).
  field. assumption.
Qed.

Lemma sumXY_residuals ys : (2 <= length ys)%nat -> sumXY (residuals ys) = 0.
Proof.
  intros Hn. unfold sumXY. rewrite residuals_length.
  rewrite (rsum_ext _ (fun i => INR i * nth i ys 0 +
                          ((- slope ys) * (INR i * INR i) + (- intercept ys) * INR i)))
    by (intros i Hi; rewrite residuals_nth by exact Hi; ring).
  rewrite rsum_plus, rsum_plus, !rsum_scal.
  fold (sumXY ys). fold (sumXX (length ys)). fold (sumX (length ys)).
  unfold intercept, slope.
  pose proof (denominator_nonzero Hn) as HD.
  assert (INR (length ys) <> 0) by (apply not_0_INR; lia).
  field. split; assumption.
Qed.

Lemma residuals_idempotent ys :
  (2 <= length ys)%nat -> residuals (residuals ys) = residuals ys.
Proof.
  intros Hn.
  assert (Hs : slope (residuals ys) = 0).
  { unfold slope. rewrite sumY_residuals, sumXY_residuals by exact Hn.
    rewrite residuals_length. pose proof (denominator_nonzero Hn). field. assumption. }
  assert (Hc : intercept (residuals ys) = 0).
  { unfold intercept. rewrite Hs, sumY_residuals by exact Hn.
    rewrite residuals_length.
    assert (INR (length ys) <> 0) by (apply not_0_INR; lia). field. assumption. }
  unfold residuals at 1. rewrite Hs, Hc, residuals_length.
  apply nth_error_ext. intros i. rewrite nth_error_map, nth_error_seq.
  destruct (Nat.ltb_spec i (length ys)) as [Hi|Hi]; cbn [option_map].
  - rewrite (nth_error_nth' (residuals ys) 0) by (rewrite residuals_length; exact Hi).
    f_equal. cbn [Nat.add]. ring.
  - symmetry. apply nth_error_None. rewrite residuals_length. exact Hi.
Qed.

(** the residuals of samples on a line are 0 *)
Lemma residuals_line (a b : R) n :
  (2 <= n)%nat ->
  residuals (map (fun i => a + b * INR i) (seq 0 n)) = repeat 0 n.
Proof.
  intros Hn.
  set (ys := map (fun i => a + b * INR i) (seq 0 n)).
  assert (Hl : length ys = n) by (unfold ys; rewrite length_map, length_seq; reflexivity).
  assert (Hy : forall i, (i < n)%nat -> nth i ys 0 = a + b * INR i).
  { intros i Hi. unfold ys. apply (nth_map_seq (fun i => a + b * INR i)). exact Hi. }
  assert (HsY : sumY ys = INR n * a + b * sumX n).
  { unfold sumY. rewrite Hl, (rsum_ext _ (fun i => a + b * INR i)) by exact Hy.
    rewrite rsum_plus, rsum_const, rsum_scal. reflexivity. }
  assert (HsXY : sumXY ys = a * sumX n + b * sumXX n).
  { unfold sumXY. rewrite Hl.
    rewrite (rsum_ext _ (fun i => a * INR i + b * (INR i * INR i)))
      by (intros i Hi; rewrite Hy by exact Hi; ring).
    rewrite rsum_plus, !rsum_scal. reflexivity. }
  pose proof (denominator_nonzero Hn) as HD.
  assert (Hn0 : INR n <> 0) by (apply not_0_INR; lia).
  assert (Hs : slope ys = b).
  { unfold slope. rewrite Hl, HsY, HsXY. field. exact HD. }
  assert (Hc : intercept ys = a).
  { unfold intercept. rewrite Hs, Hl, HsY. field. exact Hn0. }
  unfold residuals. rewrite Hs, Hc, Hl.
  transitivity (map (fun _ : nat => 0) (seq 0 n));
    [|rewrite map_const, length_seq; reflexivity].
  apply map_ext_in. intros i Hi. apply in_seq in Hi.
  rewrite Hy by lia. ring.
Qed.

End Sums.

(** ** The first bin of the transform *)

Section FirstBin.
Import Exact Cplx LeastSquares.
Local Open Scope R_scope.

Lemma rsum_halves (g : nat -> R) h :
  rsum g (2 * h) = rsum (fun j => g (2 * j)%nat) h + rsum (fun j => g (2 * j + 1)%nat) h.
Proof.
  induction h as [|h IH]; [cbn; ring|].
  replace (2 * S h)%nat with (S (S (2 * h))) by lia.
  rewrite !rsum_S, IH.
  replace (S (2 * h)) with (2 * h + 1)%nat by lia. ring.
Qed.

Lemma rsum_list (l : list R) : rsum (fun j => nth j l 0) (length l) = fold_right Rplus 0 l.
Proof.
  unfold rsum. f_equal. rewrite <- (map_id l) at 2.
  exact (tabulate_nth (fun v => v) l 0).
Qed.

Lemma fold_right_Rplus_padded (x : list R) k :
  fold_right Rplus 0 (x ++ repeat 0 k) = fold_right Rplus 0 x.
Proof.
  rewrite fold_right_app.
  replace (fold_right Rplus 0 (repeat 0 k)) with 0; [reflexivity|].
  induction k as [|k IH]; cbn [repeat fold_right]; [reflexivity | rewrite <- IH; ring].
Qed.

(** element 0 of the recursion is the sum of the array *)
Lemma transform_first_bin m : forall f : nat -> C,
  transform Cadd Cmul Csub root m f 0 =
  (rsum (fun j => fst (f j)) (2 ^ m), rsum (fun j => snd (f j)) (2 ^ m)).
Proof.
  induction m as [|m IH]; intros f.
  - cbn. destruct (f 0%nat) as [a b]. cbn. f_equal; ring.
  - rewrite transform_S.
    pose proof (pow2_pos m) as Hpos.
    destruct (Nat.ltb_spec 0 (2 ^ m)) as [_|H]; [|lia].
    rewrite !IH, root_zero. unfold Cadd, Cmul, Cone. cbn [fst snd].
    change (2 ^ S m)%nat with (2 * 2 ^ m)%nat.
    rewrite (rsum_halves (fun j => fst (f j))), (rsum_halves (fun j => snd (f j))).
    f_equal; ring.
Qed.

(** fftRecursive on a real array, padded or not, whose length is a power
    of two *)
Lemma exact_fftRecursive_first_bin (l : list R) m :
  length l = (2 ^ m)%nat ->
  exists s,
    @Radix2.fftRecursive Exact.number exact_trig (map (fun v => embed (v, 0)) l) = Ok s /\
    nth_error s 0 =
      Some (Some (@Complex Exact.number (Fin (fold_right Rplus 0 l)) (Fin 0))).
Proof.
  intros Hl.
  rewrite <- (tabulate_nth (fun v => embed (v, 0)) l 0), Hl.
  rewrite (exact_fftRecursive m (fun k => (nth k l 0, 0))).
  eexists; split; [reflexivity|].
  rewrite nth_error_map, nth_error_tabulate.
  pose proof (pow2_pos m) as Hpos.
  destruct (Nat.ltb_spec 0 (2 ^ m)) as [_|H]; [|lia].
  cbn [option_map]. rewrite transform_first_bin. cbn [fst snd].
  rewrite <- Hl, rsum_list. unfold embed, rsum. cbn [fst snd]. do 3 f_equal.
  clear. induction (seq 0 (length l)) as [|a t IH]; cbn [map fold_right]; [reflexivity|].
  injection IH as ->. f_equal. ring.
Qed.

Lemma padded_pow2 (n : nat) : (n + (nextPow2 n - n) = 2 ^ Nat.log2_up n)%nat.
Proof. pose proof (nextPow2_ge n) as H. unfold nextPow2 in *. lia. Qed.

Lemma exact_pwm_fft_first_bin (x : list R) :
  x <> [] ->
  exists s,
    @ProcessWithMatlab.fft Exact.number exact_trig (map Fin x) = Ok s /\
    nth_error s 0 =
      Some (Some (@Complex Exact.number (Fin (fold_right Rplus 0 x)) (Fin 0))).
Proof.
  intros Hx. unfold ProcessWithMatlab.fft, ProcessWithMatlab._fftRecursive.
  rewrite length_map.
  destruct (Nat.leb_spec (length x) 1) as [Hle|Hgt].
  - destruct x as [|a [|b t]]; [congruence | | simpl in Hle; lia].
    eexists; split; [reflexivity|]. cbn. rewrite Rplus_0_r. reflexivity.
  - set (k := (nextPow2 (length x) - length x)%nat).
    match goal with |- context [Radix2.fftRecursive ?y] =>
      replace y with (map (fun v => embed (v, 0)) (x ++ repeat 0 k))
        by (rewrite !map_app, !map_repeat, map_map; reflexivity)
    end.
    destruct (@exact_fftRecursive_first_bin (x ++ repeat 0 k) (Nat.log2_up (length x)))
      as (s & Hs & H0).
    { rewrite length_app, repeat_length. apply padded_pow2. }
    exists s. split; [exact Hs|]. rewrite H0, fold_right_Rplus_padded. reflexivity.
Qed.

Lemma exact_utils_fft_first_bin (x : list R) :
  x <> [] ->
  exists s,
    @Utils.fft Exact.number exact_trig (map Re (map Fin x)) = Ok s /\
    nth_error s 0 =
      Some (Some (@Complex Exact.number (Fin (fold_right Rplus 0 x)) (Fin 0))).
Proof.
  intros Hx. unfold Utils.fft, Utils.fftRecursive.
  rewrite !length_map.
  destruct (Nat.leb_spec (length x) 1) as [Hle|Hgt].
  - destruct x as [|a [|b t]]; [congruence | | simpl in Hle; lia].
    eexists; split; [reflexivity|]. cbn. rewrite Rplus_0_r. reflexivity.
  - set (k := (nextPow2 (length x) - length x)%nat).
    match goal with |- context [Radix2.fftRecursive ?y] =>
      replace y with (map (fun v => embed (v, 0)) (x ++ repeat 0 k))
    end.
    2:{ destruct (Nat.eqb_spec (length x) (nextPow2 (length x))) as [E|E]; cbn [negb].
        - replace k with 0%nat by (unfold k; lia). cbn [repeat]. rewrite app_nil_r.
          rewrite !map_map. reflexivity.
        - rewrite !map_app, !map_repeat, !map_map. reflexivity. }
    destruct (@exact_fftRecursive_first_bin (x ++ repeat 0 k) (Nat.log2_up (length x)))
      as (s & Hs & H0).
    { rewrite length_app, repeat_length. apply padded_pow2. }
    exists s. split; [exact Hs|]. rewrite H0, fold_right_Rplus_padded. reflexivity.
Qed.

End FirstBin.

(** X13: In exact arithmetic the first bin of the spectrum that fft returns on a
    non-empty array of real samples is the sum of the samples, with
    imaginary part 0, in each copy of fft that pads: the zeros appended
    change no sum. *)
Theorem fft_first_bin_is_sum (x : list R) :
  x <> [] ->
  let dc := @Complex Exact.number (Exact.Fin (fold_right Rplus 0%R x)) (Exact.Fin 0) in
  (exists s, @Utils.fft Exact.number exact_trig
               (map (@Re Exact.number) (map Exact.Fin x)) = Ok s /\
             nth_error s 0 = Some (Some dc)) /\
  (exists s, @ProcessWithMatlab.fft Exact.number exact_trig (map Exact.Fin x) = Ok s /\
             nth_error s 0 = Some (Some dc)) /\
  (exists s, @Gui.fft Exact.number exact_trig (map Exact.Fin x) = Ok s /\
             nth_error s 0 = Some (Some dc)).
Proof.
  intros Hx dc. split; [|split].
  - apply exact_utils_fft_first_bin; exact Hx.
  - apply exact_pwm_fft_first_bin; exact Hx.
  - exact (exact_pwm_fft_first_bin Hx).
Qed.

Lemma fft_first_bin_is_sum_witness :
  exists s, @ProcessWithMatlab.fft Exact.number exact_trig
              (map Exact.Fin [1; 2; 4]%R) = Ok s /\
            nth_error s 0 =
              Some (Some (@Complex Exact.number
                            (Exact.Fin (fold_right Rplus 0%R [1; 2; 4]%R)) (Exact.Fin 0))).
Proof.
  apply (proj1 (proj2 (fft_first_bin_is_sum (x:=[1; 2; 4]%R) ltac:(discriminate)))).
Defined.

(** ** preprocessBoore and performFourierAnalysis of earthquakeAnalysis.js *)

Section GuiPreprocess.
Context {N : Number} {T : Trig N}.

Lemma odd_half n : (n mod 2 =? 0) = false -> (n + 1) / 2 = n / 2 + 1.
Proof.
  intros H. apply Nat.eqb_neq in H.
  pose proof (Nat.div_mod_eq n 2). pose proof (Nat.mod_upper_bound n 2).
  symmetry. apply (Nat.div_unique (n + 1) 2 (n / 2 + 1) 0); lia.
Qed.

Lemma gui_preprocessBoore_eq (data : list num) (fs cornerFreq : num) :
  Gui.preprocessBoore data fs cornerFreq =
  ProcessWithMatlab.highPassFilter data fs cornerFreq.
Proof.
  unfold Gui.preprocessBoore, ProcessWithMatlab.highPassFilter.
  change (Gui.fft (Gui.detrend data))
    with (ProcessWithMatlab.fft (ProcessWithMatlab.detrend data)).
  destruct (ProcessWithMatlab.fft (ProcessWithMatlab.detrend data)) as [fftData|e];
    [|reflexivity].
  cbn [bind]. destruct (length fftData mod 2 =? 0) eqn:E; [reflexivity|].
  rewrite (odd_half _ E). reflexivity.
Qed.

Lemma map_obj_from_nth {A B} (f : A -> nat -> B) (a : jsarray A) : forall k l i v,
  map_obj_from k f a = Ok l -> nth_error a i = Some (Some v) ->
  nth_error l i = Some (f v (k + i)).
Proof.
  induction a as [|o t IH]; intros k l i v Hl Hi; [destruct i; discriminate|].
  cbn [map_obj_from] in Hl. destruct o as [w|]; [|discriminate].
  cbn [obj bind] in Hl.
  destruct (map_obj_from (S k) f t) as [r|e] eqn:Er; [|discriminate].
  cbn [bind] in Hl. injection Hl as <-.
  destruct i as [|i].
  - cbn in Hi. injection Hi as ->. rewrite Nat.add_0_r. reflexivity.
  - cbn [nth_error] in *. rewrite (IH _ _ _ _ Er Hi). f_equal. f_equal. lia.
Qed.

Lemma doubling_loop (a : jsarray num) :
  dense a ->
  let a' := fold_left (fun P1 i => js_set i (P1.{i} * #2)%num P1)
                      (seq 1 (length a - 1 - 1)) a in
  length a' = length a /\ dense a' /\ nth_error a' 0 = nth_error a 0.
Proof.
  intros Hd.
  apply (@fold_left_seq_invariant _
           (fun (_ : nat) (b : jsarray num) =>
              length b = length a /\ dense b /\ nth_error b 0 = nth_error a 0)
           _ (length a - 1 - 1) 1).
  - auto.
  - intros i b Hi (Hl & Hb & H0).
    split; [|split].
    + rewrite js_set_length_in; lia.
    + apply js_set_dense; [exact Hb | lia].
    + rewrite js_set_keeps_first by lia. exact H0.
Qed.

Lemma gui_performFourierAnalysis_ok {H : Host N} (signal : list num) (fs : num) :
  let n := if (length signal =? 0)%nat then 0 else length signal / 2 + 1 in
  exists Y P2 r,
    Gui.fft signal = Ok Y /\
    map_obj (fun val _ =>
               (Math_sqrt (real val * real val + imag val * imag val)
                / of_nat (length signal))%num) Y = Ok P2 /\
    Gui.performFourierAnalysis signal fs = Ok r /\
    length (Gui.fa_frequencies r) = n /\
    length (Gui.fa_amplitudes r) = n /\
    length (Gui.fa_phases r) = n /\
    dense (Gui.fa_amplitudes r) /\
    nth_error (Gui.fa_amplitudes r) 0 = option_map Some (nth_error P2 0).
Proof.
  intros n. unfold Gui.performFourierAnalysis.
  destruct (gui_fft_ok signal) as (Y & HY & HlY & HdY).
  exists Y. rewrite HY. cbn [bind].
  match goal with |- context [map_obj ?f Y] =>
    destruct (map_obj_ok f HdY) as (P2 & HP2 & HlP2)
  end.
  exists P2. rewrite HP2. cbn [bind].
  match goal with |- context [map_obj ?f (firstn ?k Y)] =>
    destruct (map_obj_ok f (dense_firstn k HdY)) as (ph & Hph & Hlph)
  end.
  rewrite Hph. cbn [bind].
  eexists. split; [reflexivity|]. split; [reflexivity|]. split; [reflexivity|].
  cbn [Gui.fa_frequencies Gui.fa_amplitudes Gui.fa_phases].
  assert (Hn : Nat.min (length signal / 2 + 1) (padded_length (length signal)) = n).
  { unfold n. pose proof (padded_length_ge (length signal)) as Hge.
    destruct (Nat.eqb_spec (length signal) 0) as [E|E].
    - rewrite E. reflexivity.
    - assert (length signal / 2 < length signal) by (apply Nat.div_lt; lia). lia. }
  match goal with |- context [fold_left ?F (seq 1 (length ?a - 1 - 1)) ?a] =>
    destruct (@doubling_loop a) as (Hl & Hd & H0); [apply dense_map_Some|];
    assert (Ha : length a = n)
      by (rewrite length_map, length_firstn, HlP2, HlY; exact Hn);
    cbv zeta in Hl, Hd, H0;
    set (P1 := fold_left F (seq 1 (length a - 1 - 1)) a) in *
  end.
  rewrite length_tabulate, Hl, Ha, Hlph, length_firstn, HlY, Hn.
  repeat split; auto.
  rewrite H0, nth_error_map. clear. f_equal.
  replace (length signal / 2 + 1)%nat with (S (length signal / 2)) by lia.
  destruct P2; reflexivity.
Qed.

End GuiPreprocess.

(** X14: preprocessBoore of earthquakeAnalysis.js checks nothing and pads: on
    every input it returns, an array of the length of its input, and it
    computes what highPassFilter of processWithMatlab.js computes.  Its two
    branches for a transform of even and of odd length start the mirroring
    loop at the same index. *)
Theorem gui_preprocessBoore_always_returns {N : Number} {T : Trig N}
  (data : list num) (fs cornerFreq : num) :
  Gui.preprocessBoore data fs cornerFreq =
    ProcessWithMatlab.highPassFilter data fs cornerFreq /\
  exists out, Gui.preprocessBoore data fs cornerFreq = Ok out /\
              length out = length data.
Proof.
  split; [apply gui_preprocessBoore_eq|].
  rewrite gui_preprocessBoore_eq. apply pwm_highPassFilter_length.
Qed.

(** X15: performFourierAnalysis always returns, and its three arrays have the same
    length: none for an empty signal, floor(L/2) + 1 for a signal of L
    samples; the amplitudes have no hole. *)
Theorem performFourierAnalysis_shape {N : Number} {T : Trig N} {H : Host N}
  (signal : list num) (fs : num) :
  let n := if (length signal =? 0)%nat then 0 else length signal / 2 + 1 in
  exists r,
    Gui.performFourierAnalysis signal fs = Ok r /\
    length (Gui.fa_frequencies r) = n /\
    length (Gui.fa_amplitudes r) = n /\
    length (Gui.fa_phases r) = n /\
    dense (Gui.fa_amplitudes r).
Proof.
  intros n.
  destruct (gui_performFourierAnalysis_ok signal fs)
    as (Y & P2 & r & _ & _ & Hr & H1 & H2 & H3 & H4 & _).
  exists r. auto.
Qed.

Section FourierAnalysisExact.
Import Exact.
Local Open Scope R_scope.

Lemma exact_first_amplitude (s : R) (L : nat) :
  (1 <= L)%nat ->
  (Math_sqrt (Fin s * Fin s + Fin 0 * Fin 0) / of_nat L)%num = Fin (Rabs s / INR L).
Proof.
  intros HL. unfold of_nat.
  cbn [js_mul js_add js_div Math_sqrt of_Z number xmul xadd xsqrt].
  destruct (Rlt_dec (s * s + 0 * 0) 0) as [Hneg|_]; [exfalso; nra|].
  rewrite exact_div by (apply IZR_of_nat_pos; exact HL).
  rewrite <- INR_IZR_INZ. f_equal. f_equal.
  replace (s * s + 0 * 0) with (Rsqr s) by (unfold Rsqr; ring).
  apply sqrt_Rsqr_abs.
Qed.

End FourierAnalysisExact.

(** X16: In exact arithmetic the first amplitude that performFourierAnalysis
    reports for a non-empty signal is the absolute value of the mean of the
    samples: |x_0 + ... + x_(L-1)| / L. *)
Theorem fourier_analysis_first_amplitude (H : Host Exact.number) (x : list R)
  (fs : Exact.xreal) :
  x <> [] ->
  exists r,
    @Gui.performFourierAnalysis Exact.number exact_trig H (map Exact.Fin x) fs = Ok r /\
    nth_error (Gui.fa_amplitudes r) 0 =
      Some (Some (Exact.Fin (Rabs (fold_right Rplus 0%R x) / INR (length x)))).
Proof.
  intros Hx.
  destruct (@gui_performFourierAnalysis_ok Exact.number exact_trig H (map Exact.Fin x) fs)
    as (Y & P2 & r & HY & HP2 & Hr & _ & _ & _ & _ & H0).
  exists r. split; [exact Hr|]. rewrite H0.
  destruct (exact_pwm_fft_first_bin Hx) as (Y' & HY' & Hdc).
  change (@ProcessWithMatlab.fft Exact.number exact_trig (map Exact.Fin x))
    with (@Gui.fft Exact.number exact_trig (map Exact.Fin x)) in HY'.
  rewrite HY in HY'. injection HY' as <-.
  rewrite (@map_obj_from_nth _ _ _ _ _ _ _ _ HP2 Hdc). cbn [option_map real imag].
  rewrite length_map. do 2 f_equal.
  apply exact_first_amplitude. destruct x; [congruence | simpl; lia].
Qed.

Lemma fourier_analysis_first_amplitude_witness :
  let H := @Build_Host Exact.number (fun x => x) (fun x _ => x) (fun x _ => x)
                       (fun _ => "0"%string) in
  exists r,
    @Gui.performFourierAnalysis Exact.number exact_trig H
       (map Exact.Fin [1; -2; 4]%R) (Exact.Fin 100) = Ok r /\
    nth_error (Gui.fa_amplitudes r) 0 =
      Some (Some (Exact.Fin (Rabs (fold_right Rplus 0%R [1; -2; 4]%R) / INR 3))).
Proof.
  intros H.
  apply (@fourier_analysis_first_amplitude H [1; -2; 4]%R (Exact.Fin 100)).
  discriminate.
Defined.

(** ** detrend *)

Section DetrendExact.
Import Exact LeastSquares.
Local Open Scope R_scope.

Lemma exact_of_nat (i : nat) : of_nat (N:=Exact.number) i = Fin (INR i).
Proof. unfold of_nat. cbn [of_Z number]. rewrite <- INR_IZR_INZ. reflexivity. Qed.

Lemma exact_add (a b : R) : js_add (Number:=Exact.number) (Fin a) (Fin b) = Fin (a + b).
Proof. reflexivity. Qed.

Lemma exact_sub (a b : R) : js_sub (Number:=Exact.number) (Fin a) (Fin b) = Fin (a - b).
Proof. reflexivity. Qed.

Lemma exact_mul (a b : R) : js_mul (Number:=Exact.number) (Fin a) (Fin b) = Fin (a * b).
Proof. reflexivity. Qed.

Lemma tabulate_of_nat n :
  tabulate n (of_nat (N:=Exact.number)) = map (fun i => Fin (INR i)) (seq 0 n).
Proof. unfold tabulate. apply map_ext. exact exact_of_nat. Qed.

Lemma exact_fold_add (g : nat -> R) (l : list nat) : forall a0,
  fold_left (fun a b : num => (a + b)%num) (map (fun i => Fin (g i)) l) (Fin a0) =
  Fin (a0 + fold_right Rplus 0 (map g l)).
Proof.
  induction l as [|i l IH]; intros a0; cbn [map fold_left fold_right].
  - f_equal. ring.
  - rewrite exact_add, IH. f_equal. ring.
Qed.

Lemma exact_fold_squares (g : nat -> R) (l : list nat) : forall a0,
  fold_left (fun sum xi : num => (sum + xi * xi)%num) (map (fun i => Fin (g i)) l) (Fin a0) =
  Fin (a0 + fold_right Rplus 0 (map (fun i => g i * g i) l)).
Proof.
  induction l as [|i l IH]; intros a0; cbn [map fold_left fold_right].
  - f_equal. ring.
  - rewrite exact_mul, exact_add, IH. f_equal. ring.
Qed.

Lemma exact_reducei_products (ys : list R) (c : nat) : forall k a0,
  (k + c <= length ys)%nat ->
  reducei_from k (fun (sum xi : num) (i : nat) => (sum + xi * (map Fin ys).[i])%num)
               (map (fun i => Fin (INR i)) (seq k c)) (Fin a0) =
  Fin (a0 + fold_right Rplus 0 (map (fun i => INR i * nth i ys 0) (seq k c))).
Proof.
  induction c as [|c IH]; intros k a0 Hk; cbn [seq map reducei_from fold_right].
  - f_equal. ring.
  - rewrite exact_at by lia. rewrite exact_mul, exact_add.
    rewrite IH by lia. f_equal. ring.
Qed.

Lemma map_Fin_seq (ys : list R) :
  map Fin ys = map (fun i => Fin (nth i ys 0)) (seq 0 (length ys)).
Proof. symmetry. exact (tabulate_nth Fin ys 0). Qed.

Lemma exact_sumX n :
  fold_left (fun a b : num => (a + b)%num) (tabulate n (of_nat (N:=Exact.number))) #0%num =
  Fin (sumX n).
Proof.
  rewrite tabulate_of_nat. change (#0)%num with (Fin 0).
  rewrite exact_fold_add. unfold sumX, rsum. f_equal. ring.
Qed.

Lemma exact_sumXX n :
  fold_left (fun sum xi : num => (sum + xi * xi)%num)
            (tabulate n (of_nat (N:=Exact.number))) #0%num =
  Fin (sumXX n).
Proof.
  rewrite tabulate_of_nat. change (#0)%num with (Fin 0).
  rewrite exact_fold_squares. unfold sumXX, rsum. f_equal. ring.
Qed.

Lemma exact_sumY ys :
  fold_left (fun a b : num => (a + b)%num) (map Fin ys) #0%num = Fin (sumY ys).
Proof.
  rewrite map_Fin_seq. change (#0)%num with (Fin 0).
  rewrite exact_fold_add. unfold sumY, rsum. f_equal. ring.
Qed.

Lemma exact_sumXY ys :
  reducei (fun (sum xi : num) (i : nat) => (sum + xi * (map Fin ys).[i])%num)
          (tabulate (length ys) (of_nat (N:=Exact.number))) #0%num =
  Fin (sumXY ys).
Proof.
  rewrite tabulate_of_nat. change (#0)%num with (Fin 0). unfold reducei.
  rewrite exact_reducei_products by lia. unfold sumXY, rsum. f_equal. ring.
Qed.

Lemma mapi_from_nth {A B} (f : A -> nat -> B) (d : A) (l : list A) : forall k,
  mapi_from k f l = map (fun i => f (nth (i - k) l d) i) (seq k (length l)).
Proof.
  induction l as [|a t IH]; intros k; cbn [mapi_from length seq map]; [reflexivity|].
  rewrite Nat.sub_diag. cbn [nth]. f_equal.
  rewrite IH. apply map_ext_in. intros i Hi. apply in_seq in Hi.
  replace (i - k)%nat with (S (i - S k)) by lia. reflexivity.
Qed.

(** the body of detrend, shared by the four copies, in exact arithmetic *)
Lemma exact_detrend_body (ys : list R) :
  (2 <= length ys)%nat ->
  (let data := map Fin ys in
   let n := length data in
   let x := tabulate n of_nat in
   let sumX := fold_left (fun a b => a + b) x #0 in
   let sumY := fold_left (fun a b => a + b) data #0 in
   let sumXY := reducei (fun sum xi i => sum + xi * data.[i]) x #0 in
   let sumXX := fold_left (fun sum xi => sum + xi * xi) x #0 in
   let slope := (of_nat n * sumXY - sumX * sumY) / (of_nat n * sumXX - sumX * sumX) in
   let intercept := (sumY - slope * sumX) / of_nat n in
   mapi (fun yi i => yi - (slope * of_nat i + intercept)) data)%num =
  map Fin (residuals ys).
Proof.
  intros Hn. cbv zeta. rewrite length_map.
  rewrite exact_sumX, exact_sumXX, exact_sumY, exact_sumXY, exact_of_nat.
  rewrite !exact_mul, !exact_sub.
  rewrite exact_div by (apply denominator_nonzero; exact Hn).
  fold (slope ys).
  rewrite exact_mul, exact_sub.
  rewrite exact_div by (apply not_0_INR; lia).
  fold (intercept ys).
  unfold mapi. rewrite (mapi_from_nth _ (Fin 0)), length_map.
  unfold residuals. rewrite map_map.
  apply map_ext. intros i. rewrite Nat.sub_0_r, exact_of_nat.
  pose proof (map_nth Fin ys 0 i) as E.
  cbn [num number] in *. rewrite E. reflexivity.
Qed.

Lemma exact_utils_detrend (ys : list R) :
  (2 <= length ys)%nat ->
  Utils.detrend (N:=Exact.number) (map Fin ys) = map Fin (residuals ys).
Proof.
  intros Hn. unfold Utils.detrend.
  match goal with |- (if ?c then _ else _) = _ =>
    replace c with false by (symmetry; apply Nat.ltb_ge; rewrite length_map; exact Hn)
  end.
  exact (@exact_detrend_body ys Hn).
Qed.

Lemma exact_utils_mean (ys : list R) :
  ys <> [] ->
  Utils.mean (N:=Exact.number) (map Fin ys) = Fin (sumY ys / INR (length ys)).
Proof.
  intros Hne. unfold Utils.mean. rewrite exact_sumY, length_map, exact_of_nat.
  apply exact_div. apply not_0_INR. destruct ys; [congruence | discriminate].
Qed.

End DetrendExact.

Section DetrendCopies.
Context {N : Number}.

(** from two samples on, the four copies of detrend compute the same *)
Lemma detrend_copies (data : list num) :
  2 <= length data ->
  ProcessWithMatlab.detrend data = Utils.detrend data /\
  Gui.detrend data = Utils.detrend data /\
  Filters.detrend data = Utils.detrend data.
Proof.
  intros Hn. unfold ProcessWithMatlab.detrend, Gui.detrend, Filters.detrend, Utils.detrend.
  destruct (Nat.ltb_spec (length data) 2) as [H|_]; [lia|].
  destruct (Nat.eqb_spec (length data) 0) as [H|_]; [lia|].
  auto.
Qed.

End DetrendCopies.

(** X17: In exact arithmetic detrend removes a line exactly: on at least two
    samples a + b i, i = 0, 1, ..., each of the four copies returns zeros. *)
Theorem detrend_removes_a_line (a b : R) (n : nat) :
  2 <= n ->
  let data := tabulate n (fun i => Exact.Fin (a + b * INR i)) in
  Utils.detrend (N:=Exact.number) data = repeat (Exact.Fin 0) n /\
  ProcessWithMatlab.detrend (N:=Exact.number) data = repeat (Exact.Fin 0) n /\
  Gui.detrend (N:=Exact.number) data = repeat (Exact.Fin 0) n /\
  Filters.detrend (N:=Exact.number) data = repeat (Exact.Fin 0) n.
Proof.
  intros Hn data.
  assert (Hd : data = map Exact.Fin (map (fun i => (a + b * INR i)%R) (seq 0 n)))
    by (unfold data, tabulate; rewrite map_map; reflexivity).
  assert (Hl : 2 <= length data) by (unfold data; rewrite length_tabulate; exact Hn).
  destruct (@detrend_copies Exact.number data Hl) as (-> & -> & ->).
  assert (H : Utils.detrend (N:=Exact.number) data = repeat (Exact.Fin 0) n).
  { rewrite Hd, exact_utils_detrend by (rewrite length_map, length_seq; exact Hn).
    rewrite residuals_line by exact Hn. apply map_repeat. }
  auto.
Qed.

Lemma detrend_removes_a_line_witness :
  Utils.detrend (N:=Exact.number)
    (tabulate 3 (fun i => Exact.Fin (5 + 2 * INR i))) = repeat (Exact.Fin 0) 3.
Proof.
  apply (proj1 (@detrend_removes_a_line 5 2 3 ltac:(lia))).
Defined.

(** X18: In exact arithmetic, what detrend returns on at least two finite samples
    has mean 0, and detrend returns it unchanged: detrending twice is
    detrending once. *)
Theorem detrend_output_has_no_trend (ys : list R) :
  2 <= length ys ->
  exists out : list R,
    Utils.detrend (N:=Exact.number) (map Exact.Fin ys) = map Exact.Fin out /\
    length out = length ys /\
    Utils.mean (N:=Exact.number) (map Exact.Fin out) = Exact.Fin 0 /\
    Utils.detrend (N:=Exact.number) (map Exact.Fin out) = map Exact.Fin out.
Proof.
  intros Hn. exists (LeastSquares.residuals ys).
  pose proof (residuals_length ys) as Hl.
  split; [apply exact_utils_detrend; exact Hn|]. split; [exact Hl|]. split.
  - rewrite exact_utils_mean by (intros E; rewrite E in Hl; simpl in Hl; lia).
    rewrite sumY_residuals by exact Hn. f_equal. unfold Rdiv. apply Rmult_0_l.
  - rewrite exact_utils_detrend by (rewrite Hl; exact Hn).
    rewrite residuals_idempotent by exact Hn. reflexivity.
Qed.

Lemma detrend_output_has_no_trend_witness :
  exists out : list R,
    Utils.detrend (N:=Exact.number) (map Exact.Fin [1; 4; 2]%R) = map Exact.Fin out /\
    length out = 3 /\
    Utils.mean (N:=Exact.number) (map Exact.Fin out) = Exact.Fin 0 /\
    Utils.detrend (N:=Exact.number) (map Exact.Fin out) = map Exact.Fin out.
Proof.
  apply (@detrend_output_has_no_trend [1; 4; 2]%R). simpl. lia.
Defined.

(** ** detrend of a single sample *)

Section DetrendOneSample.
Import PrimFloat SpecFloat FloatOps FloatAxioms.
Local Existing Instance Float64.number.

Lemma binary64_filters_detrend_one (x : float) :
  Filters.detrend [x] = [nan].
Proof.
  unfold Filters.detrend.
  cbn [length Nat.eqb tabulate seq map fold_left reducei reducei_from mapi mapi_from
       at_ nth_error to_num of_nat Z.of_nat of_Z js_add js_sub js_mul js_div
       Float64.number Float64.float_of_Z Pos.of_succ_nat num].
  f_equal.
  match goal with |- ?t = _ => rewrite <- (SF2Prim_Prim2SF t) end.
  repeat first [rewrite sub_spec | rewrite add_spec | rewrite div_spec | rewrite mul_spec].
  destruct (Prim2SF x) as [s|s| |s m e]; try destruct s; reflexivity.
Qed.

End DetrendOneSample.

Section DetrendOneSampleExact.
Import Exact.
Local Open Scope R_scope.

Local Ltac decide_reals :=
  repeat (cbn [xadd xsub xmul xdiv xneg]; unfold Rsign_inf;
          match goal with
          | |- context [Rlt_dec ?a ?b] =>
              destruct (Rlt_dec a b); try (exfalso; lra)
          | |- context [Req_dec_T ?a ?b] =>
              destruct (Req_dec_T a b); try (exfalso; lra)
          end).

Lemma exact_filters_detrend_one (x : xreal) :
  Filters.detrend (N:=Exact.number) [x] = [XNaN].
Proof.
  unfold Filters.detrend.
  cbn [length Nat.eqb tabulate seq map fold_left reducei reducei_from mapi mapi_from
       at_ nth_error to_num of_nat Z.of_nat of_Z js_add js_sub js_mul js_div
       number num Pos.of_succ_nat].
  destruct x as [r| | |]; decide_reals; reflexivity.
Qed.

End DetrendOneSampleExact.

(** X19: On a single sample the copies of detrend part ways.  Those of utils.js,
    processWithMatlab.js and earthquakeAnalysis.js return the sample
    unchanged.  The one of filters.js only sets the empty array apart: it
    fits a line to one point, divides 0 by 0, and returns [NaN], in binary64
    as in exact arithmetic, whatever the sample. *)
Theorem detrend_of_one_sample :
  (forall (N : Number) (x : num),
     Utils.detrend [x] = [x] /\
     ProcessWithMatlab.detrend [x] = [x] /\
     Gui.detrend [x] = [x]) /\
  (forall x : PrimFloat.float,
     Filters.detrend (N:=Float64.number) [x] = [PrimFloat.nan]) /\
  (forall x : Exact.xreal,
     Filters.detrend (N:=Exact.number) [x] = [Exact.XNaN]).
Proof.
  split; [|split].
  - intros N x. repeat split.
  - exact binary64_filters_detrend_one.
  - exact exact_filters_detrend_one.
Qed.

(** ** interp1 of utils.js *)

Section Interp1Facts.
Context {N : Number}.


End Interp1Facts.



Section Interp1Exact.
Import Exact.
Local Open Scope R_scope.

Lemma exact_lt_true (a b : R) :
  a < b -> js_lt (Number:=Exact.number) (Fin a) (Fin b) = true.
Proof. intros H. cbn. destruct (Rlt_dec a b); [reflexivity | lra]. Qed.

Lemma exact_lt_false (a b : R) :
  b <= a -> js_lt (Number:=Exact.number) (Fin a) (Fin b) = false.
Proof. intros H. cbn. destruct (Rlt_dec a b); [lra | reflexivity]. Qed.

Lemma sorted_nth_lt (xs : list R) :
  StronglySorted Rlt xs ->
  forall i j, (i < j < length xs)%nat -> nth i xs 0 < nth j xs 0.
Proof.
  induction 1 as [|a l Hl IH Ha]; intros i j Hij; [simpl in Hij; lia|].
  destruct j as [|j]; [lia|]. cbn [nth]. destruct i as [|i].
  - rewrite Forall_forall in Ha. apply Ha. apply nth_In. simpl in Hij. lia.
  - apply IH. simpl in Hij. lia.
Qed.

Lemma sorted_nth_le (xs : list R) :
  StronglySorted Rlt xs ->
  forall i j, (i <= j < length xs)%nat -> nth i xs 0 <= nth j xs 0.
Proof.
  intros Hs i j Hij. destruct (Nat.eq_dec i j) as [->|Hne]; [lra|].
  left. apply sorted_nth_lt; [exact Hs | lia].
Qed.

(** the search loop stops at the knot just below the query point *)
Lemma interp1_search_finds (xs : list R) (v : R) (k : nat) :
  StronglySorted Rlt xs ->
  (k + 1 < length xs)%nat ->
  nth k xs 0 < v <= nth (k + 1) xs 0 ->
  forall fuel i, (i <= k)%nat -> (k - i < fuel)%nat ->
    Utils.interp1_search (N:=Exact.number) fuel (map Fin xs) (Fin v) i = k.
Proof.
  intros Hs Hk Hv. induction fuel as [|fuel IH]; intros i Hi Hf; [lia|].
  cbn [Utils.interp1_search]. rewrite length_map.
  destruct (Nat.ltb_spec i (length xs - 1)) as [_|H]; [|lia]. cbn [andb].
  rewrite exact_at by lia.
  destruct (Nat.eq_dec i k) as [->|Hne].
  - rewrite exact_lt_false by lra. reflexivity.
  - rewrite exact_lt_true.
    + apply IH; lia.
    + apply Rle_lt_trans with (nth k xs 0); [|lra].
      apply sorted_nth_le; [exact Hs | lia].
Qed.

Lemma interp1_exact_cases (xs ys : list R) (v : R) :
  length xs = length ys -> xs <> [] -> StronglySorted Rlt xs ->
  ((v <= nth 0 xs 0) ->
   Utils.interp1 (N:=Exact.number) (map Fin xs) (map Fin ys) [Fin v] =
   Ok [Fin (nth 0 ys 0)]) /\
  ((nth (length xs - 1) xs 0 <= v) ->
   Utils.interp1 (N:=Exact.number) (map Fin xs) (map Fin ys) [Fin v] =
   Ok [Fin (nth (length ys - 1) ys 0)]) /\
  (forall k, (k + 1 < length xs)%nat ->
     (nth k xs 0 < v <= nth (k + 1) xs 0) ->
     Utils.interp1 (N:=Exact.number) (map Fin xs) (map Fin ys) [Fin v] =
     Ok [Fin (nth k ys 0 +
                    (v - nth k xs 0) / (nth (k + 1) xs 0 - nth k xs 0) *
                    (nth (k + 1) ys 0 - nth k ys 0))]).
Proof.
  intros Hlen Hne Hs.
  assert (Hpos : (1 <= length xs)%nat) by (destruct xs; [congruence | simpl; lia]).
  assert (Hlow : (v <= nth 0 xs 0) ->
    Utils.interp1 (N:=Exact.number) (map Fin xs) (map Fin ys) [Fin v] =
    Ok [Fin (nth 0 ys 0)]).
  { intros Hv. unfold Utils.interp1. rewrite !length_map, Hlen, Nat.eqb_refl.
    cbn [negb map]. rewrite !exact_at by lia.
    rewrite exact_le_true by exact Hv. reflexivity. }
  assert (Hhigh : (nth (length xs - 1) xs 0 <= v) ->
    Utils.interp1 (N:=Exact.number) (map Fin xs) (map Fin ys) [Fin v] =
    Ok [Fin (nth (length ys - 1) ys 0)]).
  { intros Hv. unfold Utils.interp1. rewrite !length_map, Hlen, Nat.eqb_refl.
    cbn [negb map]. rewrite !exact_at by lia.
    destruct (Rle_dec v (nth 0 xs 0)) as [Hle|Hgt].
    - rewrite exact_le_true by exact Hle.
      assert (E : nth (length xs - 1) xs 0 = nth 0 xs 0).
      { apply Rle_antisym; [lra|]. apply sorted_nth_le; [exact Hs | lia]. }
      destruct (Nat.eq_dec (length xs - 1) 0) as [E0|E0].
      + rewrite <- Hlen, E0. reflexivity.
      + exfalso. pose proof (@sorted_nth_lt xs Hs 0%nat (length xs - 1)%nat ltac:(lia)). lra.
    - rewrite exact_le_false by lra.
      rewrite <- Hlen in *. rewrite exact_le_true by exact Hv. reflexivity. }
  assert (Hmid : forall k, (k + 1 < length xs)%nat ->
     (nth k xs 0 < v <= nth (k + 1) xs 0) ->
     Utils.interp1 (N:=Exact.number) (map Fin xs) (map Fin ys) [Fin v] =
     Ok [Fin (nth k ys 0 +
                    (v - nth k xs 0) / (nth (k + 1) xs 0 - nth k xs 0) *
                    (nth (k + 1) ys 0 - nth k ys 0))]).
  { intros k Hk Hv.
    pose proof (@sorted_nth_le xs Hs 0 k ltac:(lia)) as H0.
    pose proof (@sorted_nth_le xs Hs (k + 1) (length xs - 1) ltac:(lia)) as H1.
    pose proof (@sorted_nth_lt xs Hs k (k + 1) ltac:(lia)) as Hstep.
    destruct (Rle_dec (nth (length xs - 1) xs 0) v) as [Htop|Htop].
    - rewrite (Hhigh Htop).
      assert (Ev : v = nth (k + 1) xs 0) by lra.
      assert (Ek : (k + 1 = length xs - 1)%nat).
      { destruct (Nat.eq_dec (k + 1) (length xs - 1)) as [E|E]; [exact E|].
        exfalso.
        pose proof (@sorted_nth_lt xs Hs (k + 1)%nat (length xs - 1)%nat ltac:(lia)). lra. }
      rewrite <- Hlen, <- Ek, Ev. do 3 f_equal. field. lra.
    - unfold Utils.interp1. rewrite !length_map, Hlen, Nat.eqb_refl.
      cbn [negb map]. rewrite <- Hlen.
      rewrite (@interp1_search_finds xs v k Hs Hk Hv) by lia.
      rewrite !exact_at by lia.
      rewrite exact_le_false by lra. rewrite exact_le_false by lra.
      rewrite !exact_sub, exact_div by lra.
      rewrite exact_mul, exact_add. reflexivity. }
  split; [exact Hlow|]. split; [exact Hhigh | exact Hmid].
Qed.

(** X21: In exact arithmetic, for knots x_0 < x_1 < ... and values y of the same
    length, interp1 is the piecewise linear interpolant with constant
    extrapolation: a query at or below x_0 gives y_0, one at or above the
    last knot gives the last value, and one with x_k < v <= x_(k+1) gives
    y_k + (v - x_k) / (x_(k+1) - x_k) (y_(k+1) - y_k); at a knot this is the
    value at the knot. *)
Theorem interp1_piecewise_linear (xs ys : list R) (v : R) :
  length xs = length ys -> xs <> [] -> StronglySorted Rlt xs ->
  ((v <= nth 0 xs 0) ->
   Utils.interp1 (N:=Exact.number) (map Fin xs) (map Fin ys) [Fin v] =
   Ok [Fin (nth 0 ys 0)]) /\
  ((nth (length xs - 1) xs 0 <= v) ->
   Utils.interp1 (N:=Exact.number) (map Fin xs) (map Fin ys) [Fin v] =
   Ok [Fin (nth (length ys - 1) ys 0)]) /\
  (forall k, (k + 1 < length xs)%nat ->
     (nth k xs 0 < v <= nth (k + 1) xs 0) ->
     Utils.interp1 (N:=Exact.number) (map Fin xs) (map Fin ys) [Fin v] =
     Ok [Fin (nth k ys 0 +
                    (v - nth k xs 0) / (nth (k + 1) xs 0 - nth k xs 0) *
                    (nth (k + 1) ys 0 - nth k ys 0))]) /\
  (forall k, (k < length xs)%nat ->
     Utils.interp1 (N:=Exact.number) (map Fin xs) (map Fin ys)
                   [Fin (nth k xs 0)] =
     Ok [Fin (nth k ys 0)]).
Proof.
  intros Hlen Hne Hs.
  destruct (@interp1_exact_cases xs ys v Hlen Hne Hs) as (Hlow & Hhigh & Hmid).
  split; [exact Hlow|]. split; [exact Hhigh|]. split; [exact Hmid|].
  intros k Hk. destruct k as [|k].
  - apply (@interp1_exact_cases xs ys (nth 0 xs 0) Hlen Hne Hs). lra.
  - replace (S k) with (k + 1)%nat by lia.
    pose proof (@sorted_nth_lt xs Hs k (k + 1)%nat ltac:(lia)) as Hstep.
    destruct (@interp1_exact_cases xs ys (nth (k + 1) xs 0) Hlen Hne Hs) as (_ & _ & H).
    rewrite (H k) by first [lia | lra].
    do 3 f_equal. field. lra.
Qed.

Lemma interp1_piecewise_linear_witness :
  Utils.interp1 (N:=Exact.number) (map Fin [0; 1; 3]) (map Fin [5; 7; 4]) [Fin 2] =
  Ok [Fin (7 + (2 - 1) / (3 - 1) * (4 - 7))].
Proof.
  apply (proj1 (proj2 (proj2 (@interp1_piecewise_linear [0; 1; 3] [5; 7; 4] 2
           eq_refl ltac:(discriminate)
           ltac:(repeat constructor; lra)))) 1%nat); simpl; [lia | lra].
Defined.

End Interp1Exact.

(** ** Arias intensity: the cumulative curve *)

Section AriasCumulative.
Context {N : Number}.

Lemma pwm_arias_cumulative (time acceleration : list num) :
  length time = length acceleration ->
  let accSquared := map (fun a => (a * a)%num) (map (fun a => (a / #100)%num) acceleration) in
  let curve := fun k =>
    ((Math_PI / (#2 * ProcessWithMatlab.gravitationalAccel)) *
     trapezoid_sum time accSquared k * #100)%num in
  exists r, ProcessWithMatlab.calculateAriasIntensity time acceleration = Ok r /\
            ProcessWithMatlab.cumulative r =
              map curve (seq 0 (Nat.max 1 (length acceleration))) /\
            ProcessWithMatlab.total r = curve (Nat.max 1 (length acceleration) - 1).
Proof.
  intros Hlen accSquared curve. unfold ProcessWithMatlab.calculateAriasIntensity.
  fold accSquared.
  assert (Hl : length time = length accSquared)
    by (unfold accSquared; rewrite !length_map; exact Hlen).
  rewrite (pwm_cumtrapz_eq time accSquared Hl). cbn [bind].
  rewrite map_num_map, length_map, length_seq.
  assert (Hn : length accSquared = length acceleration)
    by (unfold accSquared; rewrite !length_map; reflexivity).
  rewrite Hn.
  rewrite (at_map_seq (fun k => (Math_PI / (#2 * ProcessWithMatlab.gravitationalAccel) *
                                 trapezoid_sum time accSquared k)%num)) by lia.
  eexists. split; [reflexivity|].
  cbn [ProcessWithMatlab.cumulative ProcessWithMatlab.total].
  rewrite map_map. split; reflexivity.
Qed.

End AriasCumulative.

Section AriasCumulativeExact.
Import Exact.
Local Open Scope R_scope.

(** the running integral of a non-negative integrand over non-decreasing
    times: finite, non-negative, non-decreasing *)
Lemma exact_trapezoid_monotone (ts ds : list R) :
  length ts = length ds ->
  (forall i, (S i < length ts)%nat -> nth i ts 0 <= nth (S i) ts 0) ->
  (forall i, 0 <= nth i ds 0) ->
  forall k, (k < length ts)%nat ->
    exists c, trapezoid_sum (N:=Exact.number) (map Fin ts) (map Fin ds) k = Fin c /\
              0 <= c /\
              ((S k < length ts)%nat ->
               exists d, trapezoid_sum (N:=Exact.number) (map Fin ts) (map Fin ds) (S k)
                         = Fin d /\ c <= d).
Proof.
  intros Hlen Ht Hd.
  assert (Hstep : forall k c, (S k < length ts)%nat ->
            trapezoid_sum (N:=Exact.number) (map Fin ts) (map Fin ds) k = Fin c ->
            exists d, trapezoid_sum (N:=Exact.number) (map Fin ts) (map Fin ds) (S k)
                      = Fin d /\ c <= d).
  { intros k c Hk Hc. cbn [trapezoid_sum]. rewrite Hc.
    rewrite !exact_at by lia. rewrite exact_dec by lra.
    rewrite exact_add, exact_sub, !exact_mul, exact_add.
    eexists. split; [reflexivity|].
    pose proof (Ht k Hk). pose proof (Hd k). pose proof (Hd (S k)).
    assert (0 <= 5 / 10 * (nth (S k) ds 0 + nth k ds 0) * (nth (S k) ts 0 - nth k ts 0)).
    { apply Rmult_le_pos; [|lra]. apply Rmult_le_pos; lra. }
    change (IZR 5 / IZR 10) with (5 / 10). lra. }
  induction k as [|k IH]; intros Hk.
  - exists 0. split; [reflexivity|]. split; [lra|].
    intros Hk'. apply Hstep; [exact Hk' | reflexivity].
  - destruct IH as (c & Hc & Hc0 & Hnext); [lia|].
    destruct (Hnext Hk) as (d & Hd' & Hcd).
    exists d. split; [exact Hd'|]. split; [lra|].
    intros Hk'. apply Hstep; assumption.
Qed.

Lemma exact_arias_factor :
  (Math_PI / (#2 * ProcessWithMatlab.gravitationalAccel))%num =
  Fin (PI / (2 * (981 / 100))).
Proof.
  unfold ProcessWithMatlab.gravitationalAccel. rewrite exact_dec by lra.
  change (#2%num) with (Fin 2). rewrite exact_mul.
  change (Math_PI (Number:=Exact.number)) with (Fin PI).
  rewrite exact_div by lra. reflexivity.
Qed.

Lemma exact_squares (accs : list R) :
  map (fun a : num => (a * a)%num) (map (fun a : num => (a / #100)%num) (map Fin accs)) =
  map Fin (map (fun a => a / 100 * (a / 100)) accs).
Proof.
  rewrite !map_map. apply map_ext. intros a.
  change (#100%num) with (Fin 100). rewrite exact_div by lra. apply exact_mul.
Qed.

End AriasCumulativeExact.

(** X22: In exact arithmetic, for finite samples and a time array that never
    decreases, the cumulative Arias intensity that calculateAriasIntensity
    of processWithMatlab.js returns starts at 0, is finite and never
    decreases, and the reported total is its last value. *)
Theorem arias_cumulative_is_nondecreasing (ts accs : list R) :
  length ts = length accs -> ts <> [] ->
  (forall i, S i < length ts -> (nth i ts 0 <= nth (S i) ts 0)%R) ->
  exists r,
    ProcessWithMatlab.calculateAriasIntensity (N:=Exact.number)
      (map Exact.Fin ts) (map Exact.Fin accs) = Ok r /\
    length (ProcessWithMatlab.cumulative r) = length ts /\
    nth_error (ProcessWithMatlab.cumulative r) 0 = Some (Exact.Fin 0) /\
    nth_error (ProcessWithMatlab.cumulative r) (length ts - 1) =
      Some (ProcessWithMatlab.total r) /\
    forall i, S i < length ts ->
      exists a b,
        nth_error (ProcessWithMatlab.cumulative r) i = Some (Exact.Fin a) /\
        nth_error (ProcessWithMatlab.cumulative r) (S i) = Some (Exact.Fin b) /\
        (0 <= a <= b)%R.
Proof.
  intros Hlen Hne Ht.
  assert (Hpos : 1 <= length ts) by (destruct ts; [congruence | simpl; lia]).
  destruct (pwm_arias_cumulative (N:=Exact.number) (map Exact.Fin ts) (map Exact.Fin accs))
    as (r & Hr & Hc & Htot); [rewrite !length_map; exact Hlen|].
  exists r. split; [exact Hr|].
  rewrite length_map in Hc, Htot. rewrite <- Hlen in Hc, Htot.
  replace (Nat.max 1 (length ts)) with (length ts) in Hc, Htot by lia.
  rewrite exact_squares, exact_arias_factor in Hc, Htot.
  set (ds := map (fun a => (a / 100 * (a / 100))%R) accs) in *.
  assert (Hds : length ts = length ds) by (unfold ds; rewrite length_map; exact Hlen).
  assert (Hd0 : forall i, (0 <= nth i ds 0)%R).
  { intros i. destruct (nth_in_or_default i ds 0%R) as [Hin|E]; [|rewrite E; lra].
    unfold ds in Hin. apply in_map_iff in Hin. destruct Hin as (a & E & _).
    fold ds in E. rewrite <- E. nra. }
  rewrite Hc, Htot. split; [rewrite length_map, length_seq; reflexivity|].
  split; [|split].
  - rewrite nth_error_map_seq by lia. cbn [trapezoid_sum].
    change (#0%num) with (Exact.Fin 0). change (#100%num) with (Exact.Fin 100).
    rewrite !exact_mul. do 2 f_equal. ring.
  - rewrite nth_error_map_seq by lia. reflexivity.
  - intros i Hi.
    destruct (@exact_trapezoid_monotone ts ds Hds Ht Hd0 i ltac:(lia))
      as (c & Hci & Hc0 & Hnext).
    destruct (Hnext Hi) as (d & Hdi & Hcd).
    rewrite !nth_error_map_seq by lia. rewrite Hci, Hdi.
    change (#100%num) with (Exact.Fin 100). rewrite !exact_mul.
    do 2 eexists. split; [reflexivity|]. split; [reflexivity|].
    assert (0 < PI / (2 * (981 / 100)))%R.
    { apply Rdiv_lt_0_compat; [apply PI_RGT_0 | lra]. }
    split; nra.
Qed.

Lemma arias_cumulative_is_nondecreasing_witness :
  exists r,
    ProcessWithMatlab.calculateAriasIntensity (N:=Exact.number)
      (map Exact.Fin [0; 1; 2]%R) (map Exact.Fin [3; -4; 5]%R) = Ok r /\
    length (ProcessWithMatlab.cumulative r) = 3 /\
    nth_error (ProcessWithMatlab.cumulative r) 2 = Some (ProcessWithMatlab.total r).
Proof.
  destruct (@arias_cumulative_is_nondecreasing [0; 1; 2]%R [3; -4; 5]%R)
    as (r & Hr & Hl & _ & Hlast & _).
  - reflexivity.
  - discriminate.
  - intros i Hi. simpl in Hi.
    destruct i as [|[|i]]; [simpl; lra | simpl; lra | lia].
  - exists r. auto.
Defined.

(** ** Response spectrum: the period grid *)

Section PeriodGrid.
Import PrimFloat.
Local Existing Instance Float64.number.

(** The loop [for (let T = 0.01; T <= 10; T += 0.02)] in binary64: 500
    turns; the sum drifts, and the last period is 9.989999999999876. *)
Lemma binary64_period_grid :
  length ProcessWithMatlab.period_grid = 500 /\
  Analysis.period_grid = ProcessWithMatlab.period_grid /\
  nth_error ProcessWithMatlab.period_grid 0 = Some 0x1.47ae147ae147bp-7%float /\
  nth_error ProcessWithMatlab.period_grid 499 = Some 0x1.3fae147ae1435p+3%float /\
  strictly_increasing ProcessWithMatlab.period_grid = true.
Proof. repeat split; vm_compute; reflexivity. Qed.

(** X23: In binary64, whatever the record, calculateResponseSpectrum of
    processWithMatlab.js and calculateResponseSpectra of the analysis module
    called without periods return five arrays of 500 elements each; the
    periods increase strictly from 0.01 to 9.989999999999876, the rounding
    of the repeated addition of 0.02 keeping the last one below 9.99. *)
Theorem response_spectrum_has_500_periods
  (acceleration time : list num) (dampingRatio damping : option num)
  (this : Analysis.options) :
  let r := ProcessWithMatlab.calculateResponseSpectrum acceleration time dampingRatio in
  let r' := Analysis.calculateResponseSpectra this acceleration time None damping in
  (length (ProcessWithMatlab.rs_periods r) = 500 /\
   length (ProcessWithMatlab.rs_frequencies r) = 500 /\
   length (ProcessWithMatlab.rs_SD r) = 500 /\
   length (ProcessWithMatlab.rs_PSV r) = 500 /\
   length (ProcessWithMatlab.rs_PSA r) = 500) /\
  (length (Analysis.rs_periods r') = 500 /\
   length (Analysis.rs_frequencies r') = 500 /\
   length (Analysis.rs_SD r') = 500 /\
   length (Analysis.rs_PSV r') = 500 /\
   length (Analysis.rs_PSA r') = 500) /\
  Analysis.rs_periods r' = ProcessWithMatlab.rs_periods r /\
  nth_error (ProcessWithMatlab.rs_periods r) 0 = Some 0x1.47ae147ae147bp-7%float /\
  nth_error (ProcessWithMatlab.rs_periods r) 499 = Some 0x1.3fae147ae1435p+3%float /\
  strictly_increasing (ProcessWithMatlab.rs_periods r) = true.
Proof.
  intros r r'.
  destruct binary64_period_grid as (Hl & Ha & H0 & Hlast & Hs).
  unfold r, r', ProcessWithMatlab.calculateResponseSpectrum,
    Analysis.calculateResponseSpectra.
  cbn [ProcessWithMatlab.rs_periods ProcessWithMatlab.rs_frequencies
       ProcessWithMatlab.rs_SD ProcessWithMatlab.rs_PSV ProcessWithMatlab.rs_PSA
       Analysis.rs_periods Analysis.rs_frequencies
       Analysis.rs_SD Analysis.rs_PSV Analysis.rs_PSA].
  rewrite !length_map, Ha, Hl. auto 15.
Qed.

End PeriodGrid.

(** ** Newmark integration: only the increments of the record matter *)

Lemma fold_left_ext_in {S A} (f g : S -> A -> S) (l : list A) :
  (forall a, In a l -> forall s, f s a = g s a) ->
  forall s, fold_left f l s = fold_left g l s.
Proof.
  induction l as [|a l IH]; intros H s; [reflexivity|].
  cbn [fold_left]. rewrite (H a (or_introl eq_refl)).
  apply IH. intros b Hb. apply H. right. exact Hb.
Qed.

Section OffsetExact.
Import Exact.
Local Open Scope R_scope.

Lemma nth_map_in {A B} (g : A -> B) (l : list A) (d : A) (e : B) j :
  (j < length l)%nat -> nth j (map g l) e = g (nth j l d).
Proof.
  intros Hj. apply nth_error_nth. rewrite nth_error_map.
  rewrite (nth_error_nth' l d Hj). reflexivity.
Qed.

Lemma exact_increment (accs : list R) (c : R) (j : nat) :
  (1 <= j < length accs)%nat ->
  ((map Fin (map (fun a : R => (a + c)%R) accs)).[j] -
   (map Fin (map (fun a : R => (a + c)%R) accs)).[j - 1])%num =
  ((map Fin accs).[j] - (map Fin accs).[j - 1])%num.
Proof.
  intros Hj. rewrite !exact_at by (rewrite ?length_map; lia).
  rewrite !exact_sub.
  rewrite !(nth_map_in (fun a : R => (a + c)%R) accs 0) by lia.
  f_equal. ring.
Qed.

Lemma pwm_timeIntegration_offset (accs : list R) (c : R)
  (nc : ProcessWithMatlab.newmark_constants) (m d keff : xreal) :
  ProcessWithMatlab.timeIntegration (map Fin (map (fun a : R => (a + c)%R) accs)) nc m d keff =
  ProcessWithMatlab.timeIntegration (map Fin accs) nc m d keff.
Proof.
  unfold ProcessWithMatlab.timeIntegration. rewrite !length_map.
  apply fold_left_ext_in. intros j Hj [[u v] a]. apply in_seq in Hj.
  rewrite exact_increment by lia. reflexivity.
Qed.

Lemma analysis_timeIntegration_offset (accs : list R) (c : R)
  (nc : Analysis.newmark_constants) (m d keff : xreal) :
  Analysis.timeIntegration (map Fin (map (fun a : R => (a + c)%R) accs)) nc m d keff =
  Analysis.timeIntegration (map Fin accs) nc m d keff.
Proof.
  unfold Analysis.timeIntegration. rewrite !length_map.
  apply fold_left_ext_in. intros j Hj [[u v] a]. apply in_seq in Hj.
  rewrite exact_increment by lia. reflexivity.
Qed.

Lemma utils_newmarkBeta_offset (accs : list R) (c : R)
  (dt omega zeta : xreal) (beta gamma : option xreal) :
  Utils.newmarkBeta
    {| Utils.p_acceleration := map Fin (map (fun a : R => (a + c)%R) accs);
       Utils.p_dt := dt; Utils.p_omega := omega; Utils.p_zeta := zeta;
       Utils.p_beta := beta; Utils.p_gamma := gamma |} =
  Utils.newmarkBeta
    {| Utils.p_acceleration := map Fin accs;
       Utils.p_dt := dt; Utils.p_omega := omega; Utils.p_zeta := zeta;
       Utils.p_beta := beta; Utils.p_gamma := gamma |}.
Proof.
  unfold Utils.newmarkBeta.
  cbn [Utils.p_acceleration Utils.p_dt Utils.p_omega Utils.p_zeta
       Utils.p_beta Utils.p_gamma].
  rewrite !length_map.
  match goal with
  | |- context [fold_left ?f (seq 1 ?n) ?s] =>
      match goal with
      | |- context [fold_left ?g (seq 1 n) s] =>
          tryif constr_eq f g then fail
          else (rewrite (@fold_left_ext_in _ _ f g (seq 1 n)); [reflexivity|])
      end
  end.
  intros j Hj [[u v] a]. apply in_seq in Hj.
  rewrite exact_increment by lia. reflexivity.
Qed.

End OffsetExact.

(** X24: In exact arithmetic the Newmark integration reads the ground
    acceleration through its increments only: adding one constant to every
    sample of the record changes neither what newmarkBeta returns nor the
    response spectra of processWithMatlab.js and of the analysis module.  In
    particular a constant ground acceleration excites the oscillator no more
    than none at all. *)
Theorem response_ignores_constant_offset (accs : list R) (c : R)
  (time : list Exact.xreal) (dampingRatio damping : option Exact.xreal)
  (this : @Analysis.options Exact.number) (periods : option (list Exact.xreal))
  (dt omega zeta : Exact.xreal) (beta gamma : option Exact.xreal) :
  let shifted : list (@num Exact.number) :=
    map Exact.Fin (map (fun a : R => (a + c)%R) accs) in
  let record : list (@num Exact.number) := map Exact.Fin accs in
  ProcessWithMatlab.calculateResponseSpectrum (N:=Exact.number) shifted time dampingRatio =
    ProcessWithMatlab.calculateResponseSpectrum record time dampingRatio /\
  Analysis.calculateResponseSpectra (N:=Exact.number) this shifted time periods damping =
    Analysis.calculateResponseSpectra this record time periods damping /\
  Utils.newmarkBeta (N:=Exact.number)
    {| Utils.p_acceleration := shifted;
       Utils.p_dt := dt; Utils.p_omega := omega; Utils.p_zeta := zeta;
       Utils.p_beta := beta; Utils.p_gamma := gamma |} =
  Utils.newmarkBeta (N:=Exact.number)
    {| Utils.p_acceleration := record;
       Utils.p_dt := dt; Utils.p_omega := omega; Utils.p_zeta := zeta;
       Utils.p_beta := beta; Utils.p_gamma := gamma |}.
Proof.
  intros shifted record. split; [|split].
  - unfold ProcessWithMatlab.calculateResponseSpectrum.
    assert (E : forall nc z f,
              ProcessWithMatlab.oscillator (N:=Exact.number) shifted nc z f =
              ProcessWithMatlab.oscillator record nc z f).
    { intros nc z f. unfold ProcessWithMatlab.oscillator, shifted, record.
      rewrite pwm_timeIntegration_offset. reflexivity. }
    rewrite (map_ext _ _ (E _ _)). reflexivity.
  - unfold Analysis.calculateResponseSpectra.
    assert (E : forall nc z T_,
              Analysis.oscillator (N:=Exact.number) shifted nc z T_ =
              Analysis.oscillator record nc z T_).
    { intros nc z T_. unfold Analysis.oscillator, shifted, record.
      rewrite analysis_timeIntegration_offset. reflexivity. }
    rewrite (map_ext _ _ (E _ _)). reflexivity.
  - apply utils_newmarkBeta_offset.
Qed.

(** ** The high-pass filter with a corner frequency below every bin *)

Section AllPass.
Import Exact Cplx LeastSquares.
Local Open Scope R_scope.

Lemma nth_padded (x : list R) (p k : nat) : nth k (x ++ repeat 0 p) 0 = nth k x 0.
Proof.
  destruct (Nat.lt_ge_cases k (length x)) as [Hk|Hk].
  - apply app_nth1. exact Hk.
  - rewrite app_nth2 by exact Hk. rewrite (nth_overflow x) by exact Hk.
    destruct (Nat.lt_ge_cases (k - length x) p) as [Hp|Hp].
    + apply nth_repeat_lt. exact Hp.
    + apply nth_overflow. rewrite repeat_length. exact Hp.
Qed.

(** the spectrum that fft of processWithMatlab.js returns on real samples *)
Lemma exact_pwm_fft (x : list R) :
  x <> [] ->
  let m := Nat.log2_up (length x) in
  (length x <= 2 ^ m)%nat /\
  @ProcessWithMatlab.fft Exact.number exact_trig (map Fin x) =
  Ok (map Some (tabulate (2 ^ m)
        (fun k => embed (transform Cadd Cmul Csub root m (fun j => (nth j x 0, 0)) k)))).
Proof.
  intros Hx m. split; [apply (nextPow2_ge (length x))|].
  unfold ProcessWithMatlab.fft, ProcessWithMatlab._fftRecursive. rewrite length_map.
  destruct (Nat.leb_spec (length x) 1) as [Hle|Hgt].
  - destruct x as [|a [|b t]]; [congruence | | simpl in Hle; lia]. reflexivity.
  - set (p := (nextPow2 (length x) - length x)%nat).
    match goal with |- context [Radix2.fftRecursive ?y] =>
      replace y with (map (fun v => embed (v, 0)) (x ++ repeat 0 p))
        by (rewrite !map_app, !map_repeat, map_map; reflexivity)
    end.
    rewrite <- (tabulate_nth (fun v => embed (v, 0)) (x ++ repeat 0 p) 0).
    rewrite length_app, repeat_length.
    replace (length x + p)%nat with (2 ^ m)%nat
      by (unfold p, m; symmetry; apply padded_pow2).
    rewrite (exact_fftRecursive m (fun k => (nth k (x ++ repeat 0 p) 0, 0))).
    do 2 f_equal. apply tabulate_ext. intros k Hk. f_equal.
    apply transform_ext; [|exact Hk].
    intros j _. rewrite nth_padded. reflexivity.
Qed.

Lemma js_store_repeat_same {A} (v : A) (n i : nat) :
  (i < n)%nat -> js_store i (Some v) (repeat (Some v) n) = repeat (Some v) n.
Proof.
  revert i. induction n as [|n IH]; intros i Hi; [lia|].
  destruct i as [|i]; cbn [repeat js_store]; [reflexivity|].
  rewrite IH by lia. reflexivity.
Qed.

Lemma js_get_repeat {A} (v : A) (n i : nat) :
  (i < n)%nat -> js_get (repeat (Some v) n) i = Some v.
Proof.
  intros Hi. unfold js_get.
  rewrite (nth_error_nth' _ (Some v)) by (rewrite repeat_length; exact Hi).
  rewrite nth_repeat. reflexivity.
Qed.

(** mirroring a mask of ones leaves it as it is *)
Lemma mirror_ones {A} (v : A) (n s c : nat) :
  (1 <= s)%nat -> (s + c <= n)%nat ->
  fold_left (fun flt i => js_store i (js_get flt (n - i)) flt) (seq s c)
            (repeat (Some v) n) =
  repeat (Some v) n.
Proof.
  revert s. induction c as [|c IH]; intros s Hs Hc; [reflexivity|].
  cbn [seq fold_left]. rewrite js_get_repeat by lia.
  rewrite js_store_repeat_same by lia. apply IH; lia.
Qed.

Lemma map_obj_from_map_seq {A B} (g : A -> nat -> B) (h : nat -> A) (c : nat) :
  forall k, map_obj_from k g (map Some (map h (seq k c))) =
            Ok (map (fun i => g (h i) i) (seq k c)).
Proof.
  induction c as [|c IH]; intros k; [reflexivity|].
  cbn [seq map map_obj_from obj bind]. rewrite IH. reflexivity.
Qed.

Lemma map_obj_tabulate {A B} (g : A -> nat -> B) (h : nat -> A) (n : nat) :
  map_obj g (map Some (tabulate n h)) = Ok (tabulate n (fun i => g (h i) i)).
Proof. apply map_obj_from_map_seq. Qed.

Lemma mask_of_ones (n : nat) (fs fc : R) :
  0 < fs -> fc <= 0 ->
  map (fun f : num => Some (if (f >=? Fin fc)%num then #1%num else #0%num))
      (tabulate n (fun i => (of_nat i * Fin fs / of_nat n)%num)) =
  repeat (Some (Fin 1)) n.
Proof.
  intros Hfs Hfc. rewrite map_tabulate.
  transitivity (tabulate n (fun _ : nat => Some (Fin 1)));
    [|unfold tabulate; rewrite map_const, length_seq; reflexivity].
  apply tabulate_ext. intros i Hi.
  rewrite !exact_of_nat, exact_mul.
  rewrite exact_div by (apply not_0_INR; lia).
  rewrite exact_le_true; [reflexivity|].
  assert (0 <= INR i) by apply pos_INR.
  assert (0 < INR n) by (apply lt_0_INR; lia).
  assert (0 <= INR i * fs / INR n).
  { apply Rmult_le_pos; [nra|]. left. apply Rinv_0_lt_compat. assumption. }
  lra.
Qed.

(** inverse after forward transform in processWithMatlab.js, on the padded
    samples *)
Lemma exact_pwm_ifft_fft (x : list R) (m : nat) :
  @ProcessWithMatlab.ifft Exact.number exact_trig
    (tabulate (2 ^ m)
       (fun k => embed (transform Cadd Cmul Csub root m (fun j => (nth j x 0, 0)) k))) =
  Ok (tabulate (2 ^ m) (fun k => embed (nth k x 0, 0))).
Proof.
  unfold ProcessWithMatlab.ifft, ProcessWithMatlab._fftRecursive.
  rewrite length_tabulate, map_tabulate.
  set (f := fun j : nat => (nth j x 0, 0) : C).
  rewrite (tabulate_ext _
             (fun k => embed (Cconj (transform Cadd Cmul Csub root m f k))))
    by (intros; reflexivity).
  rewrite exact_fftRecursive. cbn [bind].
  rewrite map_obj_tabulate. f_equal. apply tabulate_ext. intros k Hk.
  pose proof (@C_round_trip m f k Hk) as Hrt.
  set (z := transform Cadd Cmul Csub root m
              (fun j => Cconj (transform Cadd Cmul Csub root m f j)) k) in *.
  unfold Cconj, f in Hrt. cbn [fst snd] in Hrt.
  injection Hrt as Hre Him.
  unfold embed, of_nat. cbn [real imag of_Z js_div js_neg number xdiv xneg fst snd].
  rewrite IZR_of_nat_pow2.
  assert (Hnz : 2 ^ m <> 0) by (apply pow_nonzero; lra).
  destruct (Req_dec_T (2 ^ m) 0) as [E|_]; [contradiction|].
  rewrite Hre, Him. f_equal; f_equal; field; exact Hnz.
Qed.

Lemma firstn_seq_le (n c : nat) : forall s, (n <= c)%nat -> firstn n (seq s c) = seq s n.
Proof.
  revert c. induction n as [|n IH]; intros c s Hn; [reflexivity|].
  destruct c as [|c]; [lia|]. cbn [seq firstn]. rewrite IH by lia. reflexivity.
Qed.

Lemma exact_pwm_detrend (ys : list R) :
  exists ds, ProcessWithMatlab.detrend (N:=Exact.number) (map Fin ys) = map Fin ds /\
             length ds = length ys.
Proof.
  destruct (Nat.lt_ge_cases (length ys) 2) as [Hlt|Hge].
  - exists ys. split; [|reflexivity].
    unfold ProcessWithMatlab.detrend. rewrite length_map.
    destruct (Nat.ltb_spec (length ys) 2); [reflexivity | lia].
  - exists (residuals ys). split; [|apply residuals_length].
    destruct (@detrend_copies Exact.number (map Fin ys)) as (-> & _);
      [rewrite length_map; exact Hge|].
    apply exact_utils_detrend. exact Hge.
Qed.

Lemma exact_pwm_highPassFilter_all_pass (ys : list R) (fs fc : R) :
  ys <> [] -> 0 < fs -> fc <= 0 ->
  @ProcessWithMatlab.highPassFilter Exact.number exact_trig (map Fin ys) (Fin fs) (Fin fc) =
  Ok (ProcessWithMatlab.detrend (N:=Exact.number) (map Fin ys)).
Proof.
  intros Hne Hfs Hfc.
  destruct (exact_pwm_detrend ys) as (ds & Hds & Hl).
  unfold ProcessWithMatlab.highPassFilter. rewrite Hds.
  assert (Hdne : ds <> []) by (intros E; rewrite E in Hl; destruct ys; [congruence | discriminate]).
  destruct (exact_pwm_fft Hdne) as [Hle ->]. cbn [bind].
  set (m := Nat.log2_up (length ds)) in *.
  rewrite length_map, length_tabulate.
  rewrite mask_of_ones by assumption.
  pose proof (pow2_pos m) as Hpos.
  assert (Hhalf : (2 ^ m / 2 < 2 ^ m)%nat) by (apply Nat.div_lt; lia).
  rewrite mirror_ones by lia.
  rewrite map_obj_tabulate. cbn [bind].
  rewrite (tabulate_ext _
             (fun k => embed (transform Cadd Cmul Csub root m
                                (fun j => (nth j ds 0, 0)) k))).
  2:{ intros k Hk. unfold hole_at. rewrite js_get_repeat by exact Hk.
      cbn [to_num]. unfold embed. cbn [real imag].
      rewrite !exact_mul. f_equal; f_equal; ring. }
  rewrite exact_pwm_ifft_fft. cbn [bind]. f_equal.
  rewrite map_tabulate. cbn [embed real fst].
  rewrite length_map, <- Hl.
  unfold tabulate. rewrite firstn_map, firstn_seq_le by exact Hle.
  exact (tabulate_nth Fin ds 0).
Qed.

(** the same for utils.js, which pads in fft and does not slice *)
Lemma exact_utils_fft (x : list R) :
  x <> [] ->
  let m := Nat.log2_up (length x) in
  @Utils.fft Exact.number exact_trig (map Re (map Fin x)) =
  Ok (map Some (tabulate (2 ^ m)
        (fun k => embed (transform Cadd Cmul Csub root m (fun j => (nth j x 0, 0)) k)))).
Proof.
  intros Hx m.
  unfold Utils.fft, Utils.fftRecursive. rewrite !length_map.
  destruct (Nat.leb_spec (length x) 1) as [Hle|Hgt].
  - destruct x as [|a [|b t]]; [congruence | | simpl in Hle; lia]. reflexivity.
  - set (p := (nextPow2 (length x) - length x)%nat).
    match goal with |- context [Radix2.fftRecursive ?y] =>
      replace y with (map (fun v => embed (v, 0)) (x ++ repeat 0 p))
    end.
    2:{ destruct (Nat.eqb_spec (length x) (nextPow2 (length x))) as [E|E]; cbn [negb].
        - replace p with 0%nat by (unfold p; lia). cbn [repeat]. rewrite app_nil_r.
          rewrite !map_map. reflexivity.
        - rewrite !map_app, !map_repeat, !map_map. reflexivity. }
    rewrite <- (tabulate_nth (fun v => embed (v, 0)) (x ++ repeat 0 p) 0).
    rewrite length_app, repeat_length.
    replace (length x + p)%nat with (2 ^ m)%nat
      by (unfold p, m; symmetry; apply padded_pow2).
    rewrite (exact_fftRecursive m (fun k => (nth k (x ++ repeat 0 p) 0, 0))).
    do 2 f_equal. apply tabulate_ext. intros k Hk. f_equal.
    apply transform_ext; [|exact Hk].
    intros j _. rewrite nth_padded. reflexivity.
Qed.

Lemma exact_utils_ifft_fft (x : list R) (m : nat) :
  @Utils.ifft Exact.number exact_trig
    (map Some (tabulate (2 ^ m)
       (fun k => embed (transform Cadd Cmul Csub root m (fun j => (nth j x 0, 0)) k)))) =
  Ok (tabulate (2 ^ m) (fun k => embed (nth k x 0, 0))).
Proof.
  unfold Utils.ifft. rewrite map_obj_tabulate. cbn [bind].
  rewrite utils_fft_pow2
    by (rewrite length_map, length_tabulate; apply Pow2_pow).
  rewrite map_map. cbn [to_complex]. rewrite map_id.
  set (f := fun j : nat => (nth j x 0, 0) : C).
  rewrite (tabulate_ext _
             (fun k => embed (Cconj (transform Cadd Cmul Csub root m f k))))
    by (intros; reflexivity).
  rewrite exact_fftRecursive. cbn [bind].
  rewrite length_map, length_tabulate.
  rewrite map_obj_tabulate. f_equal. apply tabulate_ext. intros k Hk.
  pose proof (@C_round_trip m f k Hk) as Hrt.
  set (z := transform Cadd Cmul Csub root m
              (fun j => Cconj (transform Cadd Cmul Csub root m f j)) k) in *.
  unfold Cconj, f in Hrt. cbn [fst snd] in Hrt.
  injection Hrt as Hre Him.
  unfold embed, of_nat. cbn [real imag of_Z js_div js_neg number xdiv xneg fst snd].
  rewrite IZR_of_nat_pow2.
  assert (Hnz : 2 ^ m <> 0) by (apply pow_nonzero; lra).
  destruct (Req_dec_T (2 ^ m) 0) as [E|_]; [contradiction|].
  rewrite Hre, Him. f_equal; f_equal; field; exact Hnz.
Qed.

Lemma exact_utils_highPassFilter_all_pass (ys : list R) (fs fc : R) :
  ys <> [] -> 0 < fs -> fc <= 0 ->
  @Utils.highPassFilter Exact.number exact_trig (map Fin ys) (Fin fs) (Fin fc) =
  Ok (Utils.detrend (N:=Exact.number) (map Fin ys) ++
      repeat (Fin 0) (padded_length (length ys) - length ys)).
Proof.
  intros Hne Hfs Hfc.
  destruct (exact_pwm_detrend ys) as (ds & Hds & Hl).
  assert (Hds' : Utils.detrend (N:=Exact.number) (map Fin ys) = map Fin ds)
    by exact Hds.
  unfold Utils.highPassFilter. rewrite Hds'.
  assert (Hdne : ds <> []) by (intros E; rewrite E in Hl; destruct ys; [congruence | discriminate]).
  rewrite (exact_utils_fft Hdne). cbn [bind].
  set (m := Nat.log2_up (length ds)) in *.
  assert (Hpad : padded_length (length ys) = (2 ^ m)%nat).
  { unfold padded_length, m, nextPow2. rewrite Hl.
    destruct (Nat.leb_spec (length ys) 1) as [Hle|_]; [|reflexivity].
    destruct ys as [|a [|b t]]; [congruence | reflexivity | simpl in Hle; lia]. }
  assert (Hle : (length ds <= 2 ^ m)%nat) by apply (nextPow2_ge (length ds)).
  rewrite length_map, length_tabulate.
  rewrite mask_of_ones by assumption.
  pose proof (pow2_pos m) as Hpos.
  assert (Hhalf : (2 ^ m / 2 < 2 ^ m)%nat) by (apply Nat.div_lt; lia).
  match goal with |- context [if ?c then ?A else ?B] =>
    let H := fresh in
    assert (H : (if c then A else B) = A) by (destruct c; reflexivity);
    rewrite H; clear H
  end.
  rewrite mirror_ones by lia.
  rewrite map_obj_tabulate. cbn [bind].
  rewrite (tabulate_ext _
             (fun k => embed (transform Cadd Cmul Csub root m
                                (fun j => (nth j ds 0, 0)) k))).
  2:{ intros k Hk. unfold hole_at. rewrite js_get_repeat by exact Hk.
      cbn [to_num]. unfold embed. cbn [real imag].
      rewrite !exact_mul. f_equal; f_equal; ring. }
  rewrite exact_utils_ifft_fft. cbn [bind]. f_equal.
  rewrite map_tabulate. cbn [embed real fst].
  rewrite Hpad, <- Hl.
  set (p := (2 ^ m - length ds)%nat).
  match goal with |- _ = _ ++ ?r =>
    replace r with (map Fin (repeat 0 p)) by apply map_repeat
  end.
  rewrite <- map_app.
  rewrite <- (tabulate_nth Fin (ds ++ repeat 0 p) 0).
  rewrite length_app, repeat_length.
  replace (length ds + p)%nat with (2 ^ m)%nat by (unfold p; lia).
  apply tabulate_ext. intros k _. rewrite nth_padded. reflexivity.
Qed.

End AllPass.

(** X25: In exact arithmetic, with a positive sampling frequency and a corner
    frequency that is not positive, so that no bin lies below it,
    highPassFilter of processWithMatlab.js and preprocessBoore of
    earthquakeAnalysis.js return what detrend returns: the pass through
    the padded transform, the mask, the mirroring loop, the inverse
    transform and the slice changes no sample.  highPassFilter of utils.js,
    which does not slice, returns what detrend returns followed by the
    zeros of the padding. *)
Theorem highPassFilter_below_every_bin (ys : list R) (fs fc : R) :
  ys <> [] -> (0 < fs)%R -> (fc <= 0)%R ->
  @ProcessWithMatlab.highPassFilter Exact.number exact_trig
     (map Exact.Fin ys) (Exact.Fin fs) (Exact.Fin fc) =
    Ok (ProcessWithMatlab.detrend (N:=Exact.number) (map Exact.Fin ys)) /\
  @Gui.preprocessBoore Exact.number exact_trig
     (map Exact.Fin ys) (Exact.Fin fs) (Exact.Fin fc) =
    Ok (Gui.detrend (N:=Exact.number) (map Exact.Fin ys)) /\
  @Utils.highPassFilter Exact.number exact_trig
     (map Exact.Fin ys) (Exact.Fin fs) (Exact.Fin fc) =
    Ok (Utils.detrend (N:=Exact.number) (map Exact.Fin ys) ++
        repeat (Exact.Fin 0) (padded_length (length ys) - length ys)).
Proof.
  intros Hne Hfs Hfc. split; [|split].
  - apply exact_pwm_highPassFilter_all_pass; assumption.
  - rewrite gui_preprocessBoore_eq.
    apply exact_pwm_highPassFilter_all_pass; assumption.
  - apply exact_utils_highPassFilter_all_pass; assumption.
Qed.

Lemma highPassFilter_below_every_bin_witness :
  @ProcessWithMatlab.highPassFilter Exact.number exact_trig
     (map Exact.Fin [1; 4; 2]%R) (Exact.Fin 100) (Exact.Fin 0) =
  Ok (ProcessWithMatlab.detrend (N:=Exact.number) (map Exact.Fin [1; 4; 2]%R)).
Proof.
  apply (proj1 (@highPassFilter_below_every_bin [1; 4; 2]%R 100%R 0%R
                  ltac:(discriminate) ltac:(lra) ltac:(lra))).
Defined.

(** ** maxAbs and the peak values *)

Section PeakExact.
Import Exact.
Local Open Scope R_scope.

Local Notation pick :=
  (fun m x : num => if isNaN m || isNaN x then NaN
                    else if (m <? x)%num then x else m).

Lemma exact_max_loop (l : list R) : forall m0,
  exists m, fold_left pick (map Fin l) (Fin m0) = Fin m /\
            (m = m0 \/ In m l) /\ m0 <= m /\ forall x, In x l -> x <= m.
Proof.
  induction l as [|a l IH]; intros m0; cbn [map fold_left].
  - exists m0. repeat split; [auto | lra | intros x []].
  - cbn [isNaN number orb].
    destruct (Rlt_dec m0 a) as [Hlt|Hge].
    + rewrite exact_lt_true by exact Hlt.
      destruct (IH a) as (m & Hm & Hin & Hle & Hall).
      exists m. split; [exact Hm|]. split; [|split].
      * right. destruct Hin as [->|Hin]; [left; reflexivity | right; exact Hin].
      * lra.
      * intros x [<-|Hx]; [exact Hle | apply Hall; exact Hx].
    + rewrite exact_lt_false by lra.
      destruct (IH m0) as (m & Hm & Hin & Hle & Hall).
      exists m. split; [exact Hm|]. split; [|split].
      * destruct Hin as [->|Hin]; [left; reflexivity | right; right; exact Hin].
      * exact Hle.
      * intros x [<-|Hx]; [lra | apply Hall; exact Hx].
Qed.

Lemma exact_Math_max (l : list R) :
  l <> [] ->
  exists m, Math_max (N:=Exact.number) (map Fin l) = Fin m /\ In m l /\
            forall x, In x l -> x <= m.
Proof.
  intros Hne. destruct l as [|a l]; [congruence|].
  unfold Math_max. cbn [map fold_left].
  change (- Infinity)%num with NInf. cbn [isNaN number orb js_lt xlt].
  destruct (exact_max_loop l a) as (m & Hm & Hin & Hle & Hall).
  exists m. split; [exact Hm|]. split.
  - destruct Hin as [->|Hin]; [left; reflexivity | right; exact Hin].
  - intros x [<-|Hx]; [exact Hle | apply Hall; exact Hx].
Qed.

Lemma max_loop_NaN (l : list xreal) : fold_left pick l XNaN = XNaN.
Proof. induction l as [|a l IH]; [reflexivity | exact IH]. Qed.

Lemma exact_Math_max_NaN (l : list xreal) :
  In XNaN l -> Math_max (N:=Exact.number) l = XNaN.
Proof.
  unfold Math_max. generalize (- Infinity)%num.
  induction l as [|a l IH]; intros m0 Hin; [destruct Hin|].
  cbn [fold_left]. destruct Hin as [->|Hin].
  - replace (isNaN m0 || isNaN (Number:=Exact.number) XNaN) with true
      by (destruct (isNaN m0); reflexivity).
    apply max_loop_NaN.
  - apply IH. exact Hin.
Qed.

Lemma map_abs_Fin (l : list R) :
  map (Math_abs (Number:=Exact.number)) (map Fin l) = map Fin (map Rabs l).
Proof. rewrite !map_map. reflexivity. Qed.

End PeakExact.

(** X26: maxAbs, and with it the peak ground acceleration of calculatePeakValues,
    in exact arithmetic: on finite samples, not none, it is the largest
    absolute value, attained by one of the samples; on no sample it is
    -Infinity; as soon as one sample is NaN it is NaN. *)
Theorem maxAbs_is_the_peak :
  (forall l : list R, l <> [] ->
     exists m, Utils.maxAbs (N:=Exact.number) (map Exact.Fin l) = Exact.Fin m /\
               (exists x, In x l /\ m = Rabs x) /\
               (forall x, In x l -> (Rabs x <= m)%R) /\
               forall velocity displacement,
                 ProcessWithMatlab.PGA
                   (ProcessWithMatlab.calculatePeakValues (N:=Exact.number)
                      (map Exact.Fin l) velocity displacement) = Exact.Fin m) /\
  Utils.maxAbs (N:=Exact.number) [] = Exact.NInf /\
  (forall l : list Exact.xreal,
     In Exact.XNaN l -> Utils.maxAbs (N:=Exact.number) l = Exact.XNaN).
Proof.
  split; [|split].
  - intros l Hne. unfold Utils.maxAbs. rewrite map_abs_Fin.
    destruct (@exact_Math_max (map Rabs l)) as (m & Hm & Hin & Hall).
    { destruct l; [congruence | discriminate]. }
    exists m. split; [exact Hm|].
    apply in_map_iff in Hin. destruct Hin as (x & Hx & Hxl).
    split; [exists x; auto|]. split.
    + intros y Hy. apply Hall. apply in_map. exact Hy.
    + intros velocity displacement. cbn [ProcessWithMatlab.calculatePeakValues
        ProcessWithMatlab.PGA]. rewrite map_abs_Fin. exact Hm.
  - reflexivity.
  - intros l Hin. unfold Utils.maxAbs. apply exact_Math_max_NaN.
    change Exact.XNaN with (Math_abs (Number:=Exact.number) Exact.XNaN).
    apply in_map. exact Hin.
Qed.

Lemma maxAbs_is_the_peak_witness :
  exists m, Utils.maxAbs (N:=Exact.number) (map Exact.Fin [1; -3; 2]%R) = Exact.Fin m /\
            (exists x, In x [1; -3; 2]%R /\ m = Rabs x) /\
            (forall x, In x [1; -3; 2]%R -> (Rabs x <= m)%R).
Proof.
  destruct (proj1 maxAbs_is_the_peak [1; -3; 2]%R ltac:(discriminate))
    as (m & Hm & Hx & Hall & _).
  exists m. auto.
Defined.

(** ** Arguments that are falsy *)

Section FalsyArguments.
Import PrimFloat.
Local Existing Instance Float64.number.

(** X27: The analysis module takes its optional arguments by [damping ||
    default] and [threshold || default]: in binary64 a damping ratio of 0,
    of -0 or NaN gives the response spectra of the damping ratio of the
    options, never those of the undamped oscillator, and a threshold of 0
    gives the bracketed duration for 5 % of the peak.  processWithMatlab.js
    takes the damping ratio as a default parameter: there 0 stays 0. *)
Theorem zero_argument_falls_back_to_default
  (this : Analysis.options) (acceleration time : list num)
  (periods : option (list num)) :
  (forall z, In z [0; -0; nan]%float ->
     Analysis.calculateResponseSpectra this acceleration time periods (Some z) =
     Analysis.calculateResponseSpectra this acceleration time periods None /\
     Analysis.calculateBracketedDuration acceleration time (Some z) =
     Analysis.calculateBracketedDuration acceleration time None) /\
  Analysis.rs_damping
    (Analysis.calculateResponseSpectra this acceleration time periods (Some 0%float)) =
    Analysis.dampingRatio this /\
  ProcessWithMatlab.rs_dampingRatio
    (ProcessWithMatlab.calculateResponseSpectrum acceleration time (Some 0%float)) =
    0%float.
Proof.
  split; [|split; reflexivity].
  intros z Hz.
  unfold Analysis.calculateResponseSpectra, Analysis.calculateBracketedDuration.
  destruct Hz as [<-|[<-|[<-|[]]]]; split; reflexivity.
Qed.

Lemma zero_argument_falls_back_to_default_witness :
  Analysis.calculateResponseSpectra Analysis.default_options
    [#1; #2; #1]%num [#0; #1; #2]%num (Some [#1]%num) (Some 0%float) =
  Analysis.calculateResponseSpectra Analysis.default_options
    [#1; #2; #1]%num [#0; #1; #2]%num (Some [#1]%num) None.
Proof.
  apply (proj1 (zero_argument_falls_back_to_default Analysis.default_options
                  [#1; #2; #1]%num [#0; #1; #2]%num (Some [#1]%num))
               0%float).
  simpl. auto.
Defined.

End FalsyArguments.

(** ** The integrator on a line, and motion under constant acceleration *)

Section IntegratorExact.
Import Exact.
Local Open Scope R_scope.

Lemma exact_at_map (g : R -> R) (ts : list R) (k : nat) :
  (k < length ts)%nat ->
  at_ (N:=Exact.number) (map Fin (map g ts)) k = Fin (g (nth k ts 0)).
Proof.
  intros Hk. rewrite exact_at by (rewrite length_map; exact Hk).
  rewrite (nth_map_in g ts 0) by exact Hk. reflexivity.
Qed.

(** the trapezoid rule is exact on a line, whatever the steps *)
Lemma exact_trapezoid_line (ts : list R) (a b : R) (k : nat) :
  (k < length ts)%nat ->
  trapezoid_sum (N:=Exact.number) (map Fin ts)
                (map Fin (map (fun t => a + b * t) ts)) k =
  Fin (a * (nth k ts 0 - nth 0 ts 0) +
       b * (nth k ts 0 * nth k ts 0 - nth 0 ts 0 * nth 0 ts 0) / 2).
Proof.
  induction k as [|j IH]; intros Hk.
  - cbn. f_equal. field.
  - cbn [trapezoid_sum]. rewrite IH by lia.
    rewrite !exact_at_map, !exact_at by lia.
    rewrite exact_dec by lra.
    rewrite exact_add, exact_sub, !exact_mul, exact_add. f_equal.
    change (IZR 5 / IZR 10) with (5 / 10). field.
Qed.

Lemma exact_trapezoid_utils_line (ts : list R) (a b : R) (k : nat) :
  (k < length ts)%nat ->
  trapezoid_sum_utils (N:=Exact.number) (map Fin ts)
                      (map Fin (map (fun t => a + b * t) ts)) k =
  Fin (a * (nth k ts 0 - nth 0 ts 0) +
       b * (nth k ts 0 * nth k ts 0 - nth 0 ts 0 * nth 0 ts 0) / 2).
Proof.
  induction k as [|j IH]; intros Hk.
  - cbn. f_equal. field.
  - cbn [trapezoid_sum_utils]. rewrite IH by lia.
    rewrite !exact_at_map, !exact_at by lia.
    change (#2%num) with (Fin 2).
    rewrite exact_add, exact_sub, exact_div by lra.
    rewrite exact_mul, exact_add. f_equal. field.
Qed.

Lemma map_over_indices {B} (g : R -> B) (ts : list R) :
  map g ts = map (fun k => g (nth k ts 0)) (seq 0 (length ts)).
Proof. symmetry. exact (tabulate_nth g ts 0). Qed.

Lemma exact_utils_cumtrapz_line (ts : list R) (a b : R) :
  ts <> [] ->
  Utils.cumtrapz (N:=Exact.number) (map Fin ts) (map Fin (map (fun t => a + b * t) ts)) =
  Ok (map (fun t => Some (Fin (a * (t - nth 0 ts 0) +
                               b * (t * t - nth 0 ts 0 * nth 0 ts 0) / 2))) ts).
Proof.
  intros Hne.
  assert (Hpos : (1 <= length ts)%nat) by (destruct ts; [congruence | simpl; lia]).
  rewrite utils_cumtrapz_eq by (rewrite !length_map; reflexivity).
  rewrite length_map. replace (Nat.max 1 (length ts)) with (length ts) by lia.
  f_equal.
  match goal with |- _ = map ?g ts => rewrite (map_over_indices g ts) end.
  apply map_ext_in. intros k Hk. apply in_seq in Hk.
  rewrite exact_trapezoid_utils_line by lia. reflexivity.
Qed.

Lemma exact_pwm_cumtrapz_line (ts : list R) (a b : R) :
  ts <> [] ->
  ProcessWithMatlab.cumtrapz (N:=Exact.number)
    (map Fin ts) (map Fin (map (fun t => a + b * t) ts)) =
  Ok (map (fun t => Some (Fin (a * (t - nth 0 ts 0) +
                               b * (t * t - nth 0 ts 0 * nth 0 ts 0) / 2))) ts).
Proof.
  intros Hne.
  assert (Hpos : (1 <= length ts)%nat) by (destruct ts; [congruence | simpl; lia]).
  rewrite pwm_cumtrapz_eq by (rewrite !length_map; reflexivity).
  rewrite !length_map. replace (Nat.max 1 (length ts)) with (length ts) by lia.
  f_equal.
  match goal with |- _ = map ?g ts => rewrite (map_over_indices g ts) end.
  apply map_ext_in. intros k Hk. apply in_seq in Hk.
  rewrite exact_trapezoid_line by lia. reflexivity.
Qed.

(** non-decreasing from one sample to the next is non-decreasing *)
Lemma nondecreasing_nth (ts : list R) :
  (forall i, (S i < length ts)%nat -> nth i ts 0 <= nth (S i) ts 0) ->
  forall i j, (i <= j < length ts)%nat -> nth i ts 0 <= nth j ts 0.
Proof.
  intros H i j. induction j as [|j IH]; intros Hij.
  - replace i with 0%nat by lia. lra.
  - destruct (Nat.eq_dec i (S j)) as [->|Hne]; [lra|].
    apply Rle_trans with (nth j ts 0); [apply IH; lia | apply H; lia].
Qed.

(** the largest of the values g t over non-decreasing times t, for a
    non-decreasing g >= 0 ... is the value at the last time *)
Lemma exact_Math_max_last (g : R -> R) (ts : list R) :
  ts <> [] ->
  (forall t, In t ts -> g t <= g (last ts 0)) ->
  Math_max (N:=Exact.number) (map Fin (map g ts)) = Fin (g (last ts 0)).
Proof.
  intros Hne Hmax.
  destruct (@exact_Math_max (map g ts)) as (m & Hm & Hin & Hall).
  { destruct ts; [congruence | discriminate]. }
  rewrite Hm. f_equal.
  apply in_map_iff in Hin. destruct Hin as (t & <- & Ht).
  apply Rle_antisym; [apply Hmax; exact Ht|].
  apply Hall. apply in_map.
  destruct (exists_last Hne) as (l & z & ->). rewrite last_last.
  apply in_or_app. right. left. reflexivity.
Qed.

End IntegratorExact.

(** X28: In exact arithmetic cumtrapz integrates a line exactly, whatever the
    steps of the time array: on the samples a + b t of a line at the times
    t_0, t_1, ... both copies return a (t_k - t_0) + b (t_k^2 - t_0^2) / 2 at
    index k. *)
Theorem cumtrapz_is_exact_on_lines (ts : list R) (a b : R) :
  ts <> [] ->
  let data := map Exact.Fin (map (fun t => (a + b * t)%R) ts) in
  let integral := fun t =>
    Some (Exact.Fin (a * (t - nth 0 ts 0) +
                     b * (t * t - nth 0 ts 0 * nth 0 ts 0) / 2)%R) in
  Utils.cumtrapz (N:=Exact.number) (map Exact.Fin ts) data = Ok (map integral ts) /\
  ProcessWithMatlab.cumtrapz (N:=Exact.number) (map Exact.Fin ts) data =
    Ok (map integral ts).
Proof.
  intros Hne data integral. split.
  - apply exact_utils_cumtrapz_line. exact Hne.
  - apply exact_pwm_cumtrapz_line. exact Hne.
Qed.

Lemma cumtrapz_is_exact_on_lines_witness :
  Utils.cumtrapz (N:=Exact.number) (map Exact.Fin [0; 1; 3]%R)
    (map Exact.Fin (map (fun t => (2 + 5 * t)%R) [0; 1; 3]%R)) =
  Ok (map (fun t => Some (Exact.Fin (2 * (t - 0) + 5 * (t * t - 0 * 0) / 2)%R))
          [0; 1; 3]%R).
Proof.
  apply (proj1 (@cumtrapz_is_exact_on_lines [0; 1; 3]%R 2%R 5%R ltac:(discriminate))).
Defined.

Section Kinematics.
Import Exact.
Local Open Scope R_scope.

(** X29: In exact arithmetic, under a constant acceleration a over times that
    never decrease, calculatePeakGroundMotion returns the velocity
    a (t - t_0) and the displacement a (t - t_0)^2 / 2 at every time t, and
    with T the time from the first sample to the last the peaks
    PGA = |a|, PGV = |a| T and PGD = |a| T^2 / 2. *)
Theorem constant_acceleration_kinematics (ts : list R) (a : R) :
  ts <> [] ->
  (forall i, (S i < length ts)%nat -> nth i ts 0 <= nth (S i) ts 0) ->
  let t0 := nth 0 ts 0 in
  let T := last ts 0 - t0 in
  exists r,
    Analysis.calculatePeakGroundMotion (N:=Exact.number)
      (repeat (Fin a) (length ts)) (map Fin ts) = Ok r /\
    Analysis.velocity r = map (fun t => Some (Fin (a * (t - t0)))) ts /\
    Analysis.displacement r =
      map (fun t => Some (Fin (a * ((t - t0) * (t - t0)) / 2))) ts /\
    Analysis.PGA r = Fin (Rabs a) /\
    Analysis.PGV r = Fin (Rabs a * T) /\
    Analysis.PGD r = Fin (Rabs a * (T * T) / 2).
Proof.
  intros Hne Hmono t0 T.
  assert (Hpos : (1 <= length ts)%nat) by (destruct ts; [congruence | simpl; lia]).
  assert (Hacc : repeat (Fin a) (length ts) = map Fin (map (fun t => a + 0 * t) ts)).
  { rewrite map_map, <- map_const. apply map_ext. intros t. f_equal. ring. }
  assert (Hv : Utils.cumtrapz (N:=Exact.number) (map Fin ts) (repeat (Fin a) (length ts)) =
               Ok (map (fun t => Some (Fin (a * (t - t0)))) ts)).
  { rewrite Hacc, exact_utils_cumtrapz_line by exact Hne.
    f_equal. apply map_ext. intros t. fold t0. do 2 f_equal. field. }
  assert (Hd : Utils.cumtrapz (N:=Exact.number) (map Fin ts)
                 (numbers (N:=Exact.number)
                    (map (fun t => Some (Fin (a * (t - t0)))) ts)) =
               Ok (map (fun t => Some (Fin (a * ((t - t0) * (t - t0)) / 2))) ts)).
  { replace (numbers (N:=Exact.number) (map (fun t => Some (Fin (a * (t - t0)))) ts))
      with (map Fin (map (fun t => - a * t0 + a * t) ts)).
    2:{ unfold numbers. rewrite !map_map. apply map_ext. intros t.
        cbn [to_num]. f_equal. ring. }
    rewrite exact_utils_cumtrapz_line by exact Hne.
    f_equal. apply map_ext. intros t. fold t0. do 2 f_equal. field. }
  unfold Analysis.calculatePeakGroundMotion.
  rewrite repeat_length, length_map, Nat.eqb_refl. cbn [negb].
  rewrite Hv. cbn [bind]. rewrite Hd. cbn [bind].
  eexists. split; [reflexivity|].
  cbn [Analysis.velocity Analysis.displacement Analysis.PGA Analysis.PGV Analysis.PGD].
  split; [reflexivity|]. split; [reflexivity|].
  assert (Hrange : forall t, In t ts -> t0 <= t <= last ts 0).
  { intros t Ht. destruct (In_nth ts t 0 Ht) as (k & Hk & <-).
    split.
    - apply nondecreasing_nth; [exact Hmono | lia].
    - rewrite <- nth_pred_length_last.
      apply nondecreasing_nth; [exact Hmono | lia]. }
  assert (Hlast : In (last ts 0) ts).
  { destruct (exists_last Hne) as (l & z & ->). rewrite last_last.
    apply in_or_app. right. left. reflexivity. }
  assert (HT : 0 <= T) by (unfold T; destruct (Hrange _ Hlast); lra).
  split; [|split].
  - rewrite map_repeat.
    cbn [Math_abs number xabs].
    transitivity (Math_max (N:=Exact.number) (map Fin (map (fun _ => Rabs a) ts)));
      [f_equal; rewrite map_map, map_const; reflexivity|].
    apply (exact_Math_max_last (fun _ => Rabs a)); [exact Hne | intros; lra].
  - unfold map_num. rewrite map_map. cbn [to_num Math_abs number xabs].
    rewrite <- (map_map (fun t => Rabs (a * (t - t0))) Fin).
    rewrite (exact_Math_max_last (fun t => Rabs (a * (t - t0)))).
    + f_equal. fold T. rewrite Rabs_mult. f_equal. apply Rabs_pos_eq. exact HT.
    + exact Hne.
    + intros t Ht. destruct (Hrange t Ht) as [H1 H2].
      rewrite !Rabs_mult, !(Rabs_pos_eq (_ - t0)) by lra.
      apply Rmult_le_compat_l; [apply Rabs_pos | lra].
  - unfold map_num. rewrite map_map. cbn [to_num Math_abs number xabs].
    rewrite <- (map_map (fun t => Rabs (a * ((t - t0) * (t - t0)) / 2)) Fin).
    rewrite (exact_Math_max_last (fun t => Rabs (a * ((t - t0) * (t - t0)) / 2))).
    + f_equal. fold T.
      replace (a * (T * T) / 2) with (a * (T * T / 2)) by field.
      rewrite Rabs_mult, (Rabs_pos_eq (T * T / 2)) by nra. field.
    + exact Hne.
    + intros t Ht. destruct (Hrange t Ht) as [H1 H2].
      replace (a * ((t - t0) * (t - t0)) / 2) with (a * ((t - t0) * (t - t0) / 2)) by field.
      replace (a * ((last ts 0 - t0) * (last ts 0 - t0)) / 2)
        with (a * ((last ts 0 - t0) * (last ts 0 - t0) / 2)) by field.
      rewrite !Rabs_mult.
      rewrite (Rabs_pos_eq ((t - t0) * (t - t0) / 2)) by nra.
      rewrite (Rabs_pos_eq ((last ts 0 - t0) * (last ts 0 - t0) / 2)) by nra.
      apply Rmult_le_compat_l; [apply Rabs_pos | nra].
Qed.

Lemma constant_acceleration_kinematics_witness :
  exists r,
    Analysis.calculatePeakGroundMotion (N:=Exact.number)
      (repeat (Fin 2) 3) (map Fin [0; 1; 3]) = Ok r /\
    Analysis.PGV r = Fin (Rabs 2 * (3 - 0)) /\
    Analysis.PGD r = Fin (Rabs 2 * ((3 - 0) * (3 - 0)) / 2).
Proof.
  destruct (@constant_acceleration_kinematics [0; 1; 3] 2)
    as (r & Hr & _ & _ & _ & Hv & Hd).
  - discriminate.
  - intros i Hi. simpl in Hi.
    destruct i as [|[|i]]; [simpl; lra | simpl; lra | lia].
  - exists r. auto.
Defined.

End Kinematics.

(** ** The transform is the discrete Fourier transform *)

Section Dft.
Import Exact Cplx LeastSquares.
Local Open Scope R_scope.
Add Ring C_ring_dft : C_ring.

Local Notation Csum g n :=
  (rsum (fun j => fst (g j)) n, rsum (fun j => snd (g j)) n).

Lemma Csum_S (g : nat -> C) n : Csum g (S n) = Cadd (Csum g n) (g n).
Proof. unfold Cadd. cbn [fst snd]. rewrite !rsum_S. reflexivity. Qed.

Lemma Csum_ext (f g : nat -> C) n :
  (forall j, (j < n)%nat -> f j = g j) -> Csum f n = Csum g n.
Proof.
  intros H. f_equal; apply rsum_ext; intros j Hj; rewrite (H j Hj); reflexivity.
Qed.

Lemma Csum_halves (g : nat -> C) h :
  Csum g (2 * h) =
  Cadd (Csum (fun j => g (2 * j)%nat) h) (Csum (fun j => g (2 * j + 1)%nat) h).
Proof.
  unfold Cadd. cbn [fst snd].
  rewrite (rsum_halves (fun j => fst (g j))), (rsum_halves (fun j => snd (g j))).
  reflexivity.
Qed.

Lemma Csum_mul (c : C) (g : nat -> C) n :
  Cmul c (Csum g n) = Csum (fun j => Cmul c (g j)) n.
Proof.
  induction n as [|n IH].
  - unfold Cmul, rsum. cbn. f_equal; ring.
  - rewrite !Csum_S, <- IH. ring.
Qed.

Lemma Csum_add (f g : nat -> C) n :
  Cadd (Csum f n) (Csum g n) = Csum (fun j => Cadd (f j) (g j)) n.
Proof.
  induction n as [|n IH].
  - unfold Cadd, rsum. cbn. f_equal; ring.
  - rewrite !Csum_S, <- IH. ring.
Qed.

Lemma Csum_sub (f g : nat -> C) n :
  Csub (Csum f n) (Csum g n) = Csum (fun j => Csub (f j) (g j)) n.
Proof.
  induction n as [|n IH].
  - unfold Csub, rsum. cbn. f_equal; ring.
  - rewrite !Csum_S, <- IH. ring.
Qed.

Lemma root_add a b n : root (a + b) n = Cmul (root a n) (root b n).
Proof.
  unfold root, Cmul. cbn [fst snd].
  rewrite Nat2Z.inj_add, plus_IZR.
  set (x := IZR (-2) * PI * IZR (Z.of_nat a) / IZR (Z.of_nat n)).
  set (y := IZR (-2) * PI * IZR (Z.of_nat b) / IZR (Z.of_nat n)).
  replace (IZR (-2) * PI * (IZR (Z.of_nat a) + IZR (Z.of_nat b)) / IZR (Z.of_nat n))
    with (x + y) by (unfold x, y, Rdiv; ring).
  rewrite cos_plus, sin_plus. f_equal. ring.
Qed.

Lemma root_period j n : (1 <= n)%nat -> root (j * n) n = Cone.
Proof.
  intros Hn. unfold root, Cone.
  rewrite Nat2Z.inj_mul, mult_IZR, <- !INR_IZR_INZ.
  assert (Hnz : INR n <> 0) by (apply not_0_INR; lia).
  replace (IZR (-2) * PI * (INR j * INR n) / INR n) with (- (0 + 2 * INR j * PI))
    by (field; exact Hnz).
  rewrite cos_neg, sin_neg, cos_period, sin_period, cos_0, sin_0.
  f_equal. ring.
Qed.

Lemma root_half h : (1 <= h)%nat -> root h (2 * h) = Copp Cone.
Proof.
  intros Hh. unfold root, Copp, Cone. cbn [fst snd].
  rewrite Nat2Z.inj_mul, mult_IZR, <- !INR_IZR_INZ.
  assert (Hnz : INR h <> 0) by (apply not_0_INR; lia).
  replace (IZR (-2) * PI * INR h / (INR 2 * INR h)) with (- PI)
    by (cbn [INR]; field; exact Hnz).
  rewrite cos_neg, sin_neg, cos_PI, sin_PI. reflexivity.
Qed.

(** the recursion computes the sums of the discrete Fourier transform *)
Lemma transform_dft m : forall (f : nat -> C) k,
  (k < 2 ^ m)%nat ->
  transform Cadd Cmul Csub root m f k =
  Csum (fun j => Cmul (f j) (root (j * k) (2 ^ m))) (2 ^ m).
Proof.
  induction m as [|m IH]; intros f k Hk.
  - replace k with 0%nat by (simpl in Hk; lia).
    unfold rsum. cbn [transform Nat.pow seq map fold_right Nat.mul].
    rewrite root_zero.
    destruct (f 0%nat) as [a b]. unfold Cmul, Cone. cbn [fst snd].
    f_equal; ring.
  - rewrite transform_S. pose proof (pow2_pos m) as Hpos.
    change (2 ^ S m)%nat with (2 * 2 ^ m)%nat in *.
    set (h := (2 ^ m)%nat) in *.
    rewrite Csum_halves.
    destruct (Nat.ltb_spec k h) as [Hlt|Hge].
    + rewrite !IH by exact Hlt. rewrite Csum_mul, !Csum_add.
      apply Csum_ext. intros j Hj.
      replace (2 * j * k)%nat with (2 * (j * k))%nat by lia.
      replace ((2 * j + 1) * k)%nat with (k + 2 * (j * k))%nat by lia.
      rewrite root_add, !root_even by lia. ring.
    + remember (k - h)%nat as k' eqn:Ek.
      assert (E : k = (k' + h)%nat) by lia. clear Ek. subst k.
      rewrite !IH by lia. rewrite Csum_mul, Csum_sub, Csum_add.
      apply Csum_ext. intros j Hj.
      replace (2 * j * (k' + h))%nat with (2 * (j * k') + j * (2 * h))%nat by lia.
      replace ((2 * j + 1) * (k' + h))%nat
        with (k' + 2 * (j * k') + (j * (2 * h) + h))%nat by lia.
      rewrite !root_add, !root_even, !root_period, root_half by lia. ring.
Qed.

Lemma rsum_zero_tail (g : nat -> R) (n n' : nat) :
  (n <= n')%nat -> (forall j, (n <= j)%nat -> g j = 0) -> rsum g n' = rsum g n.
Proof.
  intros Hn H. replace n' with (n + (n' - n))%nat by lia.
  induction (n' - n)%nat as [|p IH]; [rewrite Nat.add_0_r; reflexivity|].
  replace (n + S p)%nat with (S (n + p)) by lia.
  rewrite rsum_S, IH, H by lia. ring.
Qed.

(** the spectrum that fft of utils.js returns, bin by bin *)
Lemma exact_utils_fft_bins (x : list R) (k : nat) :
  x <> [] ->
  let N_ := padded_length (length x) in
  (k < N_)%nat ->
  exists s,
    @Utils.fft Exact.number exact_trig (map Re (map Fin x)) = Ok s /\
    length s = N_ /\
    nth_error s k =
      Some (Some (@Complex Exact.number
         (Fin (rsum (fun j => nth j x 0 * fst (root (j * k) N_)) (length x)))
         (Fin (rsum (fun j => nth j x 0 * snd (root (j * k) N_)) (length x))))).
Proof.
  intros Hx N_ Hk.
  assert (HN : N_ = (2 ^ Nat.log2_up (length x))%nat).
  { unfold N_, padded_length, nextPow2.
    destruct (Nat.leb_spec (length x) 1) as [Hle|_]; [|reflexivity].
    destruct x as [|a [|b t]]; [congruence | reflexivity | simpl in Hle; lia]. }
  rewrite (exact_utils_fft Hx). eexists. split; [reflexivity|].
  rewrite length_map, length_tabulate, <- HN. split; [reflexivity|].
  rewrite nth_error_map, nth_error_tabulate.
  destruct (Nat.ltb_spec k N_) as [_|H]; [|lia]. cbn [option_map].
  rewrite transform_dft by (rewrite <- HN; exact Hk).
  rewrite <- HN. unfold embed. cbn [fst snd].
  assert (Hle : (length x <= N_)%nat) by apply padded_length_ge.
  assert (Htail : forall c s : R, forall j, (length x <= j)%nat ->
            nth j x 0 * c - 0 * s = 0 /\ nth j x 0 * s + 0 * c = 0).
  { intros c s j Hj. rewrite (nth_overflow x) by exact Hj. split; ring. }
  unfold Cmul. cbn [fst snd].
  rewrite (@rsum_zero_tail _ (length x) N_ Hle) by (intros j Hj; apply Htail; exact Hj).
  rewrite (@rsum_zero_tail _ (length x) N_ Hle) by (intros j Hj; apply Htail; exact Hj).
  do 2 f_equal. f_equal; f_equal; apply rsum_ext; intros j _; ring.
Qed.

Lemma root_mirror (j k n : nat) :
  (1 <= k <= n)%nat ->
  root (j * (n - k)) n = Cconj (root (j * k) n).
Proof.
  intros Hk.
  assert (E : Cmul (root (j * (n - k)) n) (root (j * k) n) = Cone).
  { rewrite <- root_add.
    replace (j * (n - k) + j * k)%nat with (j * n)%nat by nia.
    apply root_period. lia. }
  pose proof (root_unit (j * k) n) as Hu.
  set (a := root (j * (n - k)) n) in *. set (b := root (j * k) n) in *.
  transitivity (Cmul a (Cmul (Cconj b) b)); [rewrite Hu; ring|].
  transitivity (Cmul (Cmul a b) (Cconj b)); [ring|].
  rewrite E. ring.
Qed.

End Dft.

(** X30: In exact arithmetic fft of utils.js returns the discrete Fourier
    transform of the samples: with N the padded length, bin k of the spectrum
    of the real samples x_0, ..., x_(n-1) is the sum of the
    x_j exp (-2 pi i j k / N).  The spectrum is conjugate-symmetric: bin N - k
    is the conjugate of bin k. *)
Theorem fft_is_the_discrete_fourier_transform (x : list R) (k : nat) :
  x <> [] ->
  let N_ := padded_length (length x) in
  k < N_ ->
  let re := LeastSquares.rsum
              (fun j => (nth j x 0 * fst (Cplx.root (j * k) N_))%R) (length x) in
  let im := LeastSquares.rsum
              (fun j => (nth j x 0 * snd (Cplx.root (j * k) N_))%R) (length x) in
  exists s,
    @Utils.fft Exact.number exact_trig
       (map (@Re Exact.number) (map Exact.Fin x)) = Ok s /\
    length s = N_ /\
    nth_error s k = Some (Some (@Complex Exact.number (Exact.Fin re) (Exact.Fin im))) /\
    (1 <= k ->
     nth_error s (N_ - k) =
       Some (Some (@Complex Exact.number (Exact.Fin re) (Exact.Fin (- im))))).
Proof.
  intros Hx N_ Hk re im.
  destruct (@exact_utils_fft_bins x k Hx Hk) as (s & Hs & Hl & Hbin).
  exists s. split; [exact Hs|]. split; [exact Hl|]. split; [exact Hbin|].
  intros Hk1.
  destruct (@exact_utils_fft_bins x (N_ - k) Hx) as (s' & Hs' & _ & Hbin');
    [fold N_; lia|].
  fold N_ in Hs', Hbin'. rewrite Hs in Hs'. injection Hs' as <-.
  rewrite Hbin'. do 3 f_equal.
  - f_equal. apply rsum_ext. intros j _.
    rewrite root_mirror by lia. reflexivity.
  - f_equal. unfold im.
    transitivity (LeastSquares.rsum
                    (fun j => (-1 * (nth j x 0 * snd (Cplx.root (j * k) N_)))%R)
                    (length x)).
    + apply rsum_ext. intros j _.
      rewrite root_mirror by lia. unfold Cplx.Cconj. cbn [snd]. ring.
    + rewrite rsum_scal. ring.
Qed.

Lemma fft_is_the_discrete_fourier_transform_witness :
  exists s,
    @Utils.fft Exact.number exact_trig
       (map (@Re Exact.number) (map Exact.Fin [1; 2; 4]%R)) = Ok s /\
    length s = 4.
Proof.
  destruct (@fft_is_the_discrete_fourier_transform [1; 2; 4]%R 1)
    as (s & Hs & Hl & _).
  - discriminate.
  - vm_compute. lia.
  - exists s. split; [exact Hs | exact Hl].
Defined.
